(** * jxclient-go: work queues, rate limiters and the shared informer factory

    A shallow embedding of the Go packages [util/workqueue] and [informers]
    and the properties their specification states about them.

    Conventions.  A Go [int], [int64] or [time.Duration] is a [Z]; where
    the code can leave the 64-bit range the wrap-around is written out.  A
    Go [map] used as a set is a [gset], a [map] used as a dictionary is a
    [gmap].  A method with a pointer receiver takes the receiver's state
    and returns the new one.  A call that parks its goroutine on a
    condition variable is a result of its own ([GetWaits]); a run-time
    panic is [None]. *)

From Stdlib Require Import ZArith List Lia.
From Stdlib Require SpecFloat.
From stdpp Require Import base decidable option list gmap sets.

Local Open Scope Z_scope.

#[local] Set Warnings "-clear-no-such-hyp".

(** ** The deduplicating queue ([util/workqueue], type [Type]) *)

Module Queue.

Section queue.

Context {T : Type} `{Countable T}.

(** The zero value of the key type, which [Get] returns on shutdown. *)
Variable zero : T.

(** [type set[T comparable] map[T]empty] and its four methods. *)
Definition set_has (s : gset T) (item : T) : bool := bool_decide (item ∈ s).
Definition set_insert (s : gset T) (item : T) : gset T := {[item]} ∪ s.
Definition set_delete (s : gset T) (item : T) : gset T := s ∖ {[item]}.

(** The fields of [Type] that the queue operations read and write.  The
    condition variable only parks and wakes goroutines; the clock and the
    update period are not used by any operation below. *)
Record Type_ : Type := mkType {
  queue : list T;
  dirty : gset T;
  processing : gset T;
  shuttingDown : bool;
  drain : bool
}.

(** [newQueue]: empty sets, a nil slice, both flags false. *)
Definition newQueue : Type_ :=
  {| queue := []; dirty := ∅; processing := ∅; shuttingDown := false; drain := false |}.

Definition with_queue (l : list T) (q : Type_) : Type_ :=
  {| queue := l; dirty := dirty q; processing := processing q;
     shuttingDown := shuttingDown q; drain := drain q |}.
Definition with_dirty (s : gset T) (q : Type_) : Type_ :=
  {| queue := queue q; dirty := s; processing := processing q;
     shuttingDown := shuttingDown q; drain := drain q |}.
Definition with_processing (s : gset T) (q : Type_) : Type_ :=
  {| queue := queue q; dirty := dirty q; processing := s;
     shuttingDown := shuttingDown q; drain := drain q |}.

(** [func (q *Type[T]) Add(item T)] *)
Definition Add (item : T) (q : Type_) : Type_ :=
  if shuttingDown q then q
  else if set_has (dirty q) item then q
  else
    let q1 := with_dirty (set_insert (dirty q) item) q in
    if set_has (processing q1) item then q1
    else with_queue (queue q1 ++ [item]) q1.

(** [func (q *Type[T]) Len() int] *)
Definition Len (q : Type_) : Z := Z.of_nat (length (queue q)).

(** What a call of [Get] does: it parks on the condition variable (the
    queue is empty and not shutting down), or it returns. *)
Inductive GetResult : Type :=
| GetWaits
| GetReturns (item : T) (shutDown : bool) (q' : Type_).

(** [func (q *Type[T]) Get() (item T, shutDown bool)] *)
Definition Get (q : Type_) : GetResult :=
  match queue q with
  | [] => if shuttingDown q then GetReturns zero true q else GetWaits
  | item :: rest =>
      let q1 := with_queue rest q in
      let q2 := with_processing (set_insert (processing q1) item) q1 in
      let q3 := with_dirty (set_delete (dirty q2) item) q2 in
      GetReturns item false q3
  end.

(** [func (q *Type[T]) Done(item T)] *)
Definition Done (item : T) (q : Type_) : Type_ :=
  let q1 := with_processing (set_delete (processing q) item) q in
  if set_has (dirty q1) item then with_queue (queue q1 ++ [item]) q1
  else q1.

(** [setDrain], [shutdown], [isProcessing] and [shouldDrain]. *)
Definition setDrain (shouldDrain : bool) (q : Type_) : Type_ :=
  {| queue := queue q; dirty := dirty q; processing := processing q;
     shuttingDown := shuttingDown q; drain := shouldDrain |}.
Definition shutdown (q : Type_) : Type_ :=
  {| queue := queue q; dirty := dirty q; processing := processing q;
     shuttingDown := true; drain := drain q |}.
Definition shouldDrain (q : Type_) : bool := drain q.

(** [func (q *Type[T]) ShutDown()] *)
Definition ShutDown (q : Type_) : Type_ := shutdown (setDrain false q).

(** [func (q *Type[T]) ShutDownWithDrain()]: the two writes; the caller
    then stays in the loop [for q.isProcessing() && q.shouldDrain()] as
    long as [ShutDownWithDrain_waits] holds of the current state. *)
Definition ShutDownWithDrain (q : Type_) : Type_ := shutdown (setDrain true q).

(** [func (q *Type[T]) ShuttingDown() bool] *)
Definition ShuttingDown (q : Type_) : bool := shuttingDown q.

(** The seven operations of [Interface], as calls made by any goroutine;
    every one of them runs under the queue's lock, so a run of the queue
    is a sequence of such calls. *)
Inductive op : Type :=
| OAdd (item : T)
| OGet
| ODone (item : T)
| OLen
| OShutDown
| OShutDownWithDrain
| OShuttingDown.

Definition step (q : Type_) (o : op) : Type_ :=
  match o with
  | OAdd item => Add item q
  | OGet => match Get q with GetWaits => q | GetReturns _ _ q' => q' end
  | ODone item => Done item q
  | OLen => q
  | OShutDown => ShutDown q
  | OShutDownWithDrain => ShutDownWithDrain q
  | OShuttingDown => q
  end.

Definition run (ops : list op) (q : Type_) : Type_ := fold_left step ops q.

(** The invariant the comment on the [queue] field states: every element
    of [queue] is in the dirty set and not in the processing set; and no
    element is queued twice. *)
Definition queue_inv (q : Type_) : Prop :=
  (∀ k, k ∈ queue q → k ∈ dirty q ∧ k ∉ processing q) ∧ NoDup (queue q).

(** A run follows the worker protocol when [Done] is only called with an
    item that is checked out (in the processing set) at that moment. *)
Fixpoint follows_protocol (q : Type_) (ops : list op) : bool :=
  match ops with
  | [] => true
  | o :: rest =>
      match o with
      | ODone item => set_has (processing q) item
      | _ => true
      end && follows_protocol (step q o) rest
  end.

Definition is_Add (k : T) (o : op) : bool :=
  match o with OAdd item => bool_decide (item = k) | _ => false end.
Definition is_Done (k : T) (o : op) : bool :=
  match o with ODone item => bool_decide (item = k) | _ => false end.

(** Some call [Add k] of the run is made while the queue is not shutting
    down. *)
Fixpoint added_live (k : T) (q : Type_) (ops : list op) : bool :=
  match ops with
  | [] => false
  | o :: rest =>
      (is_Add k o && negb (shuttingDown q)) || added_live k (step q o) rest
  end.

End queue.

End Queue.

(** ** The delaying queue ([util/workqueue], delaying_queue) *)

Module Delaying.

(** The outcome of code that can panic, and of a loop run on fuel. *)
Inductive result (A : Type) : Type :=
| Ok (a : A)
| Panic
| OutOfFuel.
Arguments Ok {A} a.
Arguments Panic {A}.
Arguments OutOfFuel {A}.

Definition bind {A B : Type} (m : result A) (k : A → result B) : result B :=
  match m with
  | Ok a => k a
  | Panic => Panic
  | OutOfFuel => OutOfFuel
  end.

(** A read that panics when there is nothing to read: an index out of
    range, a nil pointer. *)
Definition must {A : Type} (o : option A) : result A :=
  match o with Some a => Ok a | None => Panic end.

Notation "x <- m ;; k" := (bind m (λ x, k))
  (at level 100, m at next level, right associativity).

Section delaying.

Context {T : Type} `{Countable T}.

(** A pointer to a [waitFor] object. *)
Definition ptr : Type := nat.

(** [type waitFor[T comparable] struct] *)
Record waitFor : Type := mkWaitFor {
  data : T;
  readyAt : Z;
  index : Z
}.

Definition with_readyAt (t : Z) (e : waitFor) : waitFor :=
  {| data := data e; readyAt := t; index := index e |}.
Definition with_index (i : Z) (e : waitFor) : waitFor :=
  {| data := data e; readyAt := readyAt e; index := i |}.

(** [type waitForPriorityQueue[T comparable] []*waitFor[T]]: the slice of
    pointers, and the objects the pointers of the program refer to. *)
Record waitForPriorityQueue : Type := mkPQ {
  objects : gmap ptr waitFor;
  items : list ptr
}.

(** [pq[i]] *)
Definition at_index (pq : waitForPriorityQueue) (i : Z) : result ptr :=
  if i <? 0 then Panic else must (items pq !! Z.to_nat i).

(** [*p] *)
Definition deref (pq : waitForPriorityQueue) (p : ptr) : result waitFor :=
  must (objects pq !! p).

Definition store (p : ptr) (e : waitFor) (pq : waitForPriorityQueue)
    : waitForPriorityQueue :=
  {| objects := <[p := e]> (objects pq); items := items pq |}.

Definition Len (pq : waitForPriorityQueue) : Z := Z.of_nat (length (items pq)).

(** [pq[i].readyAt.Before(pq[j].readyAt)] *)
Definition Less (pq : waitForPriorityQueue) (i j : Z) : result bool :=
  a <- at_index pq i ;;
  ea <- deref pq a ;;
  b <- at_index pq j ;;
  eb <- deref pq b ;;
  Ok (readyAt ea <? readyAt eb).

(** [pq[i], pq[j] = pq[j], pq[i]; pq[i].index = j; pq[j].index = i] *)
Definition Swap (pq : waitForPriorityQueue) (i j : Z) : result waitForPriorityQueue :=
  a <- at_index pq i ;;
  b <- at_index pq j ;;
  let pq1 := {| objects := objects pq;
                items := <[Z.to_nat j := a]> (<[Z.to_nat i := b]> (items pq)) |} in
  x <- at_index pq1 i ;;
  ex <- deref pq1 x ;;
  let pq2 := store x (with_index j ex) pq1 in
  y <- at_index pq2 j ;;
  ey <- deref pq2 y ;;
  Ok (store y (with_index i ey) pq2).

(** [func (pq *waitForPriorityQueue[T]) Push(x any)] *)
Definition Push (pq : waitForPriorityQueue) (x : ptr) : result waitForPriorityQueue :=
  let n := Len pq in
  e <- deref pq x ;;
  let pq1 := store x (with_index n e) pq in
  Ok {| objects := objects pq1; items := items pq1 ++ [x] |}.

(** [func (pq *waitForPriorityQueue[T]) Pop() any] *)
Definition Pop (pq : waitForPriorityQueue) : result (waitForPriorityQueue * ptr) :=
  let n := Len pq in
  item <- at_index pq (n - 1) ;;
  e <- deref pq item ;;
  let pq1 := store item (with_index (-1) e) pq in
  Ok ({| objects := objects pq1; items := take (Z.to_nat (n - 1)) (items pq1) |}, item).

(** [func (pq waitForPriorityQueue[T]) Peek() any] *)
Definition Peek (pq : waitForPriorityQueue) : result ptr := at_index pq 0.

(** *** Go's [container/heap] over this queue

    [up], [down], [Fix], [Push] and [Pop] of the Go standard library,
    with the queue's [Len], [Less], [Swap], [Push] and [Pop] as the
    [heap.Interface].  The two loops run on fuel; the callers below give
    them more fuel than the queue has entries. *)

(** [func up(h Interface, j int)] *)
Fixpoint heap_up (fuel : nat) (pq : waitForPriorityQueue) (j : Z)
    : result waitForPriorityQueue :=
  match fuel with
  | O => OutOfFuel
  | S fuel' =>
      let i := Z.quot (j - 1) 2 in
      if i =? j then Ok pq
      else
        less <- Less pq j i ;;
        if negb less then Ok pq
        else
          pq' <- Swap pq i j ;;
          heap_up fuel' pq' i
  end.

(** [func down(h Interface, i0, n int) bool] *)
Fixpoint heap_down (fuel : nat) (pq : waitForPriorityQueue) (i0 i n : Z)
    : result (waitForPriorityQueue * bool) :=
  match fuel with
  | O => OutOfFuel
  | S fuel' =>
      let j1 := 2 * i + 1 in
      if (j1 >=? n) || (j1 <? 0) then Ok (pq, i >? i0)
      else
        let j2 := j1 + 1 in
        j <- (if j2 <? n
              then less21 <- Less pq j2 j1 ;; Ok (if less21 then j2 else j1)
              else Ok j1) ;;
        less <- Less pq j i ;;
        if negb less then Ok (pq, i >? i0)
        else
          pq' <- Swap pq i j ;;
          heap_down fuel' pq' i0 j n
  end.

Definition fuel_for (pq : waitForPriorityQueue) : nat := S (length (items pq)).

(** [func Fix(h Interface, i int)] *)
Definition heap_Fix (pq : waitForPriorityQueue) (i : Z) : result waitForPriorityQueue :=
  r <- heap_down (fuel_for pq) pq i i (Len pq) ;;
  if negb r.2 then heap_up (fuel_for pq) r.1 i else Ok r.1.

(** [func Push(h Interface, x any)] *)
Definition heap_Push (pq : waitForPriorityQueue) (x : ptr) : result waitForPriorityQueue :=
  pq' <- Push pq x ;;
  heap_up (fuel_for pq') pq' (Len pq' - 1).

(** [func Pop(h Interface) any] *)
Definition heap_Pop (pq : waitForPriorityQueue) : result (waitForPriorityQueue * ptr) :=
  let n := Len pq - 1 in
  pq1 <- Swap pq 0 n ;;
  r <- heap_down (fuel_for pq) pq1 0 0 n ;;
  Pop r.1.

(** *** [insert]

    [func insert[T comparable](q *waitForPriorityQueue[T],
       knownEntries map[T]*waitFor[T], entry *waitFor[T])]:
    the result is the queue and the map. *)
Definition insert (q : waitForPriorityQueue) (knownEntries : gmap T ptr) (entry : ptr)
    : result (waitForPriorityQueue * gmap T ptr) :=
  e <- deref q entry ;;
  match knownEntries !! data e with
  | Some existing =>
      ex <- deref q existing ;;
      if readyAt ex >? readyAt e then
        let q1 := store existing (with_readyAt (readyAt e) ex) q in
        ex1 <- deref q1 existing ;;
        q2 <- heap_Fix q1 (index ex1) ;;
        Ok (q2, knownEntries)
      else Ok (q, knownEntries)
  | None =>
      q1 <- heap_Push q entry ;;
      Ok (q1, <[data e := entry]> knownEntries)
  end.

(** *** The queue

    [type delayingType[T comparable] struct]: the wrapped queue (the
    default one, a [Type]); the clock, which is read with [Now], as the
    time it shows in nanoseconds; the stop channel, its [sync.Once] and
    the heartbeat ticker; the buffered channel of capacity 1000; and the
    two locals of [waitingLoop], which only the loop's goroutine uses. *)
Record delayingType : Type := mkDelaying {
  Interface : Queue.Type_ (T:=T);
  clock : Z;
  stopOnce_done : bool;
  stopCh_closed : bool;
  heartbeat_stopped : bool;
  waitingForAddCh : list ptr;
  waitingForQueue : waitForPriorityQueue;
  waitingEntryByData : gmap T ptr
}.

Definition with_Interface (b : Queue.Type_ (T:=T)) (q : delayingType) : delayingType :=
  {| Interface := b; clock := clock q; stopOnce_done := stopOnce_done q;
     stopCh_closed := stopCh_closed q; heartbeat_stopped := heartbeat_stopped q;
     waitingForAddCh := waitingForAddCh q; waitingForQueue := waitingForQueue q;
     waitingEntryByData := waitingEntryByData q |}.

Definition with_waiting (pq : waitForPriorityQueue) (known : gmap T ptr)
    (q : delayingType) : delayingType :=
  {| Interface := Interface q; clock := clock q; stopOnce_done := stopOnce_done q;
     stopCh_closed := stopCh_closed q; heartbeat_stopped := heartbeat_stopped q;
     waitingForAddCh := waitingForAddCh q; waitingForQueue := pq;
     waitingEntryByData := known |}.

Definition with_channel (ch : list ptr) (q : delayingType) : delayingType :=
  {| Interface := Interface q; clock := clock q; stopOnce_done := stopOnce_done q;
     stopCh_closed := stopCh_closed q; heartbeat_stopped := heartbeat_stopped q;
     waitingForAddCh := ch; waitingForQueue := waitingForQueue q;
     waitingEntryByData := waitingEntryByData q |}.

(** The clock moves on. *)
Definition clock_step (d : Z) (q : delayingType) : delayingType :=
  {| Interface := Interface q; clock := clock q + d; stopOnce_done := stopOnce_done q;
     stopCh_closed := stopCh_closed q; heartbeat_stopped := heartbeat_stopped q;
     waitingForAddCh := waitingForAddCh q; waitingForQueue := waitingForQueue q;
     waitingEntryByData := waitingEntryByData q |}.

(** [newDelayingQueue] over a new [Type], with the clock at [now]. *)
Definition newDelayingQueue (now : Z) : delayingType :=
  {| Interface := Queue.newQueue; clock := now; stopOnce_done := false;
     stopCh_closed := false; heartbeat_stopped := false;
     waitingForAddCh := [];
     waitingForQueue := {| objects := ∅; items := [] |};
     waitingEntryByData := ∅ |}.

(** [func (q *delayingType[T]) ShutDown()] *)
Definition ShutDown (q : delayingType) : delayingType :=
  if stopOnce_done q then q
  else
    {| Interface := Queue.ShutDown (Interface q); clock := clock q;
       stopOnce_done := true; stopCh_closed := true; heartbeat_stopped := true;
       waitingForAddCh := waitingForAddCh q; waitingForQueue := waitingForQueue q;
       waitingEntryByData := waitingEntryByData q |}.

(** [&waitFor[T]{data: item, readyAt: ...}]: a new object, index 0. *)
Definition new_waitFor (item : T) (t : Z) (q : delayingType) : ptr * delayingType :=
  let pq := waitingForQueue q in
  let p := fresh (dom (objects pq)) in
  (p, with_waiting (store p {| data := item; readyAt := t; index := 0 |} pq)
        (waitingEntryByData q) q).

(** [func (q *delayingType[T]) AddAfter(item T, duration time.Duration)].
    [None]: the call is parked in the [select], the channel being full
    and the stop channel open.  With the stop channel closed the first
    case of the [select] is taken; where the channel has room as well,
    Go takes either case, and [AddAfter_select] below has both.  A call
    is one step: in a state in which the wrapped queue is not shutting
    down the stop channel is open, [ShutDown] setting both at once. *)
Definition AddAfter (item : T) (duration : Z) (q : delayingType) : option delayingType :=
  if Queue.ShuttingDown (Interface q) then Some q
  else if duration <=? 0 then Some (with_Interface (Queue.Add item (Interface q)) q)
  else if stopCh_closed q then Some q
  else if (length (waitingForAddCh q) <? 1000)%nat then
    let r := new_waitFor item (clock q + duration) q in
    Some (with_channel (waitingForAddCh r.2 ++ [r.1]) r.2)
  else None.

(** The loop "Add ready entries" of [waitingLoop]. *)
Fixpoint add_ready (fuel : nat) (now : Z) (q : delayingType) : result delayingType :=
  match fuel with
  | O => OutOfFuel
  | S fuel' =>
      let pq := waitingForQueue q in
      if Len pq >? 0 then
        entry <- Peek pq ;;
        e <- deref pq entry ;;
        if readyAt e >? now then Ok q
        else
          r <- heap_Pop pq ;;
          e' <- deref r.1 r.2 ;;
          let q1 := with_Interface (Queue.Add (data e') (Interface q)) q in
          let q2 := with_waiting r.1 (delete (data e') (waitingEntryByData q1)) q1 in
          add_ready fuel' now q2
      else Ok q
  end.

(** What [waitingLoop] does with an entry it receives from the channel. *)
Definition receive (waitEntry : ptr) (q : delayingType) : result delayingType :=
  e <- deref (waitingForQueue q) waitEntry ;;
  if readyAt e >? clock q then
    r <- insert (waitingForQueue q) (waitingEntryByData q) waitEntry ;;
    Ok (with_waiting r.1 r.2 q)
  else Ok (with_Interface (Queue.Add (data e) (Interface q)) q).

(** The first receive of the [select] and the non-blocking receives that
    follow it, until the channel is empty. *)
Fixpoint receive_all (ch : list ptr) (q : delayingType) : result delayingType :=
  match ch with
  | [] => Ok q
  | waitEntry :: rest =>
      q' <- receive waitEntry (with_channel rest q) ;;
      receive_all rest q'
  end.

(** What wakes the [select] of [waitingLoop]. *)
Inductive wakeup : Type :=
| WStop
| WHeartbeat
| WNextReady
| WReceive.

(** One iteration of the [for] loop of [waitingLoop] during which the
    clock does not move and no call of [AddAfter] arrives: [now] and the
    readings of the receives are one time.  The boolean tells whether
    the loop goes on.  [WReceive] with an empty channel stands for a
    wake-up with nothing to receive.  The iteration in general is
    [waitingLoop_until_select] and [waitingLoop_select] below, with the
    time that passes and the calls that arrive while the [select] blocks
    between the two. *)
Definition waitingLoop_iteration (w : wakeup) (q : delayingType)
    : result (delayingType * bool) :=
  if Queue.ShuttingDown (Interface q) then Ok (q, false)
  else
    let now := clock q in
    q1 <- add_ready (fuel_for (waitingForQueue q)) now q ;;
    match w with
    | WStop => Ok (q1, false)
    | WHeartbeat | WNextReady => Ok (q1, true)
    | WReceive =>
        q2 <- receive_all (waitingForAddCh q1) q1 ;;
        Ok (q2, true)
    end.

(** *** The loop with the clock moving

    The loop reads the clock once before the loop "Add ready entries"
    ([now]), blocks in the [select], and reads the clock again at every
    receive.  The two halves of an iteration follow; the time that
    passes while the [select] blocks is a [clock_step] between them, and
    a call of [AddAfter] that arrives meanwhile is made between them. *)

(** From the head of the [for] loop to the [select]: the boolean tells
    whether the [select] is reached. *)
Definition waitingLoop_until_select (q : delayingType)
    : result (delayingType * bool) :=
  if Queue.ShuttingDown (Interface q) then Ok (q, false)
  else
    let now := clock q in
    q1 <- add_ready (fuel_for (waitingForQueue q)) now q ;;
    Ok (q1, true).

(** The loop [for !drained] after the first receive: the receives that
    do not block, until the channel is empty.  [later] holds, for each
    of them, the time that has passed since the reading of the clock
    before it; where it is used up no more time passes. *)
Fixpoint drain (later : list Z) (ch : list ptr) (q : delayingType)
    : result delayingType :=
  match ch with
  | [] => Ok q
  | waitEntry :: rest =>
      let q0 := match later with d :: _ => clock_step d q | [] => q end in
      q' <- receive waitEntry (with_channel rest q0) ;;
      drain (tl later) rest q'
  end.

(** The [select] of the loop, woken by [w] at the time the clock of [q]
    shows; the boolean tells whether the loop goes on. *)
Definition waitingLoop_select (later : list Z) (w : wakeup) (q : delayingType)
    : result (delayingType * bool) :=
  match w with
  | WStop => Ok (q, false)
  | WHeartbeat | WNextReady => Ok (q, true)
  | WReceive =>
      match waitingForAddCh q with
      | [] => Ok (q, true)
      | waitEntry :: rest =>
          q1 <- receive waitEntry (with_channel rest q) ;;
          q2 <- drain later rest q1 ;;
          Ok (q2, true)
      end
  end.

(** [AddAfter] with the choice of its [select] made explicit: with the
    stop channel closed and room in the channel both cases are ready,
    and [take_send] tells which one is taken. *)
Definition AddAfter_select (take_send : bool) (item : T) (duration : Z)
    (q : delayingType) : option delayingType :=
  if Queue.ShuttingDown (Interface q) then Some q
  else if duration <=? 0 then Some (with_Interface (Queue.Add item (Interface q)) q)
  else
    let room := (length (waitingForAddCh q) <? 1000)%nat in
    let sent :=
      let r := new_waitFor item (clock q + duration) q in
      Some (with_channel (waitingForAddCh r.2 ++ [r.1]) r.2) in
    if stopCh_closed q then (if room && take_send then sent else Some q)
    else if room then sent
    else None.

End delaying.

End Delaying.


(** ** The rate limiters ([util/workqueue], default_rate_limiters) *)

Module Limiters.

(** *** 64-bit integers and IEEE 754 binary64

    [float64] is the Standard Library's specification of binary64
    ([spec_float] with precision 53 and maximal exponent 1024), the one
    the kernel's primitive floats are specified against. *)

Definition MaxInt64 : Z := 2 ^ 63 - 1.
Definition MinInt64 : Z := - 2 ^ 63.

(** The value of a Go [int] after an arithmetic operation: it wraps. *)
Definition wrap_int (z : Z) : Z := (z + 2 ^ 63) mod 2 ^ 64 - 2 ^ 63.

Definition float64 : Type := SpecFloat.spec_float.
Definition prec : Z := 53.
Definition emax : Z := 1024.

(** [float64(z)] for an integer [z]: the nearest binary64, ties to even. *)
Definition float64_of_int (z : Z) : float64 :=
  SpecFloat.binary_normalize prec emax z 0 false.

(** [math.Pow(2, float64(exp))] for an integer [exp]: the power of two
    itself where binary64 holds it, +Inf above, and zero below the
    smallest subnormal ([float64(exp)] differs from [exp] only beyond
    2^53, far outside the finite range of the result). *)
Definition math_Pow2 (exp : Z) : float64 :=
  SpecFloat.binary_normalize prec emax 1 exp false.

Definition float64_mul (x y : float64) : float64 := SpecFloat.SFmul prec emax x y.

(** [x > y] on binary64: false when either side is a NaN. *)
Definition float64_gt (x y : float64) : bool := SpecFloat.SFltb y x.

(** The constant [math.MaxInt64] in [backoff > math.MaxInt64]: an untyped
    constant converted to [float64], which rounds 2^63 - 1 to 2^63. *)
Definition math_MaxInt64_float64 : float64 := float64_of_int MaxInt64.

(** The integer a finite binary64 truncates to (towards zero). *)
Definition float64_trunc (x : float64) : option Z :=
  match x with
  | SpecFloat.S754_zero _ => Some 0
  | SpecFloat.S754_finite s m e =>
      let a := Z.shiftl (Z.pos m) e in
      Some (if s then - a else a)
  | _ => None
  end.

(** The Go specification leaves the result of converting a floating-point
    value that the integer type cannot represent to the implementation.
    On amd64 the conversion instruction yields the integer 0x8000000000000000
    for every such operand; on arm64 the conversion saturates and turns a
    NaN into 0. *)
Class Platform : Type := {
  int64_of_unrepresentable : float64 → Z
}.

Definition amd64 : Platform := {| int64_of_unrepresentable := λ _, MinInt64 |}.

Definition arm64 : Platform :=
  {| int64_of_unrepresentable := λ x,
       match x with
       | SpecFloat.S754_infinity false | SpecFloat.S754_finite false _ _ => MaxInt64
       | SpecFloat.S754_infinity true | SpecFloat.S754_finite true _ _ => MinInt64
       | _ => 0
       end |}.

(** [int64(x)], and so [time.Duration(x)], for a binary64 [x]. *)
Definition int64_of_float64 `{Platform} (x : float64) : Z :=
  match float64_trunc x with
  | Some z =>
      if (MinInt64 <=? z) && (z <=? MaxInt64) then z
      else int64_of_unrepresentable x
  | None => int64_of_unrepresentable x
  end.

(** *** The interface

    [type RateLimiter[T comparable] interface]: [When] returns the delay
    and the limiter's new state. *)
Class RateLimiter (T L : Type) : Type := {
  When : T → L → Z * L;
  Forget : T → L → L;
  NumRequeues : T → L → Z
}.

Section limiters.

Context {T : Type} `{Countable T} `{Platform}.

(** *** ItemExponentialFailureRateLimiter *)

Record ItemExponentialFailureRateLimiter : Type := mkExponential {
  failures : gmap T Z;
  baseDelay : Z;
  maxDelay : Z
}.

Definition NewItemExponentialFailureRateLimiter (baseDelay maxDelay : Z)
    : ItemExponentialFailureRateLimiter :=
  {| failures := ∅; baseDelay := baseDelay; maxDelay := maxDelay |}.

(** The delay [When] computes from the two delays and the exponent. *)
Definition exponential_backoff (baseDelay maxDelay exp : Z) : Z :=
  let backoff := float64_mul (float64_of_int baseDelay) (math_Pow2 exp) in
  if float64_gt backoff math_MaxInt64_float64 then maxDelay
  else
    let calculated := int64_of_float64 backoff in
    if calculated >? maxDelay then maxDelay else calculated.

(** [func (r *ItemExponentialFailureRateLimiter[T]) When(item T) time.Duration] *)
Definition ItemExponentialFailureRateLimiter_When (item : T)
    (r : ItemExponentialFailureRateLimiter) : Z * ItemExponentialFailureRateLimiter :=
  let exp := default 0 (failures r !! item) in
  let r' := {| failures := <[item := wrap_int (default 0 (failures r !! item) + 1)]> (failures r);
               baseDelay := baseDelay r; maxDelay := maxDelay r |} in
  (exponential_backoff (baseDelay r) (maxDelay r) exp, r').

Definition ItemExponentialFailureRateLimiter_NumRequeues (item : T)
    (r : ItemExponentialFailureRateLimiter) : Z :=
  default 0 (failures r !! item).

Definition ItemExponentialFailureRateLimiter_Forget (item : T)
    (r : ItemExponentialFailureRateLimiter) : ItemExponentialFailureRateLimiter :=
  {| failures := delete item (failures r);
     baseDelay := baseDelay r; maxDelay := maxDelay r |}.

#[export] Instance ItemExponentialFailureRateLimiter_RateLimiter
    : RateLimiter T ItemExponentialFailureRateLimiter :=
  {| When := ItemExponentialFailureRateLimiter_When;
     Forget := ItemExponentialFailureRateLimiter_Forget;
     NumRequeues := ItemExponentialFailureRateLimiter_NumRequeues |}.

(** *** ItemFastSlowRateLimiter *)

Record ItemFastSlowRateLimiter : Type := mkFastSlow {
  fs_failures : gmap T Z;
  maxFastAttempts : Z;
  fastDelay : Z;
  slowDelay : Z
}.

Definition NewItemFastSlowRateLimiter (fastDelay slowDelay maxFastAttempts : Z)
    : ItemFastSlowRateLimiter :=
  {| fs_failures := ∅; fastDelay := fastDelay; slowDelay := slowDelay;
     maxFastAttempts := maxFastAttempts |}.

Definition ItemFastSlowRateLimiter_When (item : T) (r : ItemFastSlowRateLimiter)
    : Z * ItemFastSlowRateLimiter :=
  let n := wrap_int (default 0 (fs_failures r !! item) + 1) in
  let r' := {| fs_failures := <[item := n]> (fs_failures r);
               maxFastAttempts := maxFastAttempts r;
               fastDelay := fastDelay r; slowDelay := slowDelay r |} in
  if n <=? maxFastAttempts r then (fastDelay r, r') else (slowDelay r, r').

Definition ItemFastSlowRateLimiter_NumRequeues (item : T) (r : ItemFastSlowRateLimiter) : Z :=
  default 0 (fs_failures r !! item).

Definition ItemFastSlowRateLimiter_Forget (item : T) (r : ItemFastSlowRateLimiter)
    : ItemFastSlowRateLimiter :=
  {| fs_failures := delete item (fs_failures r);
     maxFastAttempts := maxFastAttempts r;
     fastDelay := fastDelay r; slowDelay := slowDelay r |}.

#[export] Instance ItemFastSlowRateLimiter_RateLimiter
    : RateLimiter T ItemFastSlowRateLimiter :=
  {| When := ItemFastSlowRateLimiter_When;
     Forget := ItemFastSlowRateLimiter_Forget;
     NumRequeues := ItemFastSlowRateLimiter_NumRequeues |}.

(** *** MaxOfRateLimiter

    The children are limiters of an implementation [L] of the interface;
    each child is an object of its own. *)

Context {L : Type} `{RateLimiter T L}.

Record MaxOfRateLimiter : Type := mkMaxOf {
  limiters : list L
}.

Definition NewMaxOfRateLimiter (limiters : list L) : MaxOfRateLimiter :=
  {| limiters := limiters |}.

(** One iteration of the loop of [When]: the result so far and the
    children already called, in their new states. *)
Definition MaxOf_When_visit (item : T) (acc : Z * list L) (limiter : L) : Z * list L :=
  let r := When item limiter in
  let curr := r.1 in
  (if curr >? acc.1 then curr else acc.1, acc.2 ++ [r.2]).

(** [func (r *MaxOfRateLimiter[T]) When(item T) time.Duration] *)
Definition MaxOfRateLimiter_When (item : T) (r : MaxOfRateLimiter) : Z * MaxOfRateLimiter :=
  let res := fold_left (MaxOf_When_visit item) (limiters r) (0, []) in
  (res.1, {| limiters := res.2 |}).

(** [func (r *MaxOfRateLimiter[T]) NumRequeues(item T) int] *)
Definition MaxOfRateLimiter_NumRequeues (item : T) (r : MaxOfRateLimiter) : Z :=
  fold_left (λ ret limiter,
               let curr := NumRequeues item limiter in
               if curr >? ret then curr else ret)
            (limiters r) 0.

(** [func (r *MaxOfRateLimiter[T]) Forget(item T)] *)
Definition MaxOfRateLimiter_Forget (item : T) (r : MaxOfRateLimiter) : MaxOfRateLimiter :=
  {| limiters := fold_left (λ done limiter, done ++ [Forget item limiter]) (limiters r) [] |}.

#[export] Instance MaxOfRateLimiter_RateLimiter : RateLimiter T MaxOfRateLimiter :=
  {| When := MaxOfRateLimiter_When;
     Forget := MaxOfRateLimiter_Forget;
     NumRequeues := MaxOfRateLimiter_NumRequeues |}.

(** *** WithMaxWaitRateLimiter *)

Record WithMaxWaitRateLimiter : Type := mkWithMaxWait {
  limiter : L;
  mw_maxDelay : Z
}.

Definition NewWithMaxWaitRateLimiter (limiter : L) (maxDelay : Z) : WithMaxWaitRateLimiter :=
  {| limiter := limiter; mw_maxDelay := maxDelay |}.

Definition WithMaxWaitRateLimiter_When (item : T) (w : WithMaxWaitRateLimiter)
    : Z * WithMaxWaitRateLimiter :=
  let r := When item (limiter w) in
  let delay := r.1 in
  let w' := {| limiter := r.2; mw_maxDelay := mw_maxDelay w |} in
  if delay >? mw_maxDelay w then (mw_maxDelay w, w') else (delay, w').

Definition WithMaxWaitRateLimiter_Forget (item : T) (w : WithMaxWaitRateLimiter)
    : WithMaxWaitRateLimiter :=
  {| limiter := Forget item (limiter w); mw_maxDelay := mw_maxDelay w |}.

Definition WithMaxWaitRateLimiter_NumRequeues (item : T) (w : WithMaxWaitRateLimiter) : Z :=
  NumRequeues item (limiter w).

#[export] Instance WithMaxWaitRateLimiter_RateLimiter : RateLimiter T WithMaxWaitRateLimiter :=
  {| When := WithMaxWaitRateLimiter_When;
     Forget := WithMaxWaitRateLimiter_Forget;
     NumRequeues := WithMaxWaitRateLimiter_NumRequeues |}.

(** The greatest of zero and the numbers of a list. *)
Definition max_with_zero (l : list Z) : Z := foldr Z.max 0 l.

(** [x] is the maximum of the non-empty list [l]. *)
Definition is_maximum (x : Z) (l : list Z) : Prop :=
  x ∈ l ∧ ∀ y, y ∈ l → y <= x.

(** The delay of the [n]-th of [n] consecutive calls of [When item], and
    the limiter after them. *)
Fixpoint When_times (n : nat) (item : T) (r : L) : Z * L :=
  match n with
  | O => (0, r)
  | S n' => When item (When_times n' item r).2
  end.

End limiters.

(** *** BucketRateLimiter and the default limiter

    [BucketRateLimiter] wraps a [rate.Limiter] of [golang.org/x/time/rate],
    which is not part of these sources: [B] is the state of that limiter
    together with the clock it reads, and [Reserve_Delay] is what
    [Limiter.Reserve().Delay()] returns and the state it leaves. *)
Class TokenBucket (B : Type) : Type := {
  Reserve_Delay : B → Z * B
}.

Section default_limiter.

Context {T : Type} `{Countable T} `{Platform}.
Context {B : Type} `{TokenBucket B}.

Record BucketRateLimiter : Type := mkBucket {
  Limiter : B
}.

(** [func (r *BucketRateLimiter[T]) When(item T) time.Duration] *)
Definition BucketRateLimiter_When (item : T) (r : BucketRateLimiter)
    : Z * BucketRateLimiter :=
  let d := Reserve_Delay (Limiter r) in
  (d.1, {| Limiter := d.2 |}).

(** [func (r *BucketRateLimiter[T]) NumRequeues(item T) int] *)
Definition BucketRateLimiter_NumRequeues (item : T) (r : BucketRateLimiter) : Z := 0.

(** [func (r *BucketRateLimiter[T]) Forget(item T)] *)
Definition BucketRateLimiter_Forget (item : T) (r : BucketRateLimiter)
    : BucketRateLimiter := r.

#[export] Instance BucketRateLimiter_RateLimiter : RateLimiter T BucketRateLimiter :=
  {| When := BucketRateLimiter_When;
     Forget := BucketRateLimiter_Forget;
     NumRequeues := BucketRateLimiter_NumRequeues |}.

(** A [RateLimiter[T]] interface value that holds one of the two
    implementations; a method call is dispatched on it. *)
Inductive limiter_value : Type :=
| Exponential (r : ItemExponentialFailureRateLimiter (T:=T))
| Bucket (r : BucketRateLimiter).

#[export] Instance limiter_value_RateLimiter : RateLimiter T limiter_value :=
  {| When := λ item l,
       match l with
       | Exponential r => let w := When item r in (w.1, Exponential w.2)
       | Bucket r => let w := When item r in (w.1, Bucket w.2)
       end;
     Forget := λ item l,
       match l with
       | Exponential r => Exponential (Forget item r)
       | Bucket r => Bucket (Forget item r)
       end;
     NumRequeues := λ item l,
       match l with
       | Exponential r => NumRequeues item r
       | Bucket r => NumRequeues item r
       end |}.

(** [func DefaultContrllerRateLimiter[T comparable]() RateLimiter[T]];
    [bucket] is the state of [rate.NewLimiter(rate.Limit(10), 100)]. *)
Definition DefaultContrllerRateLimiter (bucket : B) : MaxOfRateLimiter (L:=limiter_value) :=
  NewMaxOfRateLimiter
    [Exponential (NewItemExponentialFailureRateLimiter (5 * 1000000) (1000 * 1000000000));
     Bucket {| Limiter := bucket |}].

End default_limiter.

End Limiters.

(** ** The rate-limited queue ([util/workqueue], rate_limiting_queue) *)

Module RateLimiting.

(** [type DelayingInterface[T comparable] interface]: what the
    rate-limited queue calls of it.  [None]: the call is parked. *)
Class DelayingInterface (T D : Type) : Type := {
  AddAfter : T → Z → D → option D
}.

#[export] Instance delayingType_DelayingInterface {T : Type} `{Countable T}
    : DelayingInterface T (Delaying.delayingType (T:=T)) :=
  {| AddAfter := Delaying.AddAfter |}.

Section rate_limiting.

Context {T D L : Type} `{DelayingInterface T D} `{Limiters.RateLimiter T L}.

(** [type rateLimitingType[T comparable] struct] *)
Record rateLimitingType : Type := mkRateLimiting {
  DelayingInterface_ : D;
  rateLimiter : L
}.

(** [func (q *rateLimitingType[T]) AddRateLimited(item T)]: the limiter
    is asked first; the result is what [AddAfter] makes of the queue, and
    the limiter. *)
Definition AddRateLimited (item : T) (q : rateLimitingType) : option D * L :=
  let w := Limiters.When item (rateLimiter q) in
  (AddAfter item w.1 (DelayingInterface_ q), w.2).

(** [func (q *rateLimitingType[T]) NumRequeues(item T) int] *)
Definition NumRequeues (item : T) (q : rateLimitingType) : Z :=
  Limiters.NumRequeues item (rateLimiter q).

(** [func (q *rateLimitingType[T]) Forget(item T)] *)
Definition Forget (item : T) (q : rateLimitingType) : rateLimitingType :=
  {| DelayingInterface_ := DelayingInterface_ q;
     rateLimiter := Limiters.Forget item (rateLimiter q) |}.

End rate_limiting.

End RateLimiting.

(** ** The shared informer factory ([informers]) *)

Module Informers.

Section factory.

(** [reflect.Type], the registry key; [cache.SharedInformer], an interface
    value the factory never looks into; [interface{}], the argument of
    [InformerFor]; a stop channel. *)
Context {ReflectType : Type} `{Countable ReflectType}.
Context {SharedInformer Obj StopCh : Type}.

(** The fields of [sharedInformerFactory] the three methods use.  Both
    maps are taken as allocated: the sources hold no constructor of the
    factory.  [wg] is the counter of the wait group. *)
Record sharedInformerFactory : Type := mkFactory {
  informers : gmap ReflectType SharedInformer;
  staredInformers : gmap ReflectType bool;
  wg : Z;
  shuttingDown : bool
}.

(** A goroutine launched by [Start]:
    [go func() { defer f.wg.Done(); informer.Run(stopCh) }()]. *)
Inductive goroutine : Type :=
| GoRun (informer : SharedInformer) (stopCh : StopCh).

Definition goroutine_informer (g : goroutine) : SharedInformer :=
  match g with GoRun informer _ => informer end.

(** [f.staredInformers[informerType]]: a missing key reads as false. *)
Definition stared (f : sharedInformerFactory) (informerType : ReflectType) : bool :=
  default false (staredInformers f !! informerType).

(** One iteration of the loop of [Start]; the goroutines launched so far
    are collected beside the factory. *)
Definition Start_visit (stopCh : StopCh)
    (acc : sharedInformerFactory * list goroutine)
    (kv : ReflectType * SharedInformer) : sharedInformerFactory * list goroutine :=
  let f := acc.1 in
  if negb (stared f kv.1) then
    ({| informers := informers f;
        staredInformers := <[kv.1 := true]> (staredInformers f);
        wg := wg f + 1;
        shuttingDown := shuttingDown f |},
     acc.2 ++ [GoRun kv.2 stopCh])
  else acc.

(** [func (f *sharedInformerFactory) Start(stopCh <-chan struct{})].  Go
    leaves the iteration order of a map open: [Start_in order] visits the
    registry in the order [order], and [Start] in the order of
    [map_to_list].  The result is the factory and the goroutines
    launched. *)
Definition Start_in (order : list (ReflectType * SharedInformer)) (stopCh : StopCh)
    (f : sharedInformerFactory) : sharedInformerFactory * list goroutine :=
  if shuttingDown f then (f, [])
  else fold_left (Start_visit stopCh) order (f, []).

Definition Start (stopCh : StopCh) (f : sharedInformerFactory)
    : sharedInformerFactory * list goroutine :=
  Start_in (map_to_list (informers f)) stopCh f.

(** [func (f *sharedInformerFactory) Shutdown()]: the flag is set under
    the lock; then [f.wg.Wait()] keeps the caller as long as
    [Shutdown_waits] holds.  A launched goroutine that returns runs its
    deferred [f.wg.Done()]. *)
Definition Shutdown (f : sharedInformerFactory) : sharedInformerFactory :=
  {| informers := informers f; staredInformers := staredInformers f;
     wg := wg f; shuttingDown := true |}.
Definition Shutdown_waits (f : sharedInformerFactory) : bool := negb (wg f =? 0).
Definition goroutine_returns (f : sharedInformerFactory) : sharedInformerFactory :=
  {| informers := informers f; staredInformers := staredInformers f;
     wg := wg f - 1; shuttingDown := shuttingDown f |}.

(** [func (f *sharedInformerFactory) InformerFor(obj interface{}) cache.SharedInformer
      { return nil }]: the nil interface value is [None]. *)
Definition InformerFor (obj : Obj) (f : sharedInformerFactory)
    : option SharedInformer * sharedInformerFactory :=
  (None, f).

(** A sequence of calls of [Start], each with its iteration order and its
    stop channel; the goroutines of all calls are collected. *)
Fixpoint Starts (calls : list (list (ReflectType * SharedInformer) * StopCh))
    (f : sharedInformerFactory) : sharedInformerFactory * list goroutine :=
  match calls with
  | [] => (f, [])
  | c :: rest =>
      let r1 := Start_in c.1 c.2 f in
      let r2 := Starts rest r1.1 in
      (r2.1, r1.2 ++ r2.2)
  end.

(** The registered tasks [Start] has not marked as started. *)
Definition unstarted (f : sharedInformerFactory) : list SharedInformer :=
  (filter (λ kv, stared f kv.1 = false) (map_to_list (informers f))).*2.

End factory.

End Informers.

(** * Properties *)

(** ** The deduplicating queue *)

Section queue_properties.

Import Queue.

Context {T : Type} `{Countable T}.
Variable zero : T.

Implicit Types (q : Type_ (T:=T)) (k item : T) (ops : list (op (T:=T))).

Lemma set_has_true (s : gset T) k : set_has s k = true ↔ k ∈ s.
Proof. unfold set_has. apply bool_decide_eq_true. Qed.

Lemma set_has_false (s : gset T) k : set_has s k = false ↔ k ∉ s.
Proof. unfold set_has. apply bool_decide_eq_false. Qed.

Lemma run_cons o ops q : run zero (o :: ops) q = run zero ops (step zero q o).
Proof. reflexivity. Qed.

Lemma run_app ops1 ops2 q :
  run zero (ops1 ++ ops2) q = run zero ops2 (run zero ops1 q).
Proof. unfold run. apply fold_left_app. Qed.

Lemma queue_inv_newQueue : queue_inv (newQueue (T:=T)).
Proof.
  split; simpl.
  - intros k Hk. inversion Hk.
  - constructor.
Qed.

Lemma queue_inv_Add item q : queue_inv q → queue_inv (Add item q).
Proof.
  intros [Hq Hnd]. unfold Add.
  destruct (shuttingDown q); [done|].
  destruct (set_has (dirty q) item) eqn:Hd; [done|].
  apply set_has_false in Hd. simpl.
  destruct (set_has (processing q) item) eqn:Hp.
  - split; simpl; [|done].
    intros k Hk. pose proof (Hq k Hk) as [??]. unfold set_insert. set_solver.
  - apply set_has_false in Hp. split; simpl.
    + intros k Hk. unfold set_insert.
      apply elem_of_app in Hk as [Hk|Hk].
      * pose proof (Hq k Hk) as [??]. set_solver.
      * apply list_elem_of_singleton in Hk as ->. set_solver.
    + apply NoDup_app. split; [done|]. split; [|apply NoDup_singleton].
      intros k Hk Hk'. apply list_elem_of_singleton in Hk' as ->.
      pose proof (Hq item Hk) as [??]. done.
Qed.

Lemma queue_inv_Get q item sd q' :
  queue_inv q → Get zero q = GetReturns item sd q' → queue_inv q'.
Proof.
  intros [Hq Hnd]. unfold Get.
  destruct (queue q) as [|x rest] eqn:Hqu.
  - destruct (shuttingDown q); [|done].
    intros [= <- <- <-]. unfold queue_inv. rewrite Hqu. done.
  - intros [= <- <- <-]. simpl.
    apply NoDup_cons in Hnd as [Hx Hnd].
    split; simpl; [|done].
    intros k Hk. unfold set_insert, set_delete.
    assert (k ≠ x) by (intros ->; done).
    pose proof (Hq k ltac:(by right)) as [??]. set_solver.
Qed.

Lemma queue_inv_Done item q :
  queue_inv q → item ∈ processing q → queue_inv (Done item q).
Proof.
  intros [Hq Hnd] Hp. unfold Done. simpl.
  destruct (set_has (dirty q) item) eqn:Hd.
  - apply set_has_true in Hd. split; simpl.
    + intros k Hk. unfold set_delete.
      apply elem_of_app in Hk as [Hk|Hk].
      * pose proof (Hq k Hk) as [??]. set_solver.
      * apply list_elem_of_singleton in Hk as ->. set_solver.
    + apply NoDup_app. split; [done|]. split; [|apply NoDup_singleton].
      intros k Hk Hk'. apply list_elem_of_singleton in Hk' as ->.
      pose proof (Hq item Hk) as [??]. done.
  - split; simpl; [|done].
    intros k Hk. unfold set_delete. pose proof (Hq k Hk) as [??]. set_solver.
Qed.

Lemma queue_inv_step q o :
  queue_inv q →
  match o with ODone item => item ∈ processing q | _ => True end →
  queue_inv (step zero q o).
Proof.
  intros Hinv Ho. destruct o; simpl; try done.
  - by apply queue_inv_Add.
  - destruct (Get zero q) eqn:HG; [done|]. by eapply queue_inv_Get.
  - by apply queue_inv_Done.
Qed.

Lemma queue_inv_run ops q :
  queue_inv q → follows_protocol zero q ops = true → queue_inv (run zero ops q).
Proof.
  revert q. induction ops as [|o ops IH]; intros q Hinv Hp; [done|].
  simpl in Hp. apply andb_true_iff in Hp as [Ho Hp].
  rewrite run_cons. apply IH; [|done].
  apply queue_inv_step; [done|].
  destruct o; try done. by apply set_has_true.
Qed.

(** C3 (as amended).  Every state reached from the empty queue by a run
    of Add, Get, Done, Len, ShutDown, ShutDownWithDrain and ShuttingDown
    calls in which Done is only called with a checked-out item satisfies
    the invariant: every queued key is dirty and not processing, and no
    key is queued twice. *)
Theorem queue_inv_reachable ops :
  follows_protocol zero newQueue ops = true →
  queue_inv (run zero ops newQueue).
Proof. apply queue_inv_run, queue_inv_newQueue. Qed.

(** Shutdown is terminal: no operation clears the flag. *)
Lemma shuttingDown_step q o :
  shuttingDown q = true → shuttingDown (step zero q o) = true.
Proof.
  intros Hs. destruct o; simpl; try done.
  - unfold Add. rewrite Hs. done.
  - unfold Get. destruct (queue q); [by rewrite Hs|done].
  - unfold Done. simpl. by destruct (set_has (dirty q) item).
Qed.

Lemma shuttingDown_run ops q :
  shuttingDown q = true → shuttingDown (run zero ops q) = true.
Proof.
  revert q. induction ops as [|o ops IH]; intros q Hs; [done|].
  rewrite run_cons. by apply IH, shuttingDown_step.
Qed.

(** C9.  Once ShutDown has been called, whatever calls follow, Add leaves
    the whole state as it is, and Get on an empty queue returns at once
    with shutDown = true and the state as it is. *)
Theorem after_ShutDown q ops k :
  let q' := run zero ops (ShutDown q) in
  Add k q' = q' ∧
  (queue q' = [] → Get zero q' = GetReturns zero true q').
Proof.
  intros q'.
  assert (shuttingDown q' = true) as Hs by (by apply shuttingDown_run).
  split.
  - unfold Add. by rewrite Hs.
  - intros Hq. unfold Get. by rewrite Hq, Hs.
Qed.

(** While [k] is checked out and [Done k] is not called, [k] stays in the
    processing set and out of the queue, and it is dirty exactly when it
    was dirty before or an [Add k] reached a queue that is not shutting
    down. *)
Definition checked_out k q : Prop := k ∈ processing q ∧ k ∉ queue q.

Lemma checked_out_step k q o :
  checked_out k q → is_Done k o = false →
  checked_out k (step zero q o) ∧
  (k ∈ dirty (step zero q o) ↔
   k ∈ dirty q ∨ is_Add k o && negb (shuttingDown q) = true).
Proof.
  intros [Hp Hq] Hd. destruct o as [item| |item| | | |]; simpl in *;
    try (split; [done|]; (split; [by left|intros [|]; done])).
  - unfold Add. destruct (shuttingDown q) eqn:Hs.
    { split; [done|]. rewrite andb_false_r. naive_solver. }
    rewrite andb_true_r.
    destruct (set_has (dirty q) item) eqn:Hdi.
    { apply set_has_true in Hdi. split; [done|]. split; [by left|].
      intros [|Heq]; [done|]. by apply bool_decide_eq_true in Heq as <-. }
    apply set_has_false in Hdi. simpl.
    destruct (set_has (processing q) item) eqn:Hpi; simpl.
    + split; [done|]. unfold set_insert. rewrite bool_decide_eq_true. set_solver.
    + apply set_has_false in Hpi.
      assert (item ≠ k) by (intros ->; done).
      split.
      * split; [done|]. simpl. rewrite elem_of_app, list_elem_of_singleton.
        naive_solver.
      * unfold set_insert. rewrite bool_decide_eq_true. set_solver.
  - unfold Get. destruct (queue q) as [|x rest] eqn:Hqu.
    { destruct (shuttingDown q); (split; [split; [done|by rewrite Hqu]|naive_solver]). }
    simpl. assert (x ≠ k) by (intros ->; apply Hq; by left).
    split.
    + split; simpl; [unfold set_insert; set_solver|].
      intros Hk. apply Hq. by right.
    + unfold set_delete. set_solver.
  - apply bool_decide_eq_false in Hd. unfold Done. simpl.
    destruct (set_has (dirty q) item) eqn:Hdi; simpl.
    + split; [|naive_solver]. split; simpl.
      * unfold set_delete. set_solver.
      * rewrite elem_of_app, list_elem_of_singleton. naive_solver.
    + split; [|naive_solver]. split; simpl; [|done].
      unfold set_delete. set_solver.
Qed.

Lemma checked_out_run k ops q :
  checked_out k q → existsb (is_Done k) ops = false →
  checked_out k (run zero ops q) ∧
  (k ∈ dirty (run zero ops q) ↔ k ∈ dirty q ∨ added_live zero k q ops = true).
Proof.
  revert q. induction ops as [|o ops IH]; intros q Hc Hd.
  { split; [done|]. simpl. naive_solver. }
  simpl in Hd. apply orb_false_iff in Hd as [Ho Hd].
  destruct (checked_out_step k q o Hc Ho) as [Hc' Hdirty].
  destruct (IH _ Hc' Hd) as [Hc'' Hdirty''].
  rewrite run_cons. split; [done|].
  rewrite Hdirty'', Hdirty. simpl. rewrite orb_true_iff. naive_solver.
Qed.

Lemma Get_checks_out q k q' :
  queue_inv q → Get zero q = GetReturns k false q' →
  checked_out k q' ∧ k ∉ dirty q'.
Proof.
  intros [Hq Hnd]. unfold Get.
  destruct (queue q) as [|x rest] eqn:Hqu.
  { by destruct (shuttingDown q). }
  intros [= <- <-]. simpl. apply NoDup_cons in Hnd as [Hx Hnd].
  unfold checked_out; simpl. unfold set_insert, set_delete.
  split; [split; [set_solver|done]|set_solver].
Qed.

(** A key that Get returns is checked out and not dirty, in every state of
    the queue. *)
Lemma Get_takes q k q' :
  Get zero q = GetReturns k false q' → k ∈ processing q' ∧ k ∉ dirty q'.
Proof.
  unfold Get. destruct (queue q) as [|x rest] eqn:Hqu.
  { by destruct (shuttingDown q). }
  intros [= <- <-]. simpl. unfold set_insert, set_delete. set_solver.
Qed.

(** C2 (as amended).  [k] is returned by Get, is then no longer in the
    queue (it was pending once: so it is in every state in which no key
    is pending twice), and Done k has not been called yet.  Whatever
    calls other than Done k are made meanwhile, k is not in the queue
    when Done k is called, and Done k appends k to the queue, once,
    exactly when some Add k was made while the queue was not shutting
    down; otherwise Done k appends nothing. *)
Theorem Done_requeues_once s0 k s1 ops :
  Get zero s0 = GetReturns k false s1 →
  k ∉ queue s1 →
  existsb (is_Done k) ops = false →
  let s2 := run zero ops s1 in
  (k ∉ queue s2) ∧
  queue (Done k s2) =
    (if added_live zero k s1 ops then queue s2 ++ [k] else queue s2).
Proof.
  intros HG Hout Hd s2.
  destruct (Get_takes _ _ _ HG) as [Hin Hnd].
  destruct (checked_out_run k ops s1 (conj Hin Hout) Hd) as [[Hp Hq] Hdirty].
  fold s2 in Hp, Hq, Hdirty. split; [done|].
  unfold Done. simpl.
  destruct (added_live zero k s1 ops) eqn:Ha.
  - assert (k ∈ dirty s2) as Hk by (apply Hdirty; by right).
    apply set_has_true in Hk. by rewrite Hk.
  - assert (k ∉ dirty s2) as Hk by (rewrite Hdirty; naive_solver).
    apply set_has_false in Hk. by rewrite Hk.
Qed.

End queue_properties.

(** ** The rate limiters *)

Section limiter_properties.

Import Limiters.

Context {T : Type} `{Countable T}.
Context {L : Type} `{RateLimiter T L}.

Implicit Types (item : T) (r : MaxOfRateLimiter (L:=L)) (ls : list L).

Lemma max_with_zero_nonneg (l : list Z) : 0 <= max_with_zero l.
Proof. induction l as [|x l IH]; simpl; lia. Qed.

Lemma max_with_zero_upper (l : list Z) x : x ∈ l → x <= max_with_zero l.
Proof.
  induction l as [|y l IH]; intros Hx; [by apply elem_of_nil in Hx|].
  apply elem_of_cons in Hx as [->|Hx]; simpl; [lia|].
  specialize (IH Hx). lia.
Qed.

Lemma max_with_zero_attained (l : list Z) :
  max_with_zero l = 0 ∨ max_with_zero l ∈ l.
Proof.
  induction l as [|y l IH]; [by left|]. simpl.
  destruct (Z.max_spec y (max_with_zero l)) as [[_ ->]|[_ ->]].
  - destruct IH as [IH|IH]; [by left|]. right. by right.
  - right. by left.
Qed.

(** With a non-negative number in the list, the greatest of zero and the
    list is the maximum of the list. *)
Lemma max_with_zero_is_maximum (l : list Z) x :
  x ∈ l → 0 <= x → is_maximum (max_with_zero l) l.
Proof.
  intros Hx Hx0. split; [|apply max_with_zero_upper].
  destruct (max_with_zero_attained l) as [Hz|]; [|done].
  pose proof (max_with_zero_upper l x Hx).
  assert (x = 0) as -> by lia. by rewrite Hz.
Qed.

Lemma MaxOf_When_fold item ls (acc : Z * list L) :
  0 <= acc.1 →
  fold_left (MaxOf_When_visit item) ls acc =
    (Z.max acc.1 (max_with_zero ((When item <$> ls).*1)),
     acc.2 ++ (When item <$> ls).*2).
Proof.
  revert acc. induction ls as [|l ls IH]; intros [ret done_] Hret; cbn [fst snd] in *.
  { cbn. by rewrite Z.max_l, app_nil_r. }
  cbn [fold_left]. rewrite !fmap_cons. unfold max_with_zero. cbn [foldr].
  fold (max_with_zero (When item <$> ls).*1).
  rewrite IH; unfold MaxOf_When_visit; cbn [fst snd].
  - f_equal.
    + destruct (Z.gtb_spec (When item l).1 ret); lia.
    + by rewrite <- app_assoc.
  - destruct (Z.gtb_spec (When item l).1 ret); lia.
Qed.

Lemma MaxOf_NumRequeues_fold item ls (ret : Z) :
  0 <= ret →
  fold_left (λ ret limiter,
               let curr := NumRequeues item limiter in
               if curr >? ret then curr else ret) ls ret =
    Z.max ret (max_with_zero (NumRequeues item <$> ls)).
Proof.
  revert ret. induction ls as [|l ls IH]; intros ret Hret.
  { cbn. by rewrite Z.max_l. }
  cbn [fold_left]. rewrite fmap_cons. unfold max_with_zero. cbn [foldr].
  fold (max_with_zero (NumRequeues item <$> ls)).
  rewrite IH; destruct (Z.gtb_spec (NumRequeues item l) ret); lia.
Qed.

Lemma MaxOf_Forget_fold item ls (done_ : list L) :
  fold_left (λ done_ limiter, done_ ++ [Forget item limiter]) ls done_ =
    done_ ++ (Forget item <$> ls).
Proof.
  revert done_. induction ls as [|l ls IH]; intros done_.
  { cbn. by rewrite app_nil_r. }
  cbn [fold_left]. by rewrite fmap_cons, IH, <- app_assoc.
Qed.

(** C7 (as amended).  For every list of child limiters and every key:
    When calls When on every child, once and in order, and returns the
    greatest of zero and the children's delays; NumRequeues returns the
    greatest of zero and the children's counts; Forget calls Forget on
    every child.  So whenever some child's delay (count) is not negative,
    the result is the maximum of the children's delays (counts). *)
Theorem MaxOf_takes_the_maximum item r :
  let whens := When item <$> limiters r in
  let counts := NumRequeues item <$> limiters r in
  (When item r).1 = max_with_zero whens.*1 ∧
  limiters (When item r).2 = whens.*2 ∧
  NumRequeues item r = max_with_zero counts ∧
  limiters (Forget item r) = Forget item <$> limiters r ∧
  ((∃ d, d ∈ whens.*1 ∧ 0 <= d) → is_maximum (When item r).1 whens.*1) ∧
  ((∃ n, n ∈ counts ∧ 0 <= n) → is_maximum (NumRequeues item r) counts).
Proof.
  intros whens counts.
  assert ((When item r).1 = max_with_zero whens.*1) as HW.
  { simpl. unfold MaxOfRateLimiter_When.
    rewrite MaxOf_When_fold by done. simpl.
    apply Z.max_r, max_with_zero_nonneg. }
  assert (NumRequeues item r = max_with_zero counts) as HN.
  { simpl. unfold MaxOfRateLimiter_NumRequeues.
    rewrite MaxOf_NumRequeues_fold by done.
    apply Z.max_r, max_with_zero_nonneg. }
  split_and!; try done.
  - simpl. unfold MaxOfRateLimiter_When. by rewrite MaxOf_When_fold.
  - simpl. by rewrite MaxOf_Forget_fold.
  - intros (d & Hd & Hd0). rewrite HW. by eapply max_with_zero_is_maximum.
  - intros (n & Hn & Hn0). rewrite HN. by eapply max_with_zero_is_maximum.
Qed.

End limiter_properties.

(** ** The exponential limiter *)

Section exponential_properties.

Import Limiters.

Context {T : Type} `{Countable T} `{Platform}.

Implicit Types (item : T) (r : ItemExponentialFailureRateLimiter (T:=T)).

Lemma wrap_int_small z : MinInt64 <= z <= MaxInt64 → wrap_int z = z.
Proof.
  unfold MinInt64, MaxInt64, wrap_int. intros Hz.
  rewrite Z.mod_small; lia.
Qed.

(** After [n] consecutive calls of [When item] on a limiter that holds
    no failure of [item], the counter of [item] is [n]. *)
Lemma exponential_counts n item r :
  failures r !! item = None →
  Z.of_nat n <= MaxInt64 →
  let rn := (When_times n item r).2 in
  default 0 (failures rn !! item) = Z.of_nat n ∧
  baseDelay rn = baseDelay r ∧ maxDelay rn = maxDelay r.
Proof.
  intros Hnone. induction n as [|n IH]; intros Hn.
  { cbn. by rewrite Hnone. }
  destruct IH as (Hc & Hb & Hm); [lia|].
  cbn [When_times]. cbn [When ItemExponentialFailureRateLimiter_RateLimiter].
  unfold ItemExponentialFailureRateLimiter_When. cbn [fst snd failures baseDelay maxDelay].
  rewrite lookup_insert_eq, Hc. cbn [default].
  rewrite wrap_int_small by (unfold MinInt64, MaxInt64 in *; lia).
  split_and!; [unfold id; lia|done|done].
Qed.

(** The delay of the call number [n + 1]. *)
Lemma exponential_When_nth n item r :
  failures r !! item = None →
  Z.of_nat n <= MaxInt64 →
  (When_times (S n) item r).1 =
    exponential_backoff (baseDelay r) (maxDelay r) (Z.of_nat n).
Proof.
  intros Hnone Hn.
  destruct (exponential_counts n item r Hnone Hn) as (Hc & Hb & Hm).
  cbn [When_times]. cbn [When ItemExponentialFailureRateLimiter_RateLimiter].
  unfold ItemExponentialFailureRateLimiter_When. cbn [fst].
  by rewrite Hc, Hb, Hm.
Qed.

(** Forget takes the limiter back to a state without failures of the
    key. *)
Lemma exponential_Forget item r :
  failures (Forget item r) !! item = None.
Proof. simpl. apply lookup_delete_eq. Qed.

(** Rounding a 53-bit mantissa is exact; the result is finite up to the
    exponent 971 and infinite above. *)
Lemma binary_round_aux_exact s m x :
  SpecFloat.digits2_pos m = 53%positive → -1074 <= x →
  SpecFloat.binary_round_aux prec emax s (Z.pos m) x SpecFloat.loc_Exact =
    if x <=? 971 then SpecFloat.S754_finite s m x else SpecFloat.S754_infinity s.
Proof.
  intros Hd Hx.
  assert (SpecFloat.shr_fexp prec emax (Z.pos m) x SpecFloat.loc_Exact
          = ({| SpecFloat.shr_m := Z.pos m; SpecFloat.shr_r := false;
                SpecFloat.shr_s := false |}, x)) as Hshr.
  { unfold SpecFloat.shr_fexp, SpecFloat.fexp, SpecFloat.emin, prec, emax.
    cbn [SpecFloat.Zdigits2]. rewrite Hd.
    replace (Z.max (53 + x - 53) (3 - 1024 - 53) - x) with 0 by lia.
    reflexivity. }
  unfold SpecFloat.binary_round_aux. rewrite Hshr.
  cbn [SpecFloat.shr_m SpecFloat.loc_of_shr_record SpecFloat.round_nearest_even].
  rewrite Hshr. reflexivity.
Qed.

(** 2^exp leaves the range of binary64 from exp = 1024 on. *)
Lemma math_Pow2_overflow exp :
  1024 <= exp → math_Pow2 exp = SpecFloat.S754_infinity false.
Proof.
  intros He. unfold math_Pow2, SpecFloat.binary_normalize, SpecFloat.binary_round.
  cbn [SpecFloat.digits2_pos].
  unfold SpecFloat.fexp, SpecFloat.emin, prec, emax.
  replace (Z.max (1 + exp - 53) (3 - 1024 - 53)) with (exp - 52) by lia.
  unfold SpecFloat.shl_align.
  replace (exp - 52 - exp) with (-52) by lia.
  cbn [Pos.iter].
  change 53 with prec. change 1024 with emax.
  rewrite binary_round_aux_exact by (try reflexivity; lia).
  destruct (Z.leb_spec (exp - 52) 971); [lia|done].
Qed.

(** The sequence the specification gives as an example: with a base
    delay of 1s and a maximal delay of 60s the delay for exponent [exp]
    is min(1s * 2^exp, 60s), on every platform. *)
Lemma exponential_backoff_1s_60s exp :
  0 <= exp →
  exponential_backoff 1000000000 60000000000 exp =
    Z.min (1000000000 * 2 ^ exp) 60000000000.
Proof.
  intros He. destruct (Z.lt_ge_cases exp 1100) as [Hlt|Hge].
  - assert (forallb (λ e, exponential_backoff 1000000000 60000000000 (Z.of_nat e)
                          =? Z.min (1000000000 * 2 ^ Z.of_nat e) 60000000000)
                    (seq 0 1100) = true) as Hall by (vm_compute; reflexivity).
    rewrite forallb_forall in Hall.
    specialize (Hall (Z.to_nat exp)). rewrite Z2Nat.id in Hall by done.
    apply Z.eqb_eq, Hall, in_seq. lia.
  - unfold exponential_backoff. rewrite math_Pow2_overflow by lia.
    assert (2 ^ 6 <= 2 ^ exp) by (apply Z.pow_le_mono_r; lia).
    rewrite Z.min_r by lia. reflexivity.
Qed.

(** A backoff that the overflow guard lets through and that [int64]
    cannot hold is converted as the platform has it. *)
Lemma exponential_backoff_unrepresentable baseDelay maxDelay exp x :
  float64_mul (float64_of_int baseDelay) (math_Pow2 exp) = x →
  float64_gt x math_MaxInt64_float64 = false →
  match float64_trunc x with
  | Some z => (MinInt64 <=? z) && (z <=? MaxInt64)
  | None => false
  end = false →
  exponential_backoff baseDelay maxDelay exp =
    let v := int64_of_unrepresentable x in
    if v >? maxDelay then maxDelay else v.
Proof.
  intros Hx Hgt Hrange. unfold exponential_backoff. rewrite Hx, Hgt.
  unfold int64_of_float64.
  destruct (float64_trunc x) as [z|]; [by rewrite Hrange|done].
Qed.

End exponential_properties.

(** ** The shared informer factory *)

Section factory_properties.

Import Informers.

Context {ReflectType : Type} `{Countable ReflectType}.
Context {SharedInformer Obj StopCh : Type}.

Implicit Types
  (f : sharedInformerFactory (ReflectType:=ReflectType) (SharedInformer:=SharedInformer))
  (gs : list (goroutine (SharedInformer:=SharedInformer) (StopCh:=StopCh)))
  (order : list (ReflectType * SharedInformer))
  (stopCh : StopCh)
  (c : list (ReflectType * SharedInformer) * StopCh)
  (calls : list (list (ReflectType * SharedInformer) * StopCh)).

(** The tasks of [order] that [f] has not marked as started. *)
Definition pending_in f order : list (ReflectType * SharedInformer) :=
  filter (λ kv, stared f kv.1 = false) order.

Lemma pending_in_ext f f' order :
  (∀ kv, kv ∈ order → stared f' kv.1 = stared f kv.1) →
  pending_in f' order = pending_in f order.
Proof.
  unfold pending_in. induction order as [|kv order IH]; intros Hext; [done|].
  rewrite !filter_cons, IH by (intros; apply Hext; by right).
  rewrite (Hext kv) by (by left). done.
Qed.

Lemma pending_in_nil f order :
  (∀ kv, kv ∈ order → stared f kv.1 = true) → pending_in f order = [].
Proof.
  unfold pending_in. induction order as [|kv order IH]; intros Hall; [done|].
  rewrite filter_cons, IH by (intros; apply Hall; by right).
  rewrite (Hall kv) by (by left). done.
Qed.

Lemma Start_visit_started stopCh f gs kv :
  stared f kv.1 = true → Start_visit stopCh (f, gs) kv = (f, gs).
Proof. intros Hst. unfold Start_visit. simpl. by rewrite Hst. Qed.

Lemma Start_visit_unstarted stopCh f gs kv :
  stared f kv.1 = false →
  Start_visit stopCh (f, gs) kv =
    ({| informers := informers f;
        staredInformers := <[kv.1:=true]> (staredInformers f);
        wg := wg f + 1; shuttingDown := shuttingDown f |},
     gs ++ [GoRun kv.2 stopCh]).
Proof. intros Hst. unfold Start_visit. simpl. by rewrite Hst. Qed.

(** The loop of [Start] over an order that names no key twice. *)
Lemma Start_visit_fold stopCh order f gs :
  NoDup order.*1 →
  let r := fold_left (Start_visit stopCh) order (f, gs) in
  r.2 = gs ++ ((λ kv, GoRun kv.2 stopCh) <$> pending_in f order) ∧
  informers r.1 = informers f ∧
  shuttingDown r.1 = shuttingDown f ∧
  wg r.1 = wg f + Z.of_nat (length (pending_in f order)) ∧
  (∀ k, k ∈ order.*1 → stared r.1 k = true) ∧
  (∀ k, k ∉ order.*1 → stared r.1 k = stared f k).
Proof.
  revert f gs. induction order as [|kv order IH]; intros f gs Hnd.
  { cbn. rewrite app_nil_r. repeat split; try done; try lia.
    intros k Hk. by apply elem_of_nil in Hk. }
  rewrite fmap_cons in Hnd |- *.
  apply NoDup_cons in Hnd as [Hkv Hnd].
  cbn [fold_left].
  destruct (stared f kv.1) eqn:Hst.
  - rewrite Start_visit_started by done.
    destruct (IH f gs Hnd) as (Hgs & Hi & Hs & Hw & Hin & Hout).
    assert (pending_in f (kv :: order) = pending_in f order) as ->.
    { unfold pending_in. apply filter_cons_False. by rewrite Hst. }
    split_and!; try done.
    + intros k Hk. apply elem_of_cons in Hk as [->|Hk]; [|by apply Hin].
      by rewrite Hout.
    + intros k Hk. apply Hout. intros Hk'. apply Hk. by right.
  - rewrite Start_visit_unstarted by done.
    set (f1 := {| informers := informers f;
                  staredInformers := <[kv.1:=true]> (staredInformers f);
                  wg := wg f + 1; shuttingDown := shuttingDown f |}).
    destruct (IH f1 (gs ++ [GoRun kv.2 stopCh]) Hnd)
      as (Hgs & Hi & Hs & Hw & Hin & Hout).
    assert (stared f1 kv.1 = true) as Hf1.
    { unfold stared, f1. simpl. by rewrite lookup_insert_eq. }
    assert (∀ k, k ≠ kv.1 → stared f1 k = stared f k) as Hne.
    { intros k Hk. unfold stared, f1. simpl. by rewrite lookup_insert_ne. }
    assert (pending_in f1 order = pending_in f order) as Hp.
    { apply pending_in_ext. intros kv' Hkv'. apply Hne. intros Heq.
      apply Hkv. rewrite <- Heq. apply list_elem_of_fmap. by exists kv'. }
    rewrite Hp in Hgs, Hw.
    assert (pending_in f (kv :: order) = kv :: pending_in f order) as ->.
    { unfold pending_in. by apply filter_cons_True. }
    split_and!; try done.
    + by rewrite Hgs, <- app_assoc.
    + rewrite Hw. cbn [length wg f1]. lia.
    + intros k Hk. apply elem_of_cons in Hk as [->|Hk]; [|by apply Hin].
      by rewrite Hout.
    + intros k Hk. rewrite Hout by (intros Hk'; apply Hk; by right).
      apply Hne. intros ->. apply Hk. by left.
Qed.

(** Every registered task is marked as started. *)
Definition all_started f : Prop :=
  ∀ k i, informers f !! k = Some i → stared f k = true.

Lemma order_keys f order :
  order ≡ₚ map_to_list (informers f) →
  NoDup order.*1 ∧ (∀ k i, (k, i) ∈ order ↔ informers f !! k = Some i).
Proof.
  intros Hp. split.
  - rewrite Hp. apply NoDup_fst_map_to_list.
  - intros k i. rewrite Hp. apply elem_of_map_to_list.
Qed.

Lemma Start_in_shuttingDown order stopCh f :
  shuttingDown f = true → Start_in order stopCh f = (f, []).
Proof. intros Hs. unfold Start_in. by rewrite Hs. Qed.

Lemma Start_in_spec order stopCh f :
  shuttingDown f = false →
  order ≡ₚ map_to_list (informers f) →
  let r := Start_in order stopCh f in
  goroutine_informer <$> r.2 ≡ₚ unstarted f ∧
  Forall (λ g, g = GoRun (goroutine_informer g) stopCh) r.2 ∧
  informers r.1 = informers f ∧
  shuttingDown r.1 = false ∧
  wg r.1 = wg f + Z.of_nat (length (unstarted f)) ∧
  all_started r.1.
Proof.
  intros Hs Hp. destruct (order_keys f order Hp) as [Hnd Hk].
  unfold Start_in. rewrite Hs.
  destruct (Start_visit_fold stopCh order f [] Hnd)
    as (Hgs & Hi & Hsd & Hw & Hin & Hout).
  simpl in *. rewrite Hgs.
  assert (pending_in f order ≡ₚ pending_in f (map_to_list (informers f))) as Hpp.
  { unfold pending_in. by rewrite Hp. }
  repeat split.
  - rewrite <- list_fmap_compose. unfold unstarted. fold (pending_in f (map_to_list (informers f))).
    rewrite <- Hpp. done.
  - apply Forall_fmap, Forall_forall. done.
  - done.
  - by rewrite Hsd.
  - rewrite Hw. unfold unstarted. fold (pending_in f (map_to_list (informers f))).
    by rewrite length_fmap, Hpp.
  - intros k i Hki. apply Hin. apply list_elem_of_fmap. exists (k, i).
    split; [done|]. rewrite Hi in Hki. by apply Hk.
Qed.

Lemma Start_in_all_started order stopCh f :
  all_started f → order ≡ₚ map_to_list (informers f) →
  Start_in order stopCh f = (f, []).
Proof.
  intros Hall Hp. destruct (order_keys f order Hp) as [Hnd Hk].
  unfold Start_in. destruct (shuttingDown f); [done|].
  assert (∀ kv, kv ∈ order → stared f kv.1 = true) as Hst.
  { intros [k i] Hin. apply (Hall k i). by apply Hk. }
  clear Hnd Hk Hp. induction order as [|kv order IH]; [done|].
  cbn [fold_left]. rewrite Start_visit_started by (apply Hst; by left).
  apply IH. intros kv' Hkv'. apply Hst. by right.
Qed.

Lemma Starts_all_started calls f :
  all_started f →
  Forall (λ c, c.1 ≡ₚ map_to_list (informers f)) calls →
  Starts calls f = (f, []).
Proof.
  intros Hall Hc. induction calls as [|c calls IH]; [done|].
  apply Forall_cons in Hc as [Hc Hcs]. simpl.
  rewrite (Start_in_all_started _ _ _ Hall Hc). simpl.
  by rewrite IH.
Qed.

Lemma Starts_shuttingDown calls f :
  shuttingDown f = true → Starts calls f = (f, []).
Proof.
  intros Hs. induction calls as [|c calls IH]; [done|].
  simpl. rewrite Start_in_shuttingDown by done. simpl. by rewrite IH.
Qed.

(** C6.  Take any factory and any non-empty sequence of calls of Start,
    each visiting the registry in an order of its own.  If Shutdown has
    not been requested, the calls together launch one goroutine for each
    registered task whose started flag was not set and none for a task
    whose flag was set, the wait-group counter grows by that number, and
    afterwards every registered task is marked as started; so on a
    factory that has started nothing, N registered tasks give N
    goroutines however often Start is called.  Once Shutdown has been
    requested, the calls launch nothing and leave the factory as it
    is. *)
Theorem Start_launches_each_task_once f c calls :
  Forall (λ c, c.1 ≡ₚ map_to_list (informers f)) (c :: calls) →
  (shuttingDown f = false →
     let r := Starts (c :: calls) f in
     goroutine_informer <$> r.2 ≡ₚ unstarted f ∧
     wg r.1 = wg f + Z.of_nat (length (unstarted f)) ∧
     all_started r.1 ∧
     ((∀ k, stared f k = false) →
        length r.2 = size (informers f))) ∧
  Starts (c :: calls) (Shutdown f) = (Shutdown f, []).
Proof.
  intros Hc. split; [|by apply Starts_shuttingDown].
  intros Hs r. apply Forall_cons in Hc as [Hc Hcs].
  destruct (Start_in_spec c.1 c.2 f Hs Hc) as (Hgs & _ & Hi & Hsd & Hw & Hall).
  assert (r = ((Start_in c.1 c.2 f).1, (Start_in c.1 c.2 f).2)) as ->.
  { unfold r. simpl. rewrite Starts_all_started; [by rewrite app_nil_r|done|].
    by rewrite Hi. }
  simpl. repeat split; try done.
  intros Hnone.
  assert (length (goroutine_informer <$> (Start_in c.1 c.2 f).2)
          = length (unstarted f)) as Hlen by (by rewrite Hgs).
  rewrite length_fmap in Hlen. rewrite Hlen. unfold unstarted.
  rewrite length_fmap.
  fold (pending_in f (map_to_list (informers f))).
  assert (pending_in f (map_to_list (informers f)) = map_to_list (informers f)) as ->.
  { unfold pending_in. generalize (map_to_list (informers f)).
    induction l as [|kv l IH]; [done|].
    rewrite filter_cons, Hnone. simpl. by rewrite IH. }
  by rewrite length_map_to_list.
Qed.

(** C1: what the code does.  For every descriptor and every factory,
    also one that holds a task for the descriptor, InformerFor returns
    nil and leaves the registry as it is. *)
Theorem InformerFor_returns_nil (obj : Obj) f :
  InformerFor obj f = (None, f).
Proof. reflexivity. Qed.

End factory_properties.

(** ** The rate-limited queue *)

Section rate_limiting_properties.

Import RateLimiting.

Context {T : Type} `{Countable T}.
Context {L : Type} `{Limiters.RateLimiter T L}.

Implicit Types (item : T)
  (q : rateLimitingType (D:=Delaying.delayingType (T:=T)) (L:=L)).

(** C8.  On a rate-limited queue over the delaying queue and any
    limiter: AddRateLimited is AddAfter with the delay the limiter's When
    returns, the limiter being left in the state When leaves it in; Forget
    is the limiter's Forget and leaves the delaying queue, and so the
    pending sequence, the dirty set and the processing set, as they are;
    NumRequeues is the limiter's NumRequeues. *)
Theorem rateLimiting_delegates item q :
  AddRateLimited item q =
    (Delaying.AddAfter item (Limiters.When item (rateLimiter q)).1 (DelayingInterface_ q),
     (Limiters.When item (rateLimiter q)).2) ∧
  rateLimiter (Forget item q) = Limiters.Forget item (rateLimiter q) ∧
  DelayingInterface_ (Forget item q) = DelayingInterface_ q ∧
  Queue.queue (Delaying.Interface (DelayingInterface_ (Forget item q)))
    = Queue.queue (Delaying.Interface (DelayingInterface_ q)) ∧
  Queue.dirty (Delaying.Interface (DelayingInterface_ (Forget item q)))
    = Queue.dirty (Delaying.Interface (DelayingInterface_ q)) ∧
  Queue.processing (Delaying.Interface (DelayingInterface_ (Forget item q)))
    = Queue.processing (Delaying.Interface (DelayingInterface_ q)) ∧
  NumRequeues item q = Limiters.NumRequeues item (rateLimiter q).
Proof.
  unfold AddRateLimited, Forget, NumRequeues. cbn [rateLimiter DelayingInterface_ AddAfter].
  split_and!; reflexivity.
Qed.

End rate_limiting_properties.

(** ** The deduplicating queue on concrete runs (keys are naturals) *)

Section queue_runs.

Import Queue.

Definition q0 : Type_ (T:=nat) := newQueue.

(** Three calls of Add while the key is checked out: one re-entry. *)
Example checked_out_and_readded :
  queue (Done 1%nat
    (run 0%nat [OAdd 1%nat; OGet; OAdd 1%nat; OAdd 1%nat; OAdd 1%nat] q0))
  = [1%nat].
Proof. vm_compute. reflexivity. Qed.

(** The same key queued twice by Done without Get. *)
Example Done_without_Get :
  queue (run 0%nat [OAdd 1%nat; ODone 1%nat] q0) = [1%nat; 1%nat].
Proof. vm_compute. reflexivity. Qed.

(** C3, counterexample.  [Add 1; Done 1] is a sequence of queue
    operations from the empty queue, and the state it reaches holds key 1
    twice in the pending sequence. *)
Lemma queue_inv_broken_by_Done :
  queue (run 0%nat [OAdd 1%nat; ODone 1%nat] q0) = [1%nat; 1%nat] ∧
  ¬ queue_inv (run 0%nat [OAdd 1%nat; ODone 1%nat] q0).
Proof.
  split; [vm_compute; reflexivity|].
  intros [_ Hnd]. rewrite Done_without_Get in Hnd.
  apply NoDup_cons in Hnd as [Hin _]. apply Hin. by left.
Qed.

(** C3, witness: Add 1; Get; Add 1; Done 1. *)
Lemma queue_inv_reachable_witness :
  queue_inv (run 0%nat [OAdd 1%nat; OGet; OAdd 1%nat; ODone 1%nat] q0).
Proof.
  apply (queue_inv_reachable 0%nat [OAdd 1%nat; OGet; OAdd 1%nat; ODone 1%nat]).
  vm_compute. reflexivity.
Defined.

(** C2, counterexample.  Key 1 is returned by Get; ShutDown is called;
    Add 1 is called before Done 1; Done 1 appends nothing, so the key that
    was re-added during processing is not processed again. *)
Lemma Add_after_ShutDown_is_lost :
  let s0 := Add 1%nat q0 in
  let s1 := step 0%nat s0 OGet in
  let ops := [OShutDown; OAdd 1%nat] in
  let s2 := run 0%nat ops s1 in
  queue_inv s0 ∧
  Get 0%nat s0 = GetReturns 1%nat false s1 ∧
  existsb (is_Done 1%nat) ops = false ∧
  existsb (is_Add 1%nat) ops = true ∧
  queue (Done 1%nat s2) = [] ∧
  queue (Done 1%nat s2) ≠ queue s2 ++ [1%nat].
Proof.
  intros s0 s1 ops s2. split; [apply queue_inv_Add, queue_inv_newQueue|].
  assert (queue (Done 1%nat s2) = []) as Hq by (vm_compute; reflexivity).
  repeat split; try (vm_compute; reflexivity).
  rewrite Hq. intros Heq. symmetry in Heq. by apply app_eq_nil in Heq as [_ ?].
Qed.

(** C2, witness: Add 1; Get; then Add 1 twice; Done 1 appends 1 once. *)
Lemma Done_requeues_once_witness :
  let s1 := step 0%nat (Add 1%nat q0) OGet in
  let s2 := run 0%nat [OAdd 1%nat; OAdd 1%nat] s1 in
  (1%nat ∉ queue s2) ∧
  queue (Done 1%nat s2) =
    (if added_live 0%nat 1%nat s1 [OAdd 1%nat; OAdd 1%nat]
     then queue s2 ++ [1%nat] else queue s2).
Proof.
  apply (Done_requeues_once 0%nat (Add 1%nat q0) 1%nat).
  - vm_compute. reflexivity.
  - intros Hin. vm_compute in Hin. by apply elem_of_nil in Hin.
  - reflexivity.
Defined.

(** Why C2 asks that the key is no longer in the queue once Get has
    returned it.  Done for a key that is not checked out queues it a
    second time: after Add 1; Done 1; Get, key 1 is checked out and
    still pending, and Add 1; Done 1 then leave it pending twice. *)
Example Done_of_a_key_pending_twice :
  let s1 := run 0%nat [OAdd 1%nat; ODone 1%nat; OGet] q0 in
  Get 0%nat (run 0%nat [OAdd 1%nat; ODone 1%nat] q0) = GetReturns 1%nat false s1 ∧
  queue s1 = [1%nat] ∧
  queue (run 0%nat [OAdd 1%nat; ODone 1%nat] s1) = [1%nat; 1%nat].
Proof. vm_compute. split_and!; reflexivity. Qed.

(** C9, witness: a key is queued, ShutDown is called, the key is taken
    and finished; then the queue is empty and Get signals shutdown. *)
Lemma after_ShutDown_witness :
  let q' := run 0%nat [OGet; OAdd 2%nat; ODone 1%nat] (ShutDown (Add 1%nat q0)) in
  Add 2%nat q' = q' ∧ Get 0%nat q' = GetReturns 0%nat true q'.
Proof.
  intros q'.
  destruct (after_ShutDown 0%nat (Add 1%nat q0)
              [OGet; OAdd 2%nat; ODone 1%nat] 2%nat) as [HA HG].
  split; [exact HA|]. apply HG. vm_compute. reflexivity.
Defined.

End queue_runs.

(** ** The limiters on concrete inputs (keys are naturals, delays in ns) *)

Section limiter_runs.

Import Limiters.

Definition second : Z := 1000000000.

(** The example of the specification: two children that answer 2s and
    5s. *)
Example MaxOf_2s_5s :
  let A := NewItemFastSlowRateLimiter (T:=nat) (2 * second) (2 * second) 1 in
  let B := NewItemFastSlowRateLimiter (T:=nat) (5 * second) (5 * second) 1 in
  (When 7%nat (NewMaxOfRateLimiter [A; B])).1 = 5 * second.
Proof. vm_compute. reflexivity. Qed.

(** C7, counterexample.  Two children that answer -2s and -5s: the
    maximum of the children's delays is -2s, and MaxOf answers 0. *)
Lemma MaxOf_of_negative_delays :
  let A := NewItemFastSlowRateLimiter (T:=nat) (-2 * second) (-2 * second) 1 in
  let B := NewItemFastSlowRateLimiter (T:=nat) (-5 * second) (-5 * second) 1 in
  let r := NewMaxOfRateLimiter [A; B] in
  (When 7%nat <$> limiters r).*1 = [-2 * second; -5 * second] ∧
  (When 7%nat r).1 = 0 ∧
  ¬ is_maximum (When 7%nat r).1 (When 7%nat <$> limiters r).*1.
Proof.
  intros A B r.
  assert ((When 7%nat <$> limiters r).*1 = [-2 * second; -5 * second]) as Hw
    by (vm_compute; reflexivity).
  assert ((When 7%nat r).1 = 0) as H0 by (vm_compute; reflexivity).
  split_and!; [done|done|].
  rewrite Hw, H0. intros [Hin _].
  apply elem_of_cons in Hin as [Hin|Hin]; [done|].
  apply elem_of_cons in Hin as [Hin|Hin]; [done|].
  by apply elem_of_nil in Hin.
Qed.

(** The limiter of the failing input: a base delay of 1ns and a maximal
    delay of 60s. *)
Definition limiter_1ns_60s : ItemExponentialFailureRateLimiter (T:=nat) :=
  NewItemExponentialFailureRateLimiter 1 (60 * second).

(** C4: what the code does at the failing input.  The 64th consecutive
    call of When on a limiter with a base delay of 1ns computes the
    backoff 2^63, which [backoff > math.MaxInt64] does not catch, and
    converts it to an integer outside the range of [int64]: the delay is
    whatever the platform makes of that conversion, unless this is more
    than the maximal delay.  On amd64 it is -2^63 ns. *)
Theorem exponential_When_at_2_63 :
  (∀ P : Platform,
     (When_times (H1:=ItemExponentialFailureRateLimiter_RateLimiter (H0:=P))
        64 7%nat limiter_1ns_60s).1 =
       let v := int64_of_unrepresentable (float64_of_int (2 ^ 63)) in
       if v >? 60 * second then 60 * second else v) ∧
  (When_times (H1:=ItemExponentialFailureRateLimiter_RateLimiter (H0:=amd64))
     64 7%nat limiter_1ns_60s).1 = - 2 ^ 63.
Proof.
  split.
  - intros P. rewrite exponential_When_nth by done.
    apply exponential_backoff_unrepresentable; vm_compute; reflexivity.
  - rewrite exponential_When_nth by done. vm_compute. reflexivity.
Qed.

(** The delays of the first 63 calls on that limiter are 2^(n-1) ns,
    capped at 60s. *)
Example exponential_1ns_before_2_63 (P : Platform) :
  forallb (λ n, exponential_backoff 1 (60 * second) (Z.of_nat n)
                =? Z.min (2 ^ Z.of_nat n) (60 * second)) (seq 0 63) = true.
Proof. vm_compute. reflexivity. Qed.

End limiter_runs.

(** ** The delaying queue on a concrete run (keys are naturals) *)

Section delaying_runs.

Import Delaying.

(** C5: what the code does at the failing input.  Key 1 is scheduled at
    10, key 2 at 5; the loop takes both requests; at time 5 the loop
    admits key 2; at time 6 key 1 is scheduled again, at 8, before its
    pending 10; the loop takes the request, and [insert] panics in
    [heap.Fix]: the entry of key 1 is at position 0 and its [index] is
    1. *)
Theorem tightening_after_a_pop_panics :
  ∃ q1 q2 q3 q4 q5 : delayingType (T:=nat),
    AddAfter 1%nat 10 (newDelayingQueue 0) = Some q1 ∧
    AddAfter 2%nat 5 q1 = Some q2 ∧
    waitingLoop_iteration WReceive q2 = Ok (q3, true) ∧
    waitingLoop_iteration WNextReady (clock_step 5 q3) = Ok (q4, true) ∧
    Queue.queue (Interface q4) = [2%nat] ∧
    items (waitingForQueue q4) = [0%nat] ∧
    objects (waitingForQueue q4) !! 0%nat
      = Some {| data := 1%nat; readyAt := 10; index := 1 |} ∧
    AddAfter 1%nat 2 (clock_step 1 q4) = Some q5 ∧
    waitingForAddCh q5 = [2%nat] ∧
    insert (waitingForQueue q5) (waitingEntryByData q5) 2%nat = Panic ∧
    waitingLoop_iteration WReceive q5 = Panic.
Proof.
  do 5 eexists. split_and!; vm_compute; reflexivity.
Qed.

End delaying_runs.

(** ** The factory on a concrete run *)

Section factory_runs.

Import Informers.

(** Two registered tasks, none started. *)
Definition two_tasks : sharedInformerFactory (ReflectType:=nat) (SharedInformer:=nat) :=
  {| informers := {[ 1%nat := 10%nat; 2%nat := 20%nat ]};
     staredInformers := ∅; wg := 0; shuttingDown := false |}.

Lemma two_tasks_list :
  map_to_list (informers two_tasks) = [(2%nat, 20%nat); (1%nat, 10%nat)].
Proof. vm_compute. reflexivity. Qed.

(** C6, witness: three calls of Start, the second in the other order. *)
Lemma Start_launches_each_task_once_witness :
  let calls := [([(1, 10); (2, 20)], tt); ([(2, 20); (1, 10)], tt);
                ([(1, 10); (2, 20)], tt)]%nat in
  length (Starts calls two_tasks).2 = 2%nat ∧
  Starts calls (Shutdown two_tasks) = (Shutdown two_tasks, []).
Proof.
  intros calls.
  destruct (Start_launches_each_task_once two_tasks
              ([(1, 10); (2, 20)]%nat, tt)
              [([(2, 20); (1, 10)]%nat, tt); ([(1, 10); (2, 20)]%nat, tt)])
    as [Hlive Hdown].
  { rewrite two_tasks_list. repeat constructor. }
  split; [|exact Hdown].
  destruct (Hlive eq_refl) as (_ & _ & _ & Hlen).
  apply Hlen. reflexivity.
Defined.

End factory_runs.

(** * Further properties *)

(** ** The deduplicating queue: lost updates, order, round trips *)

Section queue_more.

Import Queue.

Context {T : Type} `{Countable T}.
Variable zero : T.

Implicit Types (q : Type_ (T:=T)) (k item : T) (ops : list (op (T:=T))) (ks : list T).

(** Every dirty key is pending or being processed. *)
Definition no_lost_update q : Prop :=
  ∀ k, k ∈ dirty q → k ∈ queue q ∨ k ∈ processing q.

Lemma no_lost_update_step q o :
  no_lost_update q → no_lost_update (step zero q o).
Proof.
  intros Hq. destruct o as [item| |item| | | |]; simpl; try done.
  - unfold Add. destruct (shuttingDown q); [done|].
    destruct (set_has (dirty q) item) eqn:Hd; [done|]. simpl.
    destruct (set_has (processing q) item) eqn:Hp; simpl.
    + apply set_has_true in Hp. intros k Hk. simpl in *.
      unfold set_insert in Hk. apply elem_of_union in Hk as [Hk|Hk].
      * apply elem_of_singleton in Hk as ->. by right.
      * by apply Hq.
    + intros k Hk. simpl in *. unfold set_insert in Hk.
      rewrite elem_of_app, list_elem_of_singleton.
      apply elem_of_union in Hk as [Hk|Hk].
      * apply elem_of_singleton in Hk as ->. by left; right.
      * destruct (Hq k Hk); [by left; left|by right].
  - unfold Get. destruct (queue q) as [|x rest] eqn:Hqu.
    { by destruct (shuttingDown q). }
    simpl. intros k Hk. simpl in *. unfold set_delete, set_insert in *.
    apply elem_of_difference in Hk as [Hk Hne].
    rewrite not_elem_of_singleton in Hne.
    destruct (Hq k Hk) as [Hin|Hin].
    + rewrite Hqu in Hin. apply elem_of_cons in Hin as [->|Hin]; [done|by left].
    + right. set_solver.
  - unfold Done. simpl.
    destruct (set_has (dirty q) item) eqn:Hd; simpl.
    + intros k Hk. simpl in *. rewrite elem_of_app, list_elem_of_singleton.
      unfold set_delete. destruct (decide (k = item)) as [->|Hne]; [by left; right|].
      destruct (Hq k Hk); [by left; left|right; set_solver].
    + apply set_has_false in Hd. intros k Hk. simpl in *.
      unfold set_delete. destruct (decide (k = item)) as [->|Hne]; [done|].
      destruct (Hq k Hk); [by left|right; set_solver].
Qed.

(** X1.  No update is lost: in every state reached from the empty queue
    by any calls whatever, a key marked dirty is in the pending sequence
    or checked out (and then Done will queue it again). *)
Theorem dirty_keys_are_pending_or_processing ops :
  let q := run zero ops newQueue in
  ∀ k, k ∈ dirty q → k ∈ queue q ∨ k ∈ processing q.
Proof.
  intros q. subst q.
  assert (∀ q0, no_lost_update q0 → no_lost_update (run zero ops q0)) as Hrun.
  { induction ops as [|o ops IH]; intros q0 Hq0; [done|].
    rewrite run_cons. by apply IH, no_lost_update_step. }
  apply Hrun. intros k Hk. simpl in Hk. set_solver.
Qed.

(** X2.  At most one worker holds a key: on a run that follows the
    protocol, Get never hands out a key that is checked out, and the key
    it hands out is then checked out and neither dirty nor pending. *)
Theorem Get_hands_out_idle_keys ops k q' :
  follows_protocol zero newQueue ops = true →
  Get zero (run zero ops newQueue) = GetReturns k false q' →
  (k ∉ processing (run zero ops newQueue)) ∧
  k ∈ processing q' ∧ (k ∉ dirty q') ∧ (k ∉ queue q').
Proof.
  intros Hp HG.
  pose proof (queue_inv_run zero ops newQueue queue_inv_newQueue Hp) as Hinv.
  destruct (Get_checks_out zero _ _ _ Hinv HG) as [[Hproc Hq] Hd].
  split_and!; try done.
  destruct Hinv as [Hinv _]. unfold Get in HG.
  destruct (queue (run zero ops newQueue)) as [|x rest] eqn:Hqu.
  { by destruct (shuttingDown (run zero ops newQueue)). }
  injection HG as -> _. apply (Hinv k). by left.
Qed.

(** X3.  Add is idempotent: a second Add of the same key right after the
    first changes nothing, in every state of the queue. *)
Theorem Add_idempotent item q : Add item (Add item q) = Add item q.
Proof.
  destruct (shuttingDown q) eqn:Hs.
  { unfold Add. by rewrite !Hs. }
  destruct (set_has (dirty q) item) eqn:Hd.
  { unfold Add. rewrite Hs, Hd. by rewrite Hs, Hd. }
  assert (set_has (set_insert (dirty q) item) item = true) as Hin.
  { apply set_has_true. unfold set_insert. set_solver. }
  assert (Add item q =
          if set_has (processing q) item
          then with_dirty (set_insert (dirty q) item) q
          else with_queue (queue q ++ [item]) (with_dirty (set_insert (dirty q) item) q))
    as ->.
  { unfold Add. by rewrite Hs, Hd. }
  destruct (set_has (processing q) item);
    unfold Add; cbn [shuttingDown dirty with_dirty with_queue];
    by rewrite Hs, Hin.
Qed.

(** X4.  Processing a key leaves no trace: on a queue with nothing
    pending that is not shutting down, for a key that is neither dirty
    nor checked out, Add, Get and Done bring the queue back to the state
    it was in, and Get returns that key. *)
Theorem Add_Get_Done_round_trip item q :
  queue q = [] → shuttingDown q = false →
  item ∉ dirty q → item ∉ processing q →
  ∃ q1, Get zero (Add item q) = GetReturns item false q1 ∧ Done item q1 = q.
Proof.
  intros Hq Hs Hd Hp.
  apply set_has_false in Hd as Hd'. apply set_has_false in Hp as Hp'.
  unfold Add. rewrite Hs, Hd'. simpl. rewrite Hp'.
  unfold Get. simpl. rewrite Hq. simpl. eexists. split; [done|].
  unfold Done. simpl.
  assert (set_has (set_delete (set_insert (dirty q) item) item) item = false) as ->.
  { apply set_has_false. unfold set_delete, set_insert. set_solver. }
  destruct q as [qu di pr sd dr]. simpl in *. subst qu.
  unfold with_processing, with_dirty, with_queue. simpl. f_equal.
  - unfold set_delete, set_insert. apply leibniz_equiv. set_solver.
  - unfold set_delete, set_insert. apply leibniz_equiv. set_solver.
Qed.

(** [n] calls of Get in a row, as long as they return an item: the items
    returned and the state reached. *)
Fixpoint Gets (n : nat) (q : Type_ (T:=T)) : list T * Type_ (T:=T) :=
  match n with
  | O => ([], q)
  | S n' =>
      match Get zero q with
      | GetReturns item false q' => let r := Gets n' q' in (item :: r.1, r.2)
      | _ => ([], q)
      end
  end.

(** The keys of a list in the order of their first occurrence, without
    those of [seen]. *)
Fixpoint first_occurrences (seen : gset T) (ks : list T) : list T :=
  match ks with
  | [] => []
  | k :: rest =>
      if decide (k ∈ seen) then first_occurrences seen rest
      else k :: first_occurrences ({[k]} ∪ seen) rest
  end.

Lemma Gets_pending q :
  (Gets (length (queue q)) q).1 = queue q ∧
  queue (Gets (length (queue q)) q).2 = [] ∧
  shuttingDown (Gets (length (queue q)) q).2 = shuttingDown q.
Proof.
  remember (length (queue q)) as n eqn:Hn. revert q Hn.
  induction n as [|n IH]; intros q Hn.
  { cbn. destruct (queue q); [done|discriminate]. }
  destruct (queue q) as [|x rest] eqn:Hq; [discriminate|].
  cbn [Gets]. unfold Get. rewrite Hq.
  cbn zeta.
  set (q' := with_dirty _ _).
  assert (queue q' = rest) as Hq' by done.
  destruct (IH q') as (H1 & H2 & H3); [rewrite Hq'; simpl in Hn; lia|].
  cbn [fst snd]. rewrite Hq' in *. by rewrite H1, H2, H3.
Qed.

(** Adds on a queue on which nothing is checked out and that is not
    shutting down. *)
Lemma Adds_pending ks q :
  shuttingDown q = false → processing q = ∅ →
  (∀ k, k ∈ dirty q ↔ k ∈ queue q) →
  let q' := run zero (OAdd <$> ks) q in
  queue q' = queue q ++ first_occurrences (dirty q) ks ∧
  shuttingDown q' = false ∧ processing q' = ∅.
Proof.
  revert q. induction ks as [|k ks IH]; intros q Hs Hp Hd.
  { cbn. by rewrite app_nil_r. }
  rewrite fmap_cons, run_cons. cbn [step first_occurrences].
  unfold Add. rewrite Hs. unfold set_has.
  destruct (decide (k ∈ dirty q)) as [Hk|Hk].
  - rewrite bool_decide_eq_true_2 by done. by apply IH.
  - rewrite bool_decide_eq_false_2 by done. cbn zeta. cbn [processing with_dirty].
    rewrite Hp. rewrite bool_decide_eq_false_2 by set_solver.
    set (q1 := with_queue _ _).
    destruct (IH q1) as (H1 & H2 & H3); [done|done| |].
    + intros k'. unfold q1, set_insert. cbn [dirty queue with_queue with_dirty].
      rewrite elem_of_union, elem_of_singleton, elem_of_app, list_elem_of_singleton, Hd.
      naive_solver.
    + cbn zeta in *. rewrite H1. unfold q1, set_insert.
      cbn [dirty queue with_queue with_dirty]. by rewrite <- app_assoc.
Qed.

(** X5.  First in, first out, each key once: after any calls of Add on a
    new queue, the calls of Get return the keys added, each once, in the
    order in which they were first added, and the queue is then empty. *)
Theorem Adds_then_Gets ks :
  let q := run zero (OAdd <$> ks) newQueue in
  (Gets (length (queue q)) q).1 = first_occurrences ∅ ks ∧
  queue (Gets (length (queue q)) q).2 = [] ∧
  NoDup (first_occurrences ∅ ks) ∧
  (∀ k, k ∈ first_occurrences ∅ ks ↔ k ∈ ks).
Proof.
  intros q.
  destruct (Adds_pending ks newQueue) as (Hq & _ & _); [done|done| |].
  { intros k. cbn. rewrite elem_of_nil. set_solver. }
  fold q in Hq. cbn [queue dirty newQueue app] in Hq.
  destruct (Gets_pending q) as (H1 & H2 & _).
  split_and!; [by rewrite H1|done| |].
  - assert (∀ seen l, NoDup (first_occurrences seen l) ∧
                      ∀ k, k ∈ first_occurrences seen l → k ∉ seen) as Hnd.
    { intros seen l. revert seen. induction l as [|x l IH]; intros seen.
      - split; [constructor|]. intros k Hk. by apply elem_of_nil in Hk.
      - cbn [first_occurrences]. destruct (decide (x ∈ seen)); [apply IH|].
        destruct (IH ({[x]} ∪ seen)) as [Hnd Hout]. split.
        + apply NoDup_cons. split; [|done]. intros Hx. apply Hout in Hx. set_solver.
        + intros k Hk. apply elem_of_cons in Hk as [->|Hk]; [done|].
          apply Hout in Hk. set_solver. }
    apply Hnd.
  - assert (∀ seen l k, k ∈ first_occurrences seen l ↔ k ∈ l ∧ k ∉ seen) as Hin.
    { intros seen l. revert seen. induction l as [|x l IH]; intros seen k.
      - cbn. rewrite elem_of_nil. naive_solver.
      - cbn [first_occurrences]. destruct (decide (x ∈ seen)) as [Hx|Hx].
        + rewrite IH, elem_of_cons. naive_solver.
        + rewrite !elem_of_cons, IH. destruct (decide (k = x)) as [->|]; set_solver. }
    intros k. rewrite Hin. set_solver.
Qed.


End queue_more.

(** ** The exponential limiter in closed form *)

Section exponential_exact.

Import Limiters.

Context `{Platform}.

Lemma digits2_pos_size (m : positive) : SpecFloat.digits2_pos m = Pos.size m.
Proof. induction m as [m IH|m IH|]; simpl; by rewrite ?IH. Qed.

(** A positive number of [d] binary digits lies between 2^(d-1) and 2^d. *)
Lemma digits2_pos_bounds (m : positive) :
  2 ^ (Z.pos (SpecFloat.digits2_pos m) - 1) <= Z.pos m < 2 ^ Z.pos (SpecFloat.digits2_pos m).
Proof.
  induction m as [m IH|m IH|]; cbn [SpecFloat.digits2_pos]; [| |done].
  - rewrite !Pos2Z.inj_succ. change (Z.pos m~1) with (2 * Z.pos m + 1).
    replace (Z.succ (Z.pos (SpecFloat.digits2_pos m)) - 1)
      with (Z.succ (Z.pos (SpecFloat.digits2_pos m) - 1)) by lia.
    rewrite !Z.pow_succ_r by lia. lia.
  - rewrite !Pos2Z.inj_succ. change (Z.pos m~0) with (2 * Z.pos m).
    replace (Z.succ (Z.pos (SpecFloat.digits2_pos m)) - 1)
      with (Z.succ (Z.pos (SpecFloat.digits2_pos m) - 1)) by lia.
    rewrite !Z.pow_succ_r by lia. lia.
Qed.

Lemma iter_xO_digits (m : positive) (k : positive) :
  SpecFloat.digits2_pos (Pos.iter xO m k) = (SpecFloat.digits2_pos m + k)%positive.
Proof.
  revert m. induction k as [|k IH] using Pos.peano_ind; intros m.
  - cbn. lia.
  - rewrite Pos.iter_succ. cbn [SpecFloat.digits2_pos]. rewrite IH. lia.
Qed.

Lemma iter_xO_value (m : positive) (k : positive) :
  Z.pos (Pos.iter xO m k) = Z.pos m * 2 ^ Z.pos k.
Proof.
  revert m. induction k as [|k IH] using Pos.peano_ind; intros m.
  - cbn. lia.
  - rewrite Pos.iter_succ. change (Z.pos (Pos.iter xO m k)~0) with (2 * Z.pos (Pos.iter xO m k)).
    rewrite IH, Pos2Z.inj_succ, Z.pow_succ_r by lia. lia.
Qed.

(** The 53-bit mantissa and the exponent of a positive integer below
    2^53. *)
Definition mantissa53 (m : positive) : positive :=
  match (53 - Z.pos (SpecFloat.digits2_pos m))%Z with
  | Z.pos k => Pos.iter xO m k
  | _ => m
  end.

Lemma mantissa53_spec (m : positive) :
  Z.pos m < 2 ^ 53 →
  SpecFloat.digits2_pos (mantissa53 m) = 53%positive ∧
  Z.pos (mantissa53 m) = Z.pos m * 2 ^ (53 - Z.pos (SpecFloat.digits2_pos m)) ∧
  Z.pos (SpecFloat.digits2_pos m) <= 53.
Proof.
  intros Hm. pose proof (digits2_pos_bounds m) as [Hlo _].
  assert (Z.pos (SpecFloat.digits2_pos m) <= 53) as Hd.
  { destruct (Z.le_gt_cases (Z.pos (SpecFloat.digits2_pos m)) 53) as [|Hgt]; [done|].
    assert (2 ^ 53 <= 2 ^ (Z.pos (SpecFloat.digits2_pos m) - 1))
      by (apply Z.pow_le_mono_r; lia). lia. }
  unfold mantissa53.
  destruct (53 - Z.pos (SpecFloat.digits2_pos m)) as [|k|k] eqn:Hk; [| |lia].
  - assert (SpecFloat.digits2_pos m = 53%positive) as Hd53 by lia.
    rewrite Hd53. split; [done|]. split; [|done]. cbn. lia.
  - split; [rewrite iter_xO_digits; lia|]. split; [apply iter_xO_value|done].
Qed.

Lemma float64_of_int_exact (m : positive) :
  Z.pos m < 2 ^ 53 →
  float64_of_int (Z.pos m) =
    SpecFloat.S754_finite false (mantissa53 m) (Z.pos (SpecFloat.digits2_pos m) - 53).
Proof.
  intros Hm. destruct (mantissa53_spec m Hm) as (Hd53 & Hval & Hd).
  unfold float64_of_int, SpecFloat.binary_normalize, SpecFloat.binary_round.
  unfold SpecFloat.fexp, SpecFloat.emin, prec, emax.
  replace (Z.max (Z.pos (SpecFloat.digits2_pos m) + 0 - 53) (3 - 1024 - 53))
    with (Z.pos (SpecFloat.digits2_pos m) - 53) by lia.
  unfold SpecFloat.shl_align. unfold mantissa53 in *.
  replace (Z.pos (SpecFloat.digits2_pos m) - 53 - 0)
    with (- (53 - Z.pos (SpecFloat.digits2_pos m))) by lia.
  destruct (53 - Z.pos (SpecFloat.digits2_pos m)) as [|k|k] eqn:Hk; [| |lia].
  - change (- 0) with 0. cbv beta iota zeta.
    change (SpecFloat.binary_round_aux 53 1024) with (SpecFloat.binary_round_aux prec emax).
    rewrite binary_round_aux_exact by (done || lia).
    replace (Z.pos (SpecFloat.digits2_pos m) - 53) with 0 by lia. done.
  - change (- Z.pos k) with (Z.neg k). cbv beta iota zeta.
    change (SpecFloat.binary_round_aux 53 1024) with (SpecFloat.binary_round_aux prec emax).
    rewrite binary_round_aux_exact by (done || lia).
    destruct (Z.leb_spec (Z.pos (SpecFloat.digits2_pos m) - 53) 971); [done|lia].
Qed.

Lemma math_Pow2_value exp :
  -1022 <= exp →
  math_Pow2 exp =
    if exp <=? 1023 then SpecFloat.S754_finite false 4503599627370496 (exp - 52)
    else SpecFloat.S754_infinity false.
Proof.
  intros He. unfold math_Pow2, SpecFloat.binary_normalize, SpecFloat.binary_round.
  cbn [SpecFloat.digits2_pos].
  unfold SpecFloat.fexp, SpecFloat.emin, prec, emax.
  replace (Z.max (1 + exp - 53) (3 - 1024 - 53)) with (exp - 52) by lia.
  unfold SpecFloat.shl_align.
  replace (exp - 52 - exp) with (-52) by lia.
  cbn [Pos.iter].
  change (SpecFloat.binary_round_aux 53 1024) with (SpecFloat.binary_round_aux prec emax).
  rewrite binary_round_aux_exact by (try reflexivity; lia).
  destruct (Z.leb_spec (exp - 52) 971), (Z.leb_spec exp 1023); (done || lia).
Qed.

Lemma mul_pow2_mantissa (M : positive) :
  (M * 4503599627370496)%positive = Pos.iter xO M 52.
Proof. rewrite Pos.mul_comm. reflexivity. Qed.

(** The product of a 53-bit mantissa and the mantissa 2^52 rounds to the
    mantissa itself. *)
Lemma binary_round_aux_mul_pow2 (M : positive) E :
  SpecFloat.digits2_pos M = 53%positive → -1126 <= E →
  SpecFloat.binary_round_aux prec emax false (Z.pos (M * 4503599627370496)) E
    SpecFloat.loc_Exact =
    if E + 52 <=? 971 then SpecFloat.S754_finite false M (E + 52)
    else SpecFloat.S754_infinity false.
Proof.
  intros Hd HE.
  assert (SpecFloat.shr_fexp prec emax (Z.pos (M * 4503599627370496)) E SpecFloat.loc_Exact
          = ({| SpecFloat.shr_m := Z.pos M; SpecFloat.shr_r := false;
                SpecFloat.shr_s := false |}, E + 52)) as Hshr.
  { unfold SpecFloat.shr_fexp, SpecFloat.fexp, SpecFloat.emin, prec, emax.
    cbn [SpecFloat.Zdigits2]. rewrite mul_pow2_mantissa, iter_xO_digits, Hd.
    replace (Z.max (Z.pos (53 + 52) + E - 53) (3 - 1024 - 53) - E) with 52 by lia.
    reflexivity. }
  assert (SpecFloat.shr_fexp prec emax (Z.pos M) (E + 52) SpecFloat.loc_Exact
          = ({| SpecFloat.shr_m := Z.pos M; SpecFloat.shr_r := false;
                SpecFloat.shr_s := false |}, E + 52)) as Hshr2.
  { unfold SpecFloat.shr_fexp, SpecFloat.fexp, SpecFloat.emin, prec, emax.
    cbn [SpecFloat.Zdigits2]. rewrite Hd.
    replace (Z.max (53 + (E + 52) - 53) (3 - 1024 - 53) - (E + 52)) with 0 by lia.
    reflexivity. }
  unfold SpecFloat.binary_round_aux. rewrite Hshr.
  cbn [SpecFloat.shr_m SpecFloat.loc_of_shr_record SpecFloat.round_nearest_even].
  rewrite Hshr2. reflexivity.
Qed.

Lemma math_MaxInt64_float64_value :
  math_MaxInt64_float64 = SpecFloat.S754_finite false 4503599627370496 11.
Proof. vm_compute. reflexivity. Qed.

(** The integer a product mantissa * 2^X stands for. *)
Lemma shiftl_mantissa53 (m : positive) exp :
  Z.pos m < 2 ^ 53 → 0 <= exp →
  Z.shiftl (Z.pos (mantissa53 m)) (Z.pos (SpecFloat.digits2_pos m) - 53 + exp)
    = Z.pos m * 2 ^ exp.
Proof.
  intros Hm He. destruct (mantissa53_spec m Hm) as (_ & Hval & Hd).
  set (d := Z.pos (SpecFloat.digits2_pos m)) in *. rewrite Hval.
  destruct (Z.le_gt_cases 0 (d - 53 + exp)) as [HX|HX].
  - rewrite Z.shiftl_mul_pow2 by done. rewrite <- Z.mul_assoc, <- Z.pow_add_r by lia.
    f_equal. f_equal. lia.
  - replace (d - 53 + exp) with (- (53 - d - exp)) by lia.
    rewrite Z.shiftl_opp_r, Z.shiftr_div_pow2 by lia.
    assert (2 ^ (53 - d) = 2 ^ exp * 2 ^ (53 - d - exp)) as ->
      by (rewrite <- Z.pow_add_r by lia; f_equal; lia).
    rewrite Z.mul_assoc.
    apply Z.div_mul. apply Z.pow_nonzero; lia.
Qed.

(** The exponential limiter away from the boundary 2^63: for a base
    delay between 1ns and 2^53 ns, a maximal delay that is a duration,
    and an exponent [exp] with baseDelay * 2^exp other than 2^63, the
    delay is min(baseDelay * 2^exp, maxDelay), on every platform. *)
Lemma exponential_backoff_exact baseDelay maxDelay exp :
  0 < baseDelay < 2 ^ 53 → maxDelay <= MaxInt64 → 0 <= exp →
  baseDelay * 2 ^ exp ≠ 2 ^ 63 →
  exponential_backoff baseDelay maxDelay exp = Z.min (baseDelay * 2 ^ exp) maxDelay.
Proof.
  intros Hb Hmax He Hne. destruct baseDelay as [|m|m]; [lia| |lia].
  destruct Hb as [_ Hm].
  destruct (mantissa53_spec m Hm) as (Hd53 & Hval & Hd).
  pose proof (digits2_pos_bounds m) as [Hlo Hhi].
  pose proof (digits2_pos_bounds (mantissa53 m)) as [HMlo HMhi].
  rewrite Hd53 in HMlo, HMhi.
  pose proof (shiftl_mantissa53 m exp Hm He) as Hshift.
  set (d := Z.pos (SpecFloat.digits2_pos m)) in *.
  set (M := mantissa53 m) in *.
  assert (0 < d) as Hd0 by (unfold d; lia).
  assert (2 ^ (d - 1 + exp) <= Z.pos m * 2 ^ exp) as Hblo.
  { rewrite Z.pow_add_r by lia. apply Z.mul_le_mono_nonneg_r; [|done].
    apply Z.pow_nonneg. lia. }
  unfold MaxInt64 in Hmax. change (2 ^ 63 - 1) with 9223372036854775807 in Hmax.
  change (2 ^ 63) with 9223372036854775808 in Hne.
  unfold exponential_backoff. rewrite float64_of_int_exact by done. fold d M.
  rewrite math_Pow2_value by lia. rewrite math_MaxInt64_float64_value.
  destruct (Z.leb_spec exp 1023) as [He1|He1].
  2: { unfold float64_mul, float64_gt. cbn [SpecFloat.SFmul xorb SpecFloat.SFltb SpecFloat.SFcompare].
       assert (2 ^ 64 <= 2 ^ (d - 1 + exp)) as Hhuge by (apply Z.pow_le_mono_r; lia).
       change (2 ^ 64) with 18446744073709551616 in Hhuge. lia. }
  unfold float64_mul. cbn [SpecFloat.SFmul xorb].
  change (SpecFloat.binary_round_aux 53 1024) with (SpecFloat.binary_round_aux prec emax).
  unfold prec, emax.
  change (SpecFloat.binary_round_aux 53 1024) with (SpecFloat.binary_round_aux prec emax).
  rewrite binary_round_aux_mul_pow2 by (done || lia).
  replace (d - 53 + (exp - 52) + 52) with (d - 53 + exp) by lia.
  destruct (Z.leb_spec (d - 53 + exp) 971) as [HX|HX].
  2: { unfold float64_gt. cbn [SpecFloat.SFltb SpecFloat.SFcompare].
       assert (2 ^ 64 <= 2 ^ (d - 1 + exp)) as Hhuge by (apply Z.pow_le_mono_r; lia).
       change (2 ^ 64) with 18446744073709551616 in Hhuge. lia. }
  unfold float64_gt, SpecFloat.SFltb, SpecFloat.SFcompare.
  unfold MaxInt64, MinInt64.
  change (2 ^ (53 - 1)) with 4503599627370496 in HMlo.
  change (2 ^ 53) with 9007199254740992 in HMhi.
  set (b := Z.pos m * 2 ^ exp) in *.
  destruct (Z.compare_spec 11 (d - 53 + exp)) as [HX11|HX11|HX11].
  - (* the exponent of 2^63 *)
    rewrite <- HX11 in Hshift. rewrite Z.shiftl_mul_pow2 in Hshift by lia.
    change (2 ^ 11) with 2048 in Hshift.
    change (Pos.compare_cont Eq 4503599627370496 M) with (4503599627370496 ?= M)%positive.
    destruct (Pos.compare_spec 4503599627370496 M) as [HM|HM|HM].
    + exfalso. apply Hne. rewrite <- Hshift, <- HM. reflexivity.
    + cbv beta iota. apply Pos2Z.pos_lt_pos in HM.
      rewrite Z.min_r; [done|]. clear -HM Hshift Hmax. lia.
    + exfalso. apply Pos2Z.pos_lt_pos in HM. clear -HM HMlo. lia.
  - (* a greater exponent *)
    rewrite Z.shiftl_mul_pow2 in Hshift by lia.
    assert (2 ^ 12 <= 2 ^ (d - 53 + exp)) as Hp by (apply Z.pow_le_mono_r; lia).
    change (2 ^ 12) with 4096 in Hp.
    assert (4503599627370496 * 4096 <= Z.pos M * 2 ^ (d - 53 + exp)) as Hbig
      by (apply Z.mul_le_mono_nonneg; lia).
    cbv beta iota. rewrite Z.min_r; [done|]. clear -Hbig Hshift Hmax. lia.
  - (* a smaller exponent *)
    unfold int64_of_float64, float64_trunc. rewrite Hshift.
    assert (b < 9223372036854775808) as Hlt.
    { destruct (Z.le_gt_cases 0 (d - 53 + exp)) as [HX0|HX0].
      - rewrite Z.shiftl_mul_pow2 in Hshift by lia. rewrite <- Hshift.
        assert (2 ^ (d - 53 + exp) <= 2 ^ 10) as Hp by (apply Z.pow_le_mono_r; lia).
        change (2 ^ 10) with 1024 in Hp.
        assert (0 <= 2 ^ (d - 53 + exp)) by (apply Z.pow_nonneg; lia).
        assert (Z.pos M * 2 ^ (d - 53 + exp) <= 9007199254740992 * 1024)
          by (apply Z.mul_le_mono_nonneg; lia).
        lia.
      - assert (2 ^ exp <= 2 ^ (53 - d)) as Hp by (apply Z.pow_le_mono_r; lia).
        assert (b <= Z.pos M).
        { rewrite Hval. unfold b. apply Z.mul_le_mono_nonneg_l; lia. }
        lia. }
    assert (0 < b) by (apply Z.mul_pos_pos; [lia|apply Z.pow_pos_nonneg; lia]).
    unfold MinInt64, MaxInt64.
    change (- 2 ^ 63) with (-9223372036854775808).
    change (2 ^ 63 - 1) with 9223372036854775807.
    destruct (Z.leb_spec (-9223372036854775808) b); [|lia].
    destruct (Z.leb_spec b 9223372036854775807); [|lia].
    cbn [andb]. cbv beta iota. destruct (Z.gtb_spec b maxDelay); lia.
Qed.

End exponential_exact.

(** ** The per-item limiters *)

Section limiter_more.

Import Limiters.

Context {T : Type} `{Countable T} `{Platform}.

Implicit Types (item k : T) (r : ItemExponentialFailureRateLimiter (T:=T))
  (fs : ItemFastSlowRateLimiter (T:=T)).

(** X7.  The exponential backoff in closed form. On every platform, for
    a base delay from 1ns to below 2^53 ns and a maximal delay that is a
    duration, the call of When that follows [n] consecutive calls for a
    key without earlier failures returns min(baseDelay * 2^n, maxDelay),
    unless baseDelay * 2^n is exactly 2^63. *)
Theorem exponential_When_closed_form (n : nat) item r :
  failures r !! item = None →
  0 < baseDelay r < 2 ^ 53 →
  maxDelay r <= MaxInt64 →
  Z.of_nat n <= MaxInt64 →
  baseDelay r * 2 ^ Z.of_nat n ≠ 2 ^ 63 →
  (When_times (S n) item r).1 =
    Z.min (baseDelay r * 2 ^ Z.of_nat n) (maxDelay r).
Proof.
  intros Hnone Hb Hmax Hn Hne.
  rewrite exponential_When_nth by done.
  apply exponential_backoff_exact; (done || lia).
Qed.

(** X8.  The backoff is bounded: whatever the delays, the history and
    the platform, When never returns more than the maximal delay. *)
Theorem exponential_When_at_most_maxDelay item r :
  (ItemExponentialFailureRateLimiter_When item r).1 <= maxDelay r.
Proof.
  unfold ItemExponentialFailureRateLimiter_When, exponential_backoff. cbn [fst].
  destruct (float64_gt _ _); [lia|].
  destruct (Z.gtb_spec
    (int64_of_float64 (float64_mul (float64_of_int (baseDelay r))
       (math_Pow2 (default 0 (failures r !! item))))) (maxDelay r)); lia.
Qed.

(** X9.  NumRequeues counts the calls of When since the last Forget, and
    Forget takes the key back to where it started: the next When returns
    what the first one returned. *)
Theorem exponential_NumRequeues_and_Forget (n : nat) item r :
  failures r !! item = None →
  Z.of_nat n <= MaxInt64 →
  let rn := (When_times n item r).2 in
  NumRequeues item rn = Z.of_nat n ∧
  NumRequeues item (Forget item rn) = 0 ∧
  (When item (Forget item rn)).1 = (When item r).1.
Proof.
  intros Hnone Hn rn.
  destruct (exponential_counts n item r Hnone Hn) as (Hc & Hb & Hm).
  fold rn in Hc, Hb, Hm.
  cbn [NumRequeues Forget When ItemExponentialFailureRateLimiter_RateLimiter].
  unfold ItemExponentialFailureRateLimiter_NumRequeues,
    ItemExponentialFailureRateLimiter_Forget, ItemExponentialFailureRateLimiter_When.
  cbn [failures baseDelay maxDelay fst].
  rewrite lookup_delete_eq, Hnone, Hb, Hm. done.
Qed.

(** X10.  The keys do not interfere: When and Forget for one key change
    neither the count nor the next delay of another key. *)
Theorem exponential_keys_independent item k r :
  item ≠ k →
  NumRequeues k (When item r).2 = NumRequeues k r ∧
  (When k (When item r).2).1 = (When k r).1 ∧
  NumRequeues k (Forget item r) = NumRequeues k r ∧
  (When k (Forget item r)).1 = (When k r).1.
Proof.
  intros Hne.
  cbn [NumRequeues Forget When ItemExponentialFailureRateLimiter_RateLimiter].
  unfold ItemExponentialFailureRateLimiter_NumRequeues,
    ItemExponentialFailureRateLimiter_Forget, ItemExponentialFailureRateLimiter_When.
  cbn [failures baseDelay maxDelay fst snd].
  rewrite lookup_insert_ne, lookup_delete_ne by done. done.
Qed.

(** After [n] consecutive calls of [When item] on a fast-slow limiter
    that holds no failure of [item], the counter of [item] is [n]. *)
Lemma fastslow_counts (n : nat) item fs :
  fs_failures fs !! item = None →
  Z.of_nat n <= MaxInt64 →
  let fn := (When_times n item fs).2 in
  default 0 (fs_failures fn !! item) = Z.of_nat n ∧
  maxFastAttempts fn = maxFastAttempts fs ∧
  fastDelay fn = fastDelay fs ∧ slowDelay fn = slowDelay fs.
Proof.
  intros Hnone. induction n as [|n IH]; intros Hn.
  { cbn. by rewrite Hnone. }
  destruct IH as (Hc & Hm & Hf & Hs); [lia|].
  cbn [When_times]. cbn [When ItemFastSlowRateLimiter_RateLimiter].
  unfold ItemFastSlowRateLimiter_When. rewrite Hc.
  rewrite wrap_int_small by (unfold MinInt64, MaxInt64 in *; lia).
  destruct (_ <=? _); cbn [snd fs_failures maxFastAttempts fastDelay slowDelay];
    rewrite lookup_insert_eq; cbn [default]; unfold id; split_and!; (done || lia).
Qed.

(** X11.  The fast-slow limiter: the first maxFastAttempts consecutive
    calls of When for a key return the fast delay, the later ones the
    slow delay; NumRequeues counts them, and Forget starts the count
    again. *)
Theorem fastslow_When_closed_form (n : nat) item fs :
  fs_failures fs !! item = None →
  Z.of_nat n < MaxInt64 →
  (When_times (S n) item fs).1 =
    (if Z.of_nat (S n) <=? maxFastAttempts fs then fastDelay fs else slowDelay fs) ∧
  NumRequeues item (When_times (S n) item fs).2 = Z.of_nat (S n) ∧
  NumRequeues item (Forget item (When_times (S n) item fs).2) = 0.
Proof.
  intros Hnone Hn.
  destruct (fastslow_counts n item fs Hnone) as (Hc & Hm & Hf & Hs); [lia|].
  destruct (fastslow_counts (S n) item fs Hnone) as (Hc' & _); [lia|].
  split_and!.
  - cbn [When_times]. cbn [When ItemFastSlowRateLimiter_RateLimiter].
    unfold ItemFastSlowRateLimiter_When. rewrite Hc, Hm, Hf, Hs.
    rewrite wrap_int_small by (unfold MinInt64, MaxInt64 in *; lia).
    replace (Z.of_nat n + 1) with (Z.of_nat (S n)) by lia.
    by destruct (_ <=? _).
  - cbn [NumRequeues ItemFastSlowRateLimiter_RateLimiter].
    unfold ItemFastSlowRateLimiter_NumRequeues. by rewrite Hc'.
  - cbn [NumRequeues Forget ItemFastSlowRateLimiter_RateLimiter].
    unfold ItemFastSlowRateLimiter_NumRequeues, ItemFastSlowRateLimiter_Forget.
    cbn [fs_failures]. by rewrite lookup_delete_eq.
Qed.

End limiter_more.

(** ** The default controller limiter *)

Section default_limiter_properties.

Import Limiters.

Context {T : Type} `{Countable T} `{Platform}.
Context {B : Type} `{TokenBucket B}.

Implicit Types (item : T) (bucket : B).

(** The state of the bucket after [n] reservations. *)
Definition reserved (n : nat) bucket : B :=
  Nat.iter n (λ b, (Reserve_Delay b).2) bucket.

Lemma DefaultContrllerRateLimiter_state (n : nat) item bucket :
  limiters (When_times n item (DefaultContrllerRateLimiter bucket)).2 =
    [Exponential
       (When_times n item
          (NewItemExponentialFailureRateLimiter (5 * 1000000) (1000 * 1000000000))).2;
     Bucket {| Limiter := reserved n bucket |}].
Proof.
  induction n as [|n IH]; [done|].
  cbn [When_times]. cbn [When MaxOfRateLimiter_RateLimiter].
  unfold MaxOfRateLimiter_When. rewrite IH. cbn [limiters snd fold_left].
  unfold MaxOf_When_visit. cbn [snd app].
  cbn [When limiter_value_RateLimiter BucketRateLimiter_RateLimiter].
  unfold BucketRateLimiter_When. cbn [fst snd Limiter].
  unfold reserved. by rewrite Nat.iter_succ.
Qed.

(** X19.  The default controller limiter, whatever the token bucket
    answers: the call of When that follows [n] consecutive calls for a
    key returns the greater of the per-key backoff
    min(5ms * 2^n, 1000s) and the delay of the bucket; NumRequeues
    counts the calls, the bucket counting none; and Forget takes the
    count back to zero. *)
Theorem DefaultContrllerRateLimiter_When (n : nat) item bucket :
  Z.of_nat n <= MaxInt64 →
  let r := DefaultContrllerRateLimiter bucket in
  (When_times (S n) item r).1 =
    Z.max (Z.min (5000000 * 2 ^ Z.of_nat n) 1000000000000)
          (Reserve_Delay (reserved n bucket)).1 ∧
  NumRequeues item (When_times n item r).2 = Z.of_nat n ∧
  NumRequeues item (Forget item (When_times n item r).2) = 0.
Proof.
  intros Hn r.
  pose proof (DefaultContrllerRateLimiter_state n item bucket) as Hst. fold r in Hst.
  set (e0 := NewItemExponentialFailureRateLimiter (T:=T) (5 * 1000000) (1000 * 1000000000)) in *.
  destruct (exponential_counts n item e0 eq_refl Hn) as (Hc & Hb & Hm).
  assert (0 < Z.min (5000000 * 2 ^ Z.of_nat n) 1000000000000) as Hpos.
  { assert (0 < 2 ^ Z.of_nat n) by (apply Z.pow_pos_nonneg; lia). lia. }
  split_and!.
  - cbn [When_times]. cbn [When MaxOfRateLimiter_RateLimiter].
    unfold MaxOfRateLimiter_When. rewrite Hst. cbn [limiters fst fold_left].
    unfold MaxOf_When_visit. cbn [fst].
    cbn [When limiter_value_RateLimiter BucketRateLimiter_RateLimiter
         ItemExponentialFailureRateLimiter_RateLimiter].
    unfold BucketRateLimiter_When, ItemExponentialFailureRateLimiter_When.
    cbn [fst snd Limiter]. rewrite Hc, Hb, Hm.
    rewrite exponential_backoff_exact; cbn [baseDelay maxDelay e0 NewItemExponentialFailureRateLimiter].
    + change (5 * 1000000) with 5000000. change (1000 * 1000000000) with 1000000000000.
      set (a := Z.min (5000000 * 2 ^ Z.of_nat n) 1000000000000) in *.
      set (d := (Reserve_Delay (reserved n bucket)).1).
      destruct (Z.gtb_spec a 0); [|lia].
      destruct (Z.gtb_spec d a); lia.
    + done.
    + done.
    + lia.
    + intros Heq. apply (f_equal (λ z, z mod 5)) in Heq.
      replace (5 * 1000000 * 2 ^ Z.of_nat n)
        with (1000000 * 2 ^ Z.of_nat n * 5) in Heq by lia.
      rewrite Z.mod_mul in Heq by lia. by vm_compute in Heq.
  - cbn [NumRequeues MaxOfRateLimiter_RateLimiter]. unfold MaxOfRateLimiter_NumRequeues.
    rewrite Hst. cbn [limiters fold_left].
    cbn [NumRequeues limiter_value_RateLimiter BucketRateLimiter_RateLimiter
         ItemExponentialFailureRateLimiter_RateLimiter].
    unfold BucketRateLimiter_NumRequeues, ItemExponentialFailureRateLimiter_NumRequeues.
    rewrite Hc.
    cbv zeta.
    destruct (Z.gtb_spec (Z.of_nat n) 0);
      match goal with
      | |- context [?a >? ?b] => destruct (Z.gtb_spec a b)
      end; lia.
  - cbn [NumRequeues Forget MaxOfRateLimiter_RateLimiter].
    unfold MaxOfRateLimiter_NumRequeues, MaxOfRateLimiter_Forget.
    rewrite Hst. cbn [limiters fold_left app].
    cbn [NumRequeues Forget limiter_value_RateLimiter BucketRateLimiter_RateLimiter
         ItemExponentialFailureRateLimiter_RateLimiter].
    unfold BucketRateLimiter_NumRequeues, ItemExponentialFailureRateLimiter_NumRequeues,
      ItemExponentialFailureRateLimiter_Forget, BucketRateLimiter_Forget.
    cbn [failures]. rewrite lookup_delete_eq. done.
Qed.

End default_limiter_properties.

(** ** The limiter with a maximal wait *)

Section with_max_wait_properties.

Import Limiters.

Context {T : Type} `{Countable T}.
Context {L : Type} `{RateLimiter T L}.

Implicit Types (item : T) (w : WithMaxWaitRateLimiter (L:=L)).

Lemma WithMaxWait_state (n : nat) item w :
  limiter (When_times n item w).2 = (When_times n item (limiter w)).2 ∧
  mw_maxDelay (When_times n item w).2 = mw_maxDelay w.
Proof.
  induction n as [|n [IHl IHm]]; [done|].
  cbn [When_times]. cbn [When WithMaxWaitRateLimiter_RateLimiter].
  unfold WithMaxWaitRateLimiter_When. rewrite IHl, IHm.
  by destruct (_ >? _).
Qed.

(** X20.  The limiter with a maximal wait, over any limiter: after any
    number of consecutive calls of When for a key, the wrapped limiter
    is in the state its own calls of When would have left it in; each
    call returns the lesser of the wrapped limiter's delay and the
    maximal wait; and NumRequeues and Forget are those of the wrapped
    limiter. *)
Theorem WithMaxWait_caps_the_delay (n : nat) item w :
  limiter (When_times n item w).2 = (When_times n item (limiter w)).2 ∧
  (When_times (S n) item w).1 =
    Z.min (When_times (S n) item (limiter w)).1 (mw_maxDelay w) ∧
  NumRequeues item (When_times n item w).2 =
    NumRequeues item (When_times n item (limiter w)).2 ∧
  limiter (Forget item (When_times n item w).2) =
    Forget item (When_times n item (limiter w)).2.
Proof.
  destruct (WithMaxWait_state n item w) as [Hl Hm].
  split_and!.
  - done.
  - cbn [When_times]. cbn [When WithMaxWaitRateLimiter_RateLimiter].
    unfold WithMaxWaitRateLimiter_When. rewrite Hl, Hm.
    destruct (Z.gtb_spec (When item (When_times n item (limiter w)).2).1 (mw_maxDelay w));
      cbn [fst]; lia.
  - cbn [NumRequeues WithMaxWaitRateLimiter_RateLimiter].
    unfold WithMaxWaitRateLimiter_NumRequeues. by rewrite Hl.
  - cbn [Forget WithMaxWaitRateLimiter_RateLimiter].
    unfold WithMaxWaitRateLimiter_Forget. cbn [limiter]. by rewrite Hl.
Qed.

End with_max_wait_properties.

(** ** The delaying queue: the heap and [insert] *)

Section delaying_properties.

Import Delaying.

Context {T : Type} `{Countable T}.

Implicit Types (pq : waitForPriorityQueue (T:=T)) (p x : ptr) (e : waitFor (T:=T))
  (i j n : Z) (known : gmap T ptr).

(** What an entry is scheduled as: its key and its time. *)
Definition schedule pq p : option (T * Z) :=
  (λ e, (data e, readyAt e)) <$> objects pq !! p.

(** Every pointer in the queue refers to an object. *)
Definition valid pq : Prop :=
  ∀ p, p ∈ items pq → is_Some (objects pq !! p).

Lemma bind_Ok {A B : Type} (m : result A) (k : A → result B) b :
  bind m k = Ok b → ∃ a, m = Ok a ∧ k a = Ok b.
Proof. destruct m as [a| |]; simpl; [|done..]. intros Hk. by exists a. Qed.

Lemma must_Ok {A : Type} (o : option A) a : must o = Ok a → o = Some a.
Proof. destruct o; simpl; [|done]. by intros [= ->]. Qed.

Lemma at_index_Ok pq i p :
  at_index pq i = Ok p → 0 <= i ∧ items pq !! Z.to_nat i = Some p.
Proof.
  unfold at_index. destruct (Z.ltb_spec i 0); [done|].
  intros Hm. by apply must_Ok in Hm.
Qed.

Lemma at_index_lookup pq i p :
  0 <= i → items pq !! Z.to_nat i = Some p → at_index pq i = Ok p.
Proof.
  intros Hi Hl. unfold at_index. destruct (Z.ltb_spec i 0); [lia|].
  by rewrite Hl.
Qed.

Lemma deref_Ok pq p e : deref pq p = Ok e → objects pq !! p = Some e.
Proof. apply must_Ok. Qed.

(** Writing the index of an object leaves every schedule as it is. *)
Lemma store_index_schedule pq x e i p :
  objects pq !! x = Some e →
  schedule (store x (with_index i e) pq) p = schedule pq p.
Proof.
  intros Hx. unfold schedule, store. simpl.
  destruct (decide (x = p)) as [->|Hne].
  - by rewrite lookup_insert_eq, Hx.
  - by rewrite lookup_insert_ne.
Qed.

Lemma store_index_valid pq x e :
  valid pq → valid (store x e pq).
Proof.
  intros Hv p Hp. unfold store. simpl.
  destruct (decide (x = p)) as [->|Hne].
  - rewrite lookup_insert_eq. by eexists.
  - rewrite lookup_insert_ne by done. by apply Hv.
Qed.

(** The exchange of two slots keeps the pointers of the slice. *)
Lemma exchange_elem_of (l : list ptr) (a b : nat) x y p :
  l !! a = Some x → l !! b = Some y →
  p ∈ <[b := x]> (<[a := y]> l) ↔ p ∈ l.
Proof.
  intros Ha Hb.
  assert (a < length l)%nat by (by eapply lookup_lt_Some).
  assert (b < length l)%nat by (by eapply lookup_lt_Some).
  rewrite !list_elem_of_lookup. split.
  - intros [k Hk]. destruct (decide (k = b)) as [->|Hkb].
    + rewrite list_lookup_insert_eq in Hk by (rewrite length_insert; lia).
      injection Hk as <-. by exists a.
    + rewrite list_lookup_insert_ne in Hk by done.
      destruct (decide (k = a)) as [->|Hka].
      * rewrite list_lookup_insert_eq in Hk by lia. injection Hk as <-. by exists b.
      * rewrite list_lookup_insert_ne in Hk by done. by exists k.
  - intros [k Hk]. destruct (decide (k = a)) as [->|Hka].
    + exists b. rewrite list_lookup_insert_eq by (rewrite length_insert; lia). congruence.
    + destruct (decide (k = b)) as [->|Hkb].
      * destruct (decide (a = b)) as [->|Hab]; [done|].
        exists a. rewrite list_lookup_insert_ne by done.
        rewrite list_lookup_insert_eq by lia. congruence.
      * exists k. by rewrite !list_lookup_insert_ne.
Qed.

Lemma Swap_Ok pq i j pq' :
  Swap pq i j = Ok pq' →
  (∀ p, schedule pq' p = schedule pq p) ∧
  (∀ p, p ∈ items pq' ↔ p ∈ items pq) ∧
  length (items pq') = length (items pq) ∧
  (valid pq → valid pq').
Proof.
  unfold Swap. intros Hs.
  apply bind_Ok in Hs as (a & Ha & Hs). apply at_index_Ok in Ha as [Hi Ha].
  apply bind_Ok in Hs as (b & Hb & Hs). apply at_index_Ok in Hb as [Hj Hb].
  apply bind_Ok in Hs as (x & Hx & Hs). apply at_index_Ok in Hx as [_ Hx].
  apply bind_Ok in Hs as (ex & Hex & Hs). apply deref_Ok in Hex.
  apply bind_Ok in Hs as (y & Hy & Hs). apply at_index_Ok in Hy as [_ Hy].
  apply bind_Ok in Hs as (ey & Hey & Hs). apply deref_Ok in Hey.
  injection Hs as <-.
  set (pq1 := {| objects := objects pq;
                 items := <[Z.to_nat j:=a]> (<[Z.to_nat i:=b]> (items pq)) |}) in *.
  split_and!.
  - intros p. rewrite store_index_schedule by done.
    by rewrite store_index_schedule.
  - intros p. simpl. exact (exchange_elem_of _ _ _ _ _ p Ha Hb).
  - simpl. by rewrite !length_insert.
  - intros Hv. apply store_index_valid, store_index_valid.
    intros p Hp. simpl in *. apply Hv.
    by apply (exchange_elem_of _ _ _ _ _ p Ha Hb).
Qed.

(** What the heap operations keep: the schedule of every object, the
    pointers of the slice and their number, and that every pointer of the
    slice refers to an object. *)
Definition preserved pq pq' : Prop :=
  (∀ p, schedule pq' p = schedule pq p) ∧
  (∀ p, p ∈ items pq' ↔ p ∈ items pq) ∧
  length (items pq') = length (items pq) ∧
  (valid pq → valid pq').

Lemma preserved_refl pq : preserved pq pq.
Proof. by split_and!. Qed.

Lemma preserved_trans pq1 pq2 pq3 :
  preserved pq1 pq2 → preserved pq2 pq3 → preserved pq1 pq3.
Proof.
  intros (Hs1 & He1 & Hl1 & Hv1) (Hs2 & He2 & Hl2 & Hv2). split_and!.
  - intros p. by rewrite Hs2.
  - intros p. by rewrite He2.
  - by rewrite Hl2.
  - auto.
Qed.

Lemma heap_up_Ok fuel pq j pq' :
  heap_up fuel pq j = Ok pq' → preserved pq pq'.
Proof.
  revert pq j. induction fuel as [|fuel IH]; intros pq j; [done|].
  cbn [heap_up]. destruct (Z.quot (j - 1) 2 =? j).
  { intros [= <-]. apply preserved_refl. }
  intros Hu. apply bind_Ok in Hu as (less & _ & Hu).
  destruct less; cbn [negb] in Hu.
  - apply bind_Ok in Hu as (pq1 & Hsw & Hu).
    eapply preserved_trans; [by eapply Swap_Ok|by eapply IH].
  - injection Hu as <-. apply preserved_refl.
Qed.

Lemma heap_down_Ok fuel pq i0 i n pq' moved :
  heap_down fuel pq i0 i n = Ok (pq', moved) → preserved pq pq'.
Proof.
  revert pq i. induction fuel as [|fuel IH]; intros pq i; [done|].
  cbn [heap_down]. destruct ((2 * i + 1 >=? n) || (2 * i + 1 <? 0)).
  { intros [= <- _]. apply preserved_refl. }
  intros Hd. apply bind_Ok in Hd as (j & _ & Hd).
  apply bind_Ok in Hd as (less & _ & Hd).
  destruct less; cbn [negb] in Hd.
  - apply bind_Ok in Hd as (pq1 & Hsw & Hd).
    eapply preserved_trans; [by eapply Swap_Ok|by eapply IH].
  - injection Hd as <- _. apply preserved_refl.
Qed.

Lemma heap_Fix_Ok pq i pq' : heap_Fix pq i = Ok pq' → preserved pq pq'.
Proof.
  unfold heap_Fix. intros Hf. apply bind_Ok in Hf as ([pq1 moved] & Hd & Hf).
  apply heap_down_Ok in Hd. cbn [fst snd] in Hf. destruct moved; cbn [negb] in Hf.
  - by injection Hf as <-.
  - eapply preserved_trans; [done|by eapply heap_up_Ok].
Qed.

(** The calls of [Less] and [Swap] on positions of a valid queue do not
    panic. *)
Lemma Less_total pq i j :
  valid pq → 0 <= i < Len pq → 0 <= j < Len pq → ∃ b, Less pq i j = Ok b.
Proof.
  unfold Len. intros Hv Hi Hj.
  destruct (lookup_lt_is_Some_2 (items pq) (Z.to_nat i)) as [a Ha]; [lia|].
  destruct (lookup_lt_is_Some_2 (items pq) (Z.to_nat j)) as [b Hb]; [lia|].
  destruct (Hv a) as [ea Hea]; [by eapply list_elem_of_lookup_2|].
  destruct (Hv b) as [eb Heb]; [by eapply list_elem_of_lookup_2|].
  unfold Less. rewrite (at_index_lookup pq i a) by (done || lia). cbn [bind].
  unfold deref. rewrite Hea. cbn [must bind].
  rewrite (at_index_lookup pq j b) by (done || lia). cbn [bind].
  rewrite Heb. cbn [must bind]. by eexists.
Qed.

Lemma Swap_total pq i j :
  valid pq → 0 <= i < Len pq → 0 <= j < Len pq → ∃ pq', Swap pq i j = Ok pq'.
Proof.
  unfold Len. intros Hv Hi Hj.
  destruct (lookup_lt_is_Some_2 (items pq) (Z.to_nat i)) as [a Ha]; [lia|].
  destruct (lookup_lt_is_Some_2 (items pq) (Z.to_nat j)) as [b Hb]; [lia|].
  unfold Swap. rewrite (at_index_lookup pq i a), (at_index_lookup pq j b) by (done || lia).
  cbn [bind].
  set (l1 := <[Z.to_nat j:=a]> (<[Z.to_nat i:=b]> (items pq))).
  assert (length l1 = length (items pq)) as Hl1 by (unfold l1; by rewrite !length_insert).
  destruct (lookup_lt_is_Some_2 l1 (Z.to_nat i)) as [x Hx]; [lia|].
  destruct (lookup_lt_is_Some_2 l1 (Z.to_nat j)) as [y Hy]; [lia|].
  assert (∀ p, p ∈ l1 → is_Some (objects pq !! p)) as Hv1.
  { intros p Hp. apply Hv. by apply (exchange_elem_of _ _ _ _ _ p Ha Hb). }
  destruct (Hv1 x) as [ex Hex]; [by eapply list_elem_of_lookup_2|].
  rewrite (at_index_lookup _ i x) by (done || lia).
  cbn [bind]. unfold deref at 1. cbn [objects]. rewrite Hex. cbn [must bind].
  rewrite (at_index_lookup _ j y) by (done || lia). cbn [bind].
  unfold deref, store. cbn [objects].
  destruct (decide (x = y)) as [->|Hne].
  - rewrite lookup_insert_eq. cbn. by eexists.
  - rewrite lookup_insert_ne by done.
    destruct (Hv1 y) as [ey Hey]; [by eapply list_elem_of_lookup_2|].
    rewrite Hey. cbn. by eexists.
Qed.

Lemma heap_up_total fuel pq j :
  valid pq → 0 <= j < Len pq → (Z.to_nat j < fuel)%nat →
  ∃ pq', heap_up fuel pq j = Ok pq'.
Proof.
  revert pq j. induction fuel as [|fuel IH]; intros pq j Hv Hj Hfuel; [lia|].
  cbn [heap_up]. destruct (Z.eqb_spec (Z.quot (j - 1) 2) j) as [|Hne]; [by eexists|].
  assert (1 <= j) as Hj1.
  { destruct (decide (j = 0)) as [->|]; [done|lia]. }
  assert (0 <= Z.quot (j - 1) 2 < j) as Hi.
  { rewrite Z.quot_div_nonneg by lia. split; [apply Z.div_pos; lia|].
    apply Z.div_lt_upper_bound; lia. }
  destruct (Less_total pq j (Z.quot (j - 1) 2)) as [less ->]; [done|lia..|].
  cbn [bind]. destruct less; cbn [negb]; [|by eexists].
  destruct (Swap_total pq (Z.quot (j - 1) 2) j) as [pq1 Hsw]; [done|lia..|].
  rewrite Hsw. cbn [bind].
  apply Swap_Ok in Hsw as (_ & _ & Hlen & Hv1).
  apply IH; [by apply Hv1|unfold Len in *; lia|lia].
Qed.

Lemma heap_Push_Ok pq x pq' :
  heap_Push pq x = Ok pq' →
  (∀ p, schedule pq' p = schedule pq p) ∧
  (∀ p, p ∈ items pq' ↔ p ∈ items pq ∨ p = x) ∧
  (valid pq → valid pq') ∧
  length (items pq') = S (length (items pq)).
Proof.
  unfold heap_Push, Push. intros Hp.
  apply bind_Ok in Hp as (pq1 & Hpush & Hup).
  apply bind_Ok in Hpush as (e & He & Hpush). apply deref_Ok in He.
  injection Hpush as <-.
  apply heap_up_Ok in Hup as (Hs & Hi & Hl & Hv). split_and!.
  4:{ rewrite Hl. cbn [items store]. rewrite length_app. cbn [length]. lia. }
  - intros p. rewrite Hs. unfold schedule. cbn [objects store].
    destruct (decide (x = p)) as [->|Hne].
    + by rewrite lookup_insert_eq, He.
    + by rewrite lookup_insert_ne.
  - intros p. rewrite Hi. cbn [items store].
    rewrite elem_of_app, list_elem_of_singleton. done.
  - intros Hv0. apply Hv. intros p. cbn [items objects store].
    rewrite elem_of_app, list_elem_of_singleton.
    destruct (decide (x = p)) as [->|Hne].
    + rewrite lookup_insert_eq. by eexists.
    + rewrite lookup_insert_ne by done. intros [Hp|Hp]; [by apply Hv0|done].
Qed.

Lemma heap_Push_total pq x e :
  valid pq → objects pq !! x = Some e → ∃ pq', heap_Push pq x = Ok pq'.
Proof.
  intros Hv He. unfold heap_Push, Push, deref. rewrite He. cbn [must bind].
  apply heap_up_total.
  - intros p. cbn [items objects store].
    rewrite elem_of_app, list_elem_of_singleton.
    destruct (decide (x = p)) as [->|Hne].
    + rewrite lookup_insert_eq. by eexists.
    + rewrite lookup_insert_ne by done. intros [Hp|Hp]; [by apply Hv|done].
  - unfold Len. cbn [items store]. rewrite length_app. simpl. lia.
  - unfold fuel_for, Len. cbn [items store]. rewrite length_app. simpl. lia.
Qed.

(** [insert] for a key that has no entry: the entry is pushed and
    registered, and no panic occurs. *)
Lemma insert_new_key (q : waitForPriorityQueue (T:=T)) known entry e :
  valid q → objects q !! entry = Some e → known !! data e = None →
  ∃ q', insert q known entry = Ok (q', <[data e := entry]> known) ∧
        schedule q' entry = Some (data e, readyAt e) ∧
        entry ∈ items q' ∧
        (∀ p, schedule q' p = schedule q p) ∧
        (∀ p, p ∈ items q' ↔ p ∈ items q ∨ p = entry) ∧
        length (items q') = S (length (items q)) ∧
        valid q'.
Proof.
  intros Hv He Hk.
  destruct (heap_Push_total q entry e Hv He) as [q' Hq'].
  exists q'. unfold insert, deref. rewrite He. cbn [must bind]. rewrite Hk, Hq'.
  apply heap_Push_Ok in Hq' as (Hs & Hi & Hv' & Hl).
  split_and!; [done| |apply Hi; by right|done|done|done|by apply Hv'].
  rewrite Hs. unfold schedule. by rewrite He.
Qed.

(** [insert] for a key with an entry that is not later than the
    request: nothing changes. *)
Lemma insert_not_earlier (q : waitForPriorityQueue (T:=T)) known entry e existing ex :
  objects q !! entry = Some e → known !! data e = Some existing →
  objects q !! existing = Some ex → readyAt ex <= readyAt e →
  insert q known entry = Ok (q, known).
Proof.
  intros He Hk Hex Hle. unfold insert, deref.
  rewrite He. cbn [must bind]. rewrite Hk, Hex. cbn [must bind].
  destruct (Z.gtb_spec (readyAt ex) (readyAt e)); [lia|done].
Qed.

Lemma Swap_items pq i j pq' :
  Swap pq i j = Ok pq' →
  ∃ a b, items pq !! Z.to_nat i = Some a ∧ items pq !! Z.to_nat j = Some b ∧
         items pq' = <[Z.to_nat j := a]> (<[Z.to_nat i := b]> (items pq)).
Proof.
  unfold Swap. intros Hs.
  apply bind_Ok in Hs as (a & Ha & Hs). apply at_index_Ok in Ha as [Hi Ha].
  apply bind_Ok in Hs as (b & Hb & Hs). apply at_index_Ok in Hb as [Hj Hb].
  apply bind_Ok in Hs as (x & Hx & Hs).
  apply bind_Ok in Hs as (ex & Hex & Hs).
  apply bind_Ok in Hs as (y & Hy & Hs).
  apply bind_Ok in Hs as (ey & Hey & Hs).
  injection Hs as <-. by exists a, b.
Qed.

Lemma heap_down_total fuel pq i0 i n :
  valid pq → 0 <= i → n <= Len pq → (Z.to_nat (n - i) < fuel)%nat →
  ∃ r, heap_down fuel pq i0 i n = Ok r.
Proof.
  revert pq i. induction fuel as [|fuel IH]; intros pq i Hv Hi Hn Hfuel; [lia|].
  cbn [heap_down].
  destruct (Z.geb_spec (2 * i + 1) n) as [|Hj1]; cbn [orb]; [by eexists|].
  destruct (Z.ltb_spec (2 * i + 1) 0) as [|_]; [lia|].
  assert (∃ j, (if 2 * i + 1 + 1 <? n
                then less21 <- Less pq (2 * i + 1 + 1) (2 * i + 1) ;;
                     Ok (if less21 then 2 * i + 1 + 1 else 2 * i + 1)
                else Ok (2 * i + 1)) = Ok j ∧ i < j < n) as (j & -> & Hj).
  { destruct (Z.ltb_spec (2 * i + 1 + 1) n) as [Hj2|Hj2].
    - destruct (Less_total pq (2 * i + 1 + 1) (2 * i + 1)) as [b ->]; [done|lia..|].
      cbn [bind]. destruct b; eexists; (split; [done|lia]).
    - eexists. split; [done|lia]. }
  cbn [bind].
  destruct (Less_total pq j i) as [less ->]; [done|lia..|].
  cbn [bind]. destruct less; cbn [negb]; [|by eexists].
  destruct (Swap_total pq i j) as [pq1 Hsw]; [done|lia..|].
  rewrite Hsw. cbn [bind].
  apply Swap_Ok in Hsw as (_ & _ & Hlen & Hv1).
  apply IH; [by apply Hv1|lia|unfold Len in *; lia|lia].
Qed.

(** [down] with bound [n] leaves the slots from [n] on as they are. *)
Lemma heap_down_frame fuel pq i0 i n pq' moved (k : nat) :
  heap_down fuel pq i0 i n = Ok (pq', moved) → 0 <= i → (Z.to_nat n <= k)%nat →
  items pq' !! k = items pq !! k.
Proof.
  revert pq i. induction fuel as [|fuel IH]; intros pq i; [done|].
  cbn [heap_down].
  destruct (Z.geb_spec (2 * i + 1) n) as [|Hj1]; cbn [orb].
  { by intros [= <- _]. }
  destruct (Z.ltb_spec (2 * i + 1) 0) as [|_].
  { by intros [= <- _]. }
  intros Hd Hi Hk. apply bind_Ok in Hd as (j & Hj & Hd).
  assert (i < j < n) as Hjn.
  { destruct (Z.ltb_spec (2 * i + 1 + 1) n) as [Hj2|Hj2].
    - apply bind_Ok in Hj as (b & _ & Hj). injection Hj as <-. destruct b; lia.
    - injection Hj as <-. lia. }
  apply bind_Ok in Hd as (less & _ & Hd).
  destruct less; cbn [negb] in Hd; [|by injection Hd as <- _].
  apply bind_Ok in Hd as (pq1 & Hsw & Hd).
  rewrite (IH _ _ Hd) by lia.
  apply Swap_items in Hsw as (a & b & _ & _ & ->).
  rewrite !list_lookup_insert_ne by lia. done.
Qed.

Lemma heap_Fix_total pq i :
  valid pq → 0 <= i < Len pq → ∃ pq', heap_Fix pq i = Ok pq'.
Proof.
  intros Hv Hi. unfold heap_Fix.
  destruct (heap_down_total (fuel_for pq) pq i i (Len pq)) as [[pq1 moved] Hd];
    [done|lia|lia|unfold fuel_for, Len in *; lia|].
  rewrite Hd. cbn [bind fst snd].
  destruct moved; cbn [negb]; [by eexists|].
  apply heap_down_Ok in Hd as (_ & _ & Hlen & Hv1).
  apply heap_up_total; [by apply Hv1|unfold Len in *; lia|unfold fuel_for, Len in *; lia].
Qed.

(** [heap.Fix] at an index from the length of the queue on panics. *)
Lemma heap_Fix_out_of_range pq i :
  1 <= i → Len pq <= i → heap_Fix pq i = Panic.
Proof.
  intros Hi Hlen. unfold heap_Fix, fuel_for. cbn [heap_down].
  destruct (Z.geb_spec (2 * i + 1) (Len pq)) as [_|]; [|lia].
  cbn [orb bind fst snd negb heap_up].
  assert (Z.quot (i - 1) 2 < i) as Hq.
  { rewrite Z.quot_div_nonneg by lia. apply Z.div_lt_upper_bound; lia. }
  destruct (Z.eqb_spec (Z.quot (i - 1) 2) i) as [|_]; [lia|].
  destruct (Z.gtb_spec i i) as [|_]; [lia|]. cbn [negb].
  destruct (Z.eqb_spec (Z.quot (i - 1) 2) i) as [|_]; [lia|].
  unfold Less, at_index. destruct (Z.ltb_spec i 0) as [|_]; [lia|].
  rewrite lookup_ge_None_2 by (unfold Len in *; lia). done.
Qed.

(** X12.  [insert] for a key that has an entry, on a valid queue. A
    request that is not earlier than the entry changes nothing. An
    earlier request returns, with the entry at the time of the request
    and every other entry at the time it had, when the [index] of the
    entry is a position of the queue; and it panics when the [index] is
    the length of the queue or more. *)
Theorem insert_pending_key (pq : waitForPriorityQueue (T:=T)) known entry e existing ex :
  valid pq →
  objects pq !! entry = Some e → known !! data e = Some existing →
  objects pq !! existing = Some ex →
  (readyAt ex <= readyAt e → insert pq known entry = Ok (pq, known)) ∧
  (readyAt e < readyAt ex → 0 <= index ex < Len pq →
   ∃ pq', insert pq known entry = Ok (pq', known) ∧
          schedule pq' existing = Some (data ex, readyAt e) ∧
          (∀ p, p ≠ existing → schedule pq' p = schedule pq p) ∧
          (∀ p, p ∈ items pq' ↔ p ∈ items pq) ∧
          valid pq') ∧
  (readyAt e < readyAt ex → 1 <= index ex → Len pq <= index ex →
   insert pq known entry = Panic).
Proof.
  intros Hv He Hk Hex.
  split; [intros Hle; by apply (insert_not_earlier pq known entry e existing ex)|].
  set (pq1 := store existing (with_readyAt (readyAt e) ex) pq).
  assert (readyAt e < readyAt ex →
          insert pq known entry =
          (pq2 <- heap_Fix pq1 (index ex) ;; Ok (pq2, known))) as Hins.
  { intros Hlt. unfold insert, deref. rewrite He. cbn [must bind].
    rewrite Hk, Hex. cbn [must bind].
    destruct (Z.gtb_spec (readyAt ex) (readyAt e)); [|lia].
    cbn [objects store]. rewrite lookup_insert_eq. done. }
  assert (valid pq1) as Hv1 by (by apply store_index_valid).
  split.
  - intros Hlt Hi.
    destruct (heap_Fix_total pq1 (index ex) Hv1) as [pq2 Hfix]; [done|].
    exists pq2. rewrite Hins, Hfix by done. split; [done|].
    apply heap_Fix_Ok in Hfix as (Hs & Hitems & _ & Hv2). split_and!.
    + rewrite Hs. unfold schedule, pq1. cbn [objects store].
      by rewrite lookup_insert_eq.
    + intros p Hp. rewrite Hs. unfold schedule, pq1. cbn [objects store].
      by rewrite lookup_insert_ne.
    + done.
    + by apply Hv2.
  - intros Hlt Hi Hlen. rewrite Hins, heap_Fix_out_of_range by done. done.
Qed.

(** X13.  [insert] for a key that has no entry, on a valid queue: the
    call returns without a panic; the entry is in the queue, one entry
    longer than before, and registered for its key; it is scheduled as
    it was made, and every other entry keeps its key and its time. *)
Theorem insert_unseen (pq : waitForPriorityQueue (T:=T)) known entry e :
  valid pq → objects pq !! entry = Some e → known !! data e = None →
  ∃ pq', insert pq known entry = Ok (pq', <[data e := entry]> known) ∧
         schedule pq' entry = Some (data e, readyAt e) ∧
         (∀ p, schedule pq' p = schedule pq p) ∧
         (∀ p, p ∈ items pq' ↔ p ∈ items pq ∨ p = entry) ∧
         length (items pq') = S (length (items pq)) ∧
         valid pq'.
Proof.
  intros Hv He Hk.
  destruct (insert_new_key pq known entry e Hv He Hk)
    as (pq' & Hins & Hs & _ & Hall & Hi & Hl & Hv').
  exists pq'. by split_and!.
Qed.

Lemma heap_Pop_Ok pq :
  valid pq → 0 < Len pq →
  ∃ pq' p, heap_Pop pq = Ok (pq', p) ∧
    items pq !! 0%nat = Some p ∧
    (∀ x, schedule pq' x = schedule pq x) ∧
    (∀ x, x ∈ items pq' → x ∈ items pq) ∧
    length (items pq') = (length (items pq) - 1)%nat ∧
    valid pq'.
Proof.
  intros Hv Hlen. unfold heap_Pop.
  destruct (Swap_total pq 0 (Len pq - 1)) as [pq1 Hsw]; [done|lia..|].
  rewrite Hsw. cbn [bind].
  pose proof (Swap_items _ _ _ _ Hsw) as (a & b & Ha & Hb & Hitems).
  apply Swap_Ok in Hsw as (Hs1 & Hi1 & Hl1 & Hv1). specialize (Hv1 Hv).
  destruct (heap_down_total (fuel_for pq) pq1 0 0 (Len pq - 1)) as [[pq2 moved] Hd];
    [done|lia|unfold Len in *; lia|unfold fuel_for, Len in *; lia|].
  rewrite Hd. cbn [bind fst snd].
  pose proof (heap_down_frame _ _ _ _ _ _ _ (Z.to_nat (Len pq - 1)) Hd) as Hframe.
  apply heap_down_Ok in Hd as (Hs2 & Hi2 & Hl2 & Hv2). specialize (Hv2 Hv1).
  assert (items pq2 !! Z.to_nat (Len pq - 1) = Some a) as Hlast.
  { rewrite Hframe, Hitems by lia.
    apply list_lookup_insert_eq. rewrite length_insert. unfold Len in *. lia. }
  unfold Pop.
  assert (Len pq2 = Len pq) as -> by (unfold Len; lia).
  rewrite (at_index_lookup _ _ a) by (done || lia). cbn [bind].
  destruct (Hv2 a) as [ea Hea]; [by eapply list_elem_of_lookup_2|].
  unfold deref. rewrite Hea. cbn [must bind].
  exists {| objects := objects (store a (with_index (-1) ea) pq2);
            items := take (Z.to_nat (Len pq - 1)) (items (store a (with_index (-1) ea) pq2)) |}, a.
  split; [done|]. cbn [Z.to_nat] in Ha. split; [done|].
  assert (∀ x, x ∈ take (Z.to_nat (Len pq - 1)) (items pq2) → x ∈ items pq2) as Htake.
  { intros x Hx. rewrite <- (take_drop (Z.to_nat (Len pq - 1)) (items pq2)).
    apply elem_of_app. by left. }
  split_and!.
  - intros x. rewrite <- Hs1, <- Hs2.
    by apply (store_index_schedule pq2 a ea (-1) x).
  - intros x Hx. cbn [items store] in Hx. apply Hi1, Hi2. by apply Htake.
  - cbn [items store]. rewrite length_take. unfold Len. lia.
  - intros x Hx. cbn [items store objects] in *.
    apply (store_index_valid pq2 a (with_index (-1) ea) Hv2 x). cbn [items store].
    by apply Htake.
Qed.

Implicit Types (q : delayingType (T:=T)).

Lemma Add_pending (item k : T) (b : Queue.Type_ (T:=T)) :
  k ∈ Queue.queue (Queue.Add item b) → k ∈ Queue.queue b ∨ k = item.
Proof.
  unfold Queue.Add.
  destruct (Queue.shuttingDown b); [by left|].
  destruct (Queue.set_has _ _); [by left|].
  destruct (Queue.set_has _ _); cbn; [by left|].
  rewrite elem_of_app, list_elem_of_singleton. done.
Qed.

(** The loop "Add ready entries" on a queue with at most [fuel - 1]
    entries. *)
Lemma add_ready_Ok fuel now q :
  valid (waitingForQueue q) → (length (items (waitingForQueue q)) < fuel)%nat →
  ∃ q', add_ready fuel now q = Ok q' ∧
    (∀ k, k ∈ Queue.queue (Interface q') →
          k ∈ Queue.queue (Interface q) ∨
          ∃ p t, p ∈ items (waitingForQueue q) ∧
                 schedule (waitingForQueue q) p = Some (k, t) ∧ t <= now) ∧
    (∀ p, p ∈ items (waitingForQueue q') → p ∈ items (waitingForQueue q)) ∧
    (∀ p, schedule (waitingForQueue q') p = schedule (waitingForQueue q) p) ∧
    (∀ p, items (waitingForQueue q') !! 0%nat = Some p →
          ∃ k t, schedule (waitingForQueue q') p = Some (k, t) ∧ now < t) ∧
    clock q' = clock q ∧ waitingForAddCh q' = waitingForAddCh q ∧
    valid (waitingForQueue q') ∧
    (∀ k, waitingEntryByData q !! k = None → waitingEntryByData q' !! k = None).
Proof.
  revert q. induction fuel as [|fuel IH]; intros q Hv Hfuel; [lia|].
  cbn [add_ready].
  destruct (Z.gtb_spec (Len (waitingForQueue q)) 0) as [Hlen|Hlen].
  2:{ exists q. split; [done|]. split_and!; try done; [by left|].
      intros p Hp. apply lookup_lt_Some in Hp. unfold Len in Hlen. lia. }
  destruct (items (waitingForQueue q)) as [|p0 rest] eqn:Hitems.
  { unfold Len in Hlen. rewrite Hitems in Hlen. cbn in Hlen. lia. }
  unfold Peek. rewrite (at_index_lookup _ 0 p0) by (done || by rewrite Hitems).
  cbn [bind].
  destruct (Hv p0) as [e0 He0]; [rewrite Hitems; left|].
  assert (deref (waitingForQueue q) p0 = Ok e0) as ->
    by (unfold deref; by rewrite He0).
  cbn [bind].
  destruct (Z.gtb_spec (readyAt e0) now) as [Hlate|Hdue].
  { exists q. split; [done|]. rewrite Hitems. split_and!; try done; [by left|].
    intros p [= <-]. exists (data e0), (readyAt e0). unfold schedule.
    rewrite He0. split; [done|lia]. }
  destruct (heap_Pop_Ok (waitingForQueue q) Hv) as (pq' & p & -> & Hp & Hs & Hi & Hl & Hv');
    [lia|].
  rewrite Hitems in Hp. injection Hp as <-. cbn [bind fst snd].
  assert (schedule pq' p0 = Some (data e0, readyAt e0)) as Hs0.
  { rewrite Hs. unfold schedule. by rewrite He0. }
  unfold schedule in Hs0.
  destruct (objects pq' !! p0) as [e'|] eqn:He'; [|done].
  injection Hs0 as Hdata Hready.
  unfold deref. rewrite He'. cbn [must bind].
  edestruct (IH (with_waiting pq' (delete (data e')
      (waitingEntryByData (with_Interface (Queue.Add (data e') (Interface q)) q)))
      (with_Interface (Queue.Add (data e') (Interface q)) q)))
    as (q' & -> & Hq & Hi' & Hs' & Hroot & Hclock & Hch & Hvq' & Hknown).
  { done. }
  { cbn [waitingForQueue with_waiting]. rewrite Hl, Hitems in *. cbn [length] in *. lia. }
  exists q'. split; [done|]. cbn [waitingForQueue with_waiting Interface with_Interface
    clock waitingForAddCh] in *.
  split_and!; try done.
  - intros k Hk. destruct (Hq k Hk) as [Hk'|(p & t & Hp & Hsp & Ht)].
    + apply Add_pending in Hk' as [?| ->]; [by left|]. right.
      exists p0, (readyAt e0). rewrite Hdata. unfold schedule. rewrite He0.
      split_and!; [left|done|lia].
    + right. exists p, t. rewrite <- Hitems, <- Hs. auto.
  - intros p Hp. rewrite <- Hitems. auto.
  - intros p. by rewrite Hs', Hs.
  - intros k Hk. apply Hknown, lookup_delete_None. by right.
Qed.

(** X14.  The loop "Add ready entries" of [waitingLoop] on a valid
    queue, whatever its order: it ends without a panic; a key it hands
    to the wrapped queue is the key of a waiting entry whose time is not
    after [now]; the entries that stay keep their keys and their times;
    and the entry that is then first, if there is one, is later than
    [now]. *)
Theorem add_ready_admits_only_due now q :
  valid (waitingForQueue q) →
  ∃ q', add_ready (fuel_for (waitingForQueue q)) now q = Ok q' ∧
    (∀ k, k ∈ Queue.queue (Interface q') →
          k ∈ Queue.queue (Interface q) ∨
          ∃ p t, p ∈ items (waitingForQueue q) ∧
                 schedule (waitingForQueue q) p = Some (k, t) ∧ t <= now) ∧
    (∀ p, p ∈ items (waitingForQueue q') → p ∈ items (waitingForQueue q)) ∧
    (∀ p, schedule (waitingForQueue q') p = schedule (waitingForQueue q) p) ∧
    (∀ p, items (waitingForQueue q') !! 0%nat = Some p →
          ∃ k t, schedule (waitingForQueue q') p = Some (k, t) ∧ now < t) ∧
    valid (waitingForQueue q').
Proof.
  intros Hv.
  destruct (add_ready_Ok (fuel_for (waitingForQueue q)) now q Hv)
    as (q' & Hadd & Hq & Hi & Hs & Hroot & _ & _ & Hv' & _).
  { unfold fuel_for. lia. }
  exists q'. by split_and!.
Qed.

Lemma schedule_Some pq p k t :
  schedule pq p = Some (k, t) →
  ∃ e, objects pq !! p = Some e ∧ data e = k ∧ readyAt e = t.
Proof.
  unfold schedule. destruct (objects pq !! p) as [e|]; [|done].
  intros [= <- <-]. by exists e.
Qed.

Lemma valid_nil pq : items pq = [] → valid pq.
Proof. intros Hi p. rewrite Hi. by intros ?%elem_of_nil. Qed.

Lemma add_ready_empty fuel now q :
  items (waitingForQueue q) = [] → add_ready (S fuel) now q = Ok q.
Proof. intros Hi. cbn [add_ready]. unfold Len. by rewrite Hi. Qed.

Lemma add_ready_not_due fuel now q p e :
  items (waitingForQueue q) !! 0%nat = Some p →
  objects (waitingForQueue q) !! p = Some e → now < readyAt e →
  add_ready (S fuel) now q = Ok q.
Proof.
  intros Hp He Hlate. cbn [add_ready].
  destruct (Z.gtb_spec (Len (waitingForQueue q)) 0); [|done].
  unfold Peek. rewrite (at_index_lookup _ 0 p) by done. cbn [bind].
  unfold deref. rewrite He. cbn [must bind].
  destruct (Z.gtb_spec (readyAt e) now); [done|lia].
Qed.

Lemma add_ready_single fuel now q p e :
  items (waitingForQueue q) = [p] →
  objects (waitingForQueue q) !! p = Some e → readyAt e <= now →
  ∃ q', add_ready (S (S fuel)) now q = Ok q' ∧
        Interface q' = Queue.Add (data e) (Interface q) ∧
        items (waitingForQueue q') = [] ∧
        waitingEntryByData q' = delete (data e) (waitingEntryByData q) ∧
        waitingForAddCh q' = waitingForAddCh q.
Proof.
  intros Hi He Hdue. cbn [add_ready].
  assert (Len (waitingForQueue q) = 1) as Hlen by (unfold Len; by rewrite Hi).
  rewrite Hlen. change (1 >? 0) with true. cbn beta iota.
  unfold Peek. rewrite (at_index_lookup _ 0 p) by (done || by rewrite Hi).
  cbn [bind]. unfold deref at 1. rewrite He. cbn [must bind].
  destruct (Z.gtb_spec (readyAt e) now); [lia|].
  assert (valid (waitingForQueue q)) as Hv.
  { intros x. rewrite Hi. intros ->%list_elem_of_singleton. by eexists. }
  destruct (heap_Pop_Ok (waitingForQueue q) Hv) as (pq' & p' & -> & Hp & Hs & _ & Hl & _);
    [lia|].
  rewrite Hi in Hp, Hl. injection Hp as <-. cbn [length] in Hl.
  apply nil_length_inv in Hl. cbn [bind fst snd].
  destruct (schedule_Some pq' p (data e) (readyAt e)) as (e' & He' & Hd & _).
  { rewrite Hs. unfold schedule. by rewrite He. }
  unfold deref. rewrite He'. cbn [must bind]. rewrite Hd.
  unfold Len. cbn [waitingForQueue with_waiting]. rewrite Hl.
  change (Z.of_nat (length []) >? 0) with false. cbn beta iota.
  eexists. split; [done|]. done.
Qed.

(** *** The loop at one reading of the clock, and the choice of [AddAfter] *)

Lemma drain_nil ch q : drain [] ch q = receive_all ch q.
Proof.
  revert q. induction ch as [|waitEntry rest IH]; intros q; [done|].
  cbn [drain receive_all tl]. destruct (receive _ _); cbn [bind]; [apply IH|done..].
Qed.

(** [waitingLoop_iteration] is the two halves of the iteration with no
    time passing and no call arriving between them. *)
Lemma waitingLoop_iteration_one_reading w q :
  waitingLoop_iteration w q =
    (r <- waitingLoop_until_select q ;;
     if r.2 then waitingLoop_select [] w r.1 else Ok r).
Proof.
  unfold waitingLoop_iteration, waitingLoop_until_select, waitingLoop_select.
  destruct (Queue.ShuttingDown (Interface q)); [done|]. cbn zeta.
  destruct (add_ready _ _ _) as [q1| |]; cbn [bind fst snd]; [|done..].
  destruct w; try done.
  destruct (waitingForAddCh q1) as [|waitEntry rest]; [done|].
  cbn [receive_all]. destruct (receive _ _) as [q'| |]; cbn [bind]; [|done..].
  by rewrite drain_nil.
Qed.

(** The stop channel is closed only when the wrapped queue is shutting
    down. *)
Definition stopped_only_when_shut q : Prop :=
  stopCh_closed q = true → Queue.ShuttingDown (Interface q) = true.

(** Where the stop channel is closed only when the wrapped queue is
    shutting down, the [select] of [AddAfter] has no choice. *)
Lemma AddAfter_select_no_choice take_send (item : T) duration q :
  stopped_only_when_shut q →
  AddAfter_select take_send item duration q = AddAfter item duration q.
Proof.
  intros Hq. unfold AddAfter_select, AddAfter.
  destruct (Queue.ShuttingDown (Interface q)) eqn:Hs; [done|].
  destruct (duration <=? 0); [done|]. cbn zeta.
  destruct (stopCh_closed q) eqn:Hstop; [|done].
  specialize (Hq Hstop). congruence.
Qed.

Lemma AddAfter_select_stop (item : T) duration q :
  AddAfter_select false item duration q = AddAfter item duration q.
Proof.
  unfold AddAfter_select, AddAfter.
  destruct (Queue.ShuttingDown (Interface q)); [done|].
  destruct (duration <=? 0); [done|]. cbn zeta.
  destruct (stopCh_closed q); [|done]. by rewrite andb_false_r.
Qed.

Lemma Add_ShuttingDown (item : T) (b : Queue.Type_ (T:=T)) :
  Queue.ShuttingDown (Queue.Add item b) = Queue.ShuttingDown b.
Proof.
  unfold Queue.Add, Queue.ShuttingDown.
  destruct (Queue.shuttingDown b) eqn:Hs; [by rewrite Hs|].
  destruct (Queue.set_has _ _); [by rewrite Hs|].
  by destruct (Queue.set_has _ _).
Qed.

Lemma add_ready_stop fuel now q q' :
  add_ready fuel now q = Ok q' →
  stopCh_closed q' = stopCh_closed q ∧
  Queue.ShuttingDown (Interface q') = Queue.ShuttingDown (Interface q).
Proof.
  revert q. induction fuel as [|fuel IH]; intros q; [done|].
  cbn [add_ready]. destruct (_ >? _); [|by intros [= <-]].
  intros Hadd. apply bind_Ok in Hadd as (entry & _ & Hadd).
  apply bind_Ok in Hadd as (e & _ & Hadd).
  destruct (_ >? _); [by injection Hadd as <-|].
  apply bind_Ok in Hadd as (r & _ & Hadd).
  apply bind_Ok in Hadd as (e' & _ & Hadd).
  destruct (IH _ Hadd) as [-> ->].
  cbn [stopCh_closed Interface with_waiting with_Interface].
  by rewrite Add_ShuttingDown.
Qed.

Lemma receive_stop waitEntry q q' :
  receive waitEntry q = Ok q' →
  stopCh_closed q' = stopCh_closed q ∧
  Queue.ShuttingDown (Interface q') = Queue.ShuttingDown (Interface q).
Proof.
  unfold receive. intros Hr. apply bind_Ok in Hr as (e & _ & Hr).
  destruct (_ >? _).
  - apply bind_Ok in Hr as (r & _ & Hr). by injection Hr as <-.
  - injection Hr as <-. cbn [stopCh_closed Interface with_Interface].
    by rewrite Add_ShuttingDown.
Qed.

Lemma drain_stop later ch q q' :
  drain later ch q = Ok q' →
  stopCh_closed q' = stopCh_closed q ∧
  Queue.ShuttingDown (Interface q') = Queue.ShuttingDown (Interface q).
Proof.
  revert later q. induction ch as [|waitEntry rest IH]; intros later q.
  { by intros [= <-]. }
  cbn [drain]. intros Hd. apply bind_Ok in Hd as (q1 & Hr & Hd).
  destruct (IH _ _ Hd) as [-> ->]. destruct (receive_stop _ _ _ Hr) as [-> ->].
  by destruct later.
Qed.

(** Every step of the queue keeps the stop channel closed only when the
    wrapped queue is shutting down: so it is in every state that the
    steps reach from a new queue, and [AddAfter] loses none of the
    outcomes of its [select] there. *)
Lemma stopped_only_when_shut_new now :
  stopped_only_when_shut (newDelayingQueue (T:=T) now).
Proof. done. Qed.

Lemma stopped_only_when_shut_steps q :
  stopped_only_when_shut q →
  stopped_only_when_shut (ShutDown q) ∧
  (∀ d, stopped_only_when_shut (clock_step d q)) ∧
  (∀ take_send (item : T) duration q',
     AddAfter_select take_send item duration q = Some q' →
     stopped_only_when_shut q') ∧
  (∀ q' go, waitingLoop_until_select q = Ok (q', go) → stopped_only_when_shut q') ∧
  (∀ later w q' go,
     waitingLoop_select later w q = Ok (q', go) → stopped_only_when_shut q').
Proof.
  intros Hq. split_and!.
  - unfold ShutDown, stopped_only_when_shut.
    destruct (stopOnce_done q); [done|]. done.
  - done.
  - intros take_send item duration q'. unfold AddAfter_select.
    destruct (Queue.ShuttingDown (Interface q)) eqn:Hs; [by intros [= <-]|].
    destruct (duration <=? 0).
    { intros [= <-]. unfold stopped_only_when_shut in *.
      cbn [stopCh_closed Interface with_Interface]. rewrite Add_ShuttingDown. done. }
    cbn zeta. destruct (stopCh_closed q) eqn:Hstop.
    { specialize (Hq Hstop). congruence. }
    destruct (_ <? _)%nat; [|done]. intros [= <-].
    unfold stopped_only_when_shut. cbn. by rewrite Hstop.
  - intros q' go. unfold waitingLoop_until_select.
    destruct (Queue.ShuttingDown (Interface q)) eqn:Hs; [by intros [= <- _]|].
    cbn zeta. intros Hu. apply bind_Ok in Hu as (q1 & Hadd & Hu). injection Hu as <- _.
    destruct (add_ready_stop _ _ _ _ Hadd) as [Hst Hsd].
    unfold stopped_only_when_shut. by rewrite Hst, Hsd.
  - intros later w q' go. unfold waitingLoop_select.
    destruct w; try by intros [= <- _].
    destruct (waitingForAddCh q) as [|waitEntry rest]; [by intros [= <- _]|].
    intros Hs. apply bind_Ok in Hs as (q1 & Hr & Hs).
    apply bind_Ok in Hs as (q2 & Hd & Hs). injection Hs as <- _.
    destruct (drain_stop _ _ _ _ Hd) as [Hst Hsd].
    destruct (receive_stop _ _ _ Hr) as [Hst1 Hsd1].
    unfold stopped_only_when_shut. rewrite Hst, Hsd, Hst1, Hsd1. done.
Qed.

(** *** A delayed key, with the clock moving *)

(** What the receive of a request for the key [k] at the time [t] has
    made of the state [before]: the channel is empty; if the clock shows
    less than [t], the wrapped queue is as before, the waiting queue is
    one entry longer and holds an entry for [k] at [t] that is
    registered for [k], and every entry has the key and the time it had;
    if the clock shows [t] or more, Add has been called for [k] on the
    wrapped queue, and the waiting queue and the registered entries are
    as before. *)
Definition received (k : T) (t : Z) (before q2 : delayingType (T:=T)) : Prop :=
  waitingForAddCh q2 = [] ∧
  (clock q2 < t →
     Interface q2 = Interface before ∧
     valid (waitingForQueue q2) ∧
     length (items (waitingForQueue q2)) = S (length (items (waitingForQueue before))) ∧
     (∀ x, schedule (waitingForQueue q2) x = schedule (waitingForQueue before) x) ∧
     ∃ p, p ∈ items (waitingForQueue q2) ∧
          schedule (waitingForQueue q2) p = Some (k, t) ∧
          waitingEntryByData q2 !! k = Some p) ∧
  (t <= clock q2 →
     Interface q2 = Queue.Add k (Interface before) ∧
     waitingForQueue q2 = waitingForQueue before ∧
     waitingEntryByData q2 = waitingEntryByData before).

(** The [select] that receives the only request of the channel, for a
    key without an entry. *)
Lemma select_receives later s q' p (k : T) t :
  valid (waitingForQueue q') → waitingForAddCh q' = [p] →
  schedule (waitingForQueue q') p = Some (k, t) →
  waitingEntryByData q' !! k = None →
  ∃ q2, waitingLoop_select later WReceive (clock_step s q') = Ok (q2, true) ∧
        clock q2 = clock q' + s ∧ received k t q' q2.
Proof.
  intros Hv Hch Hsp Hk.
  destruct (schedule_Some _ _ _ _ Hsp) as (e & He & Hdata & Hready).
  unfold waitingLoop_select.
  change (waitingForAddCh (clock_step s q')) with (waitingForAddCh q').
  rewrite Hch. unfold receive.
  cbn [waitingForQueue waitingEntryByData with_channel clock_step clock Interface].
  unfold deref. rewrite He. cbn [must bind].
  destruct (Z.gtb_spec (readyAt e) (clock q' + s)) as [Hlate|Hdue].
  - destruct (insert_new_key (waitingForQueue q') (waitingEntryByData q') p e)
      as (pq2 & Hins & Hs2 & Hin & Hsall & _ & Hl2 & Hv2); [done|done| |].
    { by rewrite Hdata. }
    rewrite Hins. cbn [bind fst snd drain]. eexists. split; [done|].
    split; [done|]. unfold received.
    cbn [clock Interface waitingEntryByData waitingForQueue waitingForAddCh
         with_waiting with_channel clock_step].
    split_and!; try done; [|intros Hle; lia].
    intros _. split_and!; try done.
    exists p. split_and!; [done|by rewrite Hs2, Hdata, Hready
                          |by rewrite Hdata, lookup_insert_eq].
  - cbn [bind drain]. eexists. split; [done|]. split; [done|]. unfold received.
    cbn [clock Interface waitingEntryByData waitingForQueue waitingForAddCh
         with_Interface with_channel clock_step].
    split_and!; try done; [intros Hlt; lia|].
    intros _. by rewrite Hdata.
Qed.

(** [AddAfter] with a positive delay on a queue that is not shut down
    and has an empty channel. *)
Lemma AddAfter_sends q (k : T) d :
  valid (waitingForQueue q) →
  Queue.ShuttingDown (Interface q) = false → stopCh_closed q = false →
  waitingForAddCh q = [] → 0 < d →
  ∃ q1 p,
    AddAfter k d q = Some q1 ∧ Interface q1 = Interface q ∧
    clock q1 = clock q ∧ stopCh_closed q1 = false ∧
    waitingEntryByData q1 = waitingEntryByData q ∧
    items (waitingForQueue q1) = items (waitingForQueue q) ∧
    valid (waitingForQueue q1) ∧ waitingForAddCh q1 = [p] ∧
    schedule (waitingForQueue q1) p = Some (k, clock q + d).
Proof.
  intros Hv Hsd Hstop Hch Hd.
  set (p := fresh (dom (objects (waitingForQueue q)))).
  set (e0 := {| data := k; readyAt := clock q + d; index := 0 |}).
  exists (with_channel [p]
            (with_waiting (store p e0 (waitingForQueue q)) (waitingEntryByData q) q)), p.
  split_and!; try done.
  - unfold AddAfter. rewrite Hsd. destruct (Z.leb_spec d 0); [lia|].
    rewrite Hstop, Hch. cbn [length]. change ((0 <? 1000)%nat) with true.
    cbn [new_waitFor fst snd waitingForAddCh with_waiting]. rewrite Hch. done.
  - by apply store_index_valid.
  - unfold schedule. cbn [waitingForQueue with_channel with_waiting objects store].
    by rewrite lookup_insert_eq.
Qed.

(** The pass of the loop to the [select], on a queue that is not shut
    down: what it keeps. *)
Lemma waitingLoop_until_select_Ok q :
  valid (waitingForQueue q) → Queue.ShuttingDown (Interface q) = false →
  ∃ q', waitingLoop_until_select q = Ok (q', true) ∧
        add_ready (fuel_for (waitingForQueue q)) (clock q) q = Ok q' ∧
        valid (waitingForQueue q') ∧ clock q' = clock q ∧
        waitingForAddCh q' = waitingForAddCh q ∧
        (∀ x, schedule (waitingForQueue q') x = schedule (waitingForQueue q) x) ∧
        (∀ k, waitingEntryByData q !! k = None → waitingEntryByData q' !! k = None).
Proof.
  intros Hv Hsd.
  destruct (add_ready_Ok (fuel_for (waitingForQueue q)) (clock q) q Hv)
    as (q' & Hadd & _ & _ & Hs' & _ & Hclock & Hch' & Hv' & Hknown).
  { unfold fuel_for. lia. }
  exists q'. unfold waitingLoop_until_select. rewrite Hsd. cbn zeta. rewrite Hadd.
  by split_and!.
Qed.

(** X15.  On a queue that is not shut down, with a valid waiting queue
    and an empty channel, a key without an entry is given to [AddAfter]
    with a positive delay [d].  [AddAfter] itself leaves the wrapped
    queue as it is.  Whether the [select] of the loop, blocked since
    before the call, receives the request [s] after the call, or the
    loop begins a pass [s0] after the call and its [select] receives the
    request [s1] after that: if less than [d] has passed at the receive,
    the loop schedules the key for the time of the call plus [d] and
    registers the entry for the key, every entry keeps its key and time,
    and the receive leaves the wrapped queue as it is; if [d] or more
    has passed, the receive calls Add for the key on the wrapped queue
    at once and schedules nothing. *)
Theorem AddAfter_then_loop_schedules q (k : T) d :
  valid (waitingForQueue q) →
  Queue.ShuttingDown (Interface q) = false → stopCh_closed q = false →
  waitingForAddCh q = [] → waitingEntryByData q !! k = None → 0 < d →
  ∃ q1,
    AddAfter k d q = Some q1 ∧ Interface q1 = Interface q ∧
    (∀ s later,
       ∃ q2, waitingLoop_select later WReceive (clock_step s q1) = Ok (q2, true) ∧
             clock q2 = clock q + s ∧
             received k (clock q + d) q1 q2) ∧
    (∀ s0 s1 later,
       ∃ q1' q2,
         waitingLoop_until_select (clock_step s0 q1) = Ok (q1', true) ∧
         waitingLoop_select later WReceive (clock_step s1 q1') = Ok (q2, true) ∧
         clock q2 = clock q + s0 + s1 ∧
         received k (clock q + d) q1' q2).
Proof.
  intros Hv Hsd Hstop Hch Hk Hd.
  destruct (AddAfter_sends q k d Hv Hsd Hstop Hch Hd)
    as (q1 & p & HA & HI & Hc1 & _ & Hk1 & _ & Hv1 & Hch1 & Hsp).
  exists q1. split_and!; try done.
  - intros s later.
    destruct (select_receives later s q1 p k (clock q + d))
      as (q2 & HS & Hc2 & Hrec); [done|done|done|by rewrite Hk1|].
    exists q2. split_and!; [done|by rewrite Hc2, Hc1|done].
  - intros s0 s1 later.
    destruct (waitingLoop_until_select_Ok (clock_step s0 q1))
      as (q1' & HU & _ & Hv' & Hc' & Hch' & Hs' & Hknown); [done|by rewrite <- HI in Hsd|].
    destruct (select_receives later s1 q1' p k (clock q + d))
      as (q2 & HS & Hc2 & Hrec); [done|by rewrite Hch'|by rewrite Hs'| |].
    { apply Hknown. by rewrite <- Hk1 in Hk. }
    exists q1', q2. split_and!; [done|done| |done].
    rewrite Hc2, Hc'. cbn [clock clock_step]. by rewrite Hc1.
Qed.

(** X16.  On a queue that is not shut down, with nothing waiting and an
    empty channel, a key without an entry is given to [AddAfter] with a
    positive delay [d]; the loop begins a pass [s0] later and its
    [select] receives the request [s1] after that.  The pass changes
    nothing but what the clock shows.  The receive calls Add for the key
    on the wrapped queue if [d <= s0 + s1] and leaves the wrapped queue
    as it is otherwise; in that case a pass of the loop begun [t] after
    the receive calls Add for the key if [d <= s0 + s1 + t], and
    otherwise changes nothing; and the [select] after that pass,
    whatever wakes it, changes nothing. *)
Theorem delayed_key_is_added_when_due q (k : T) d s0 s1 later :
  items (waitingForQueue q) = [] →
  Queue.ShuttingDown (Interface q) = false → stopCh_closed q = false →
  waitingForAddCh q = [] → waitingEntryByData q !! k = None → 0 < d →
  ∃ q1 q2,
    AddAfter k d q = Some q1 ∧
    waitingLoop_until_select (clock_step s0 q1) = Ok (clock_step s0 q1, true) ∧
    waitingLoop_select later WReceive (clock_step s1 (clock_step s0 q1))
      = Ok (q2, true) ∧
    Interface q2 = (if d <=? s0 + s1 then Queue.Add k (Interface q) else Interface q) ∧
    (s0 + s1 < d →
     ∀ t, ∃ q3,
       waitingLoop_until_select (clock_step t q2) = Ok (q3, true) ∧
       Interface q3 =
         (if d <=? s0 + s1 + t then Queue.Add k (Interface q) else Interface q) ∧
       (s0 + s1 + t < d → q3 = clock_step t q2) ∧
       ∀ later' w,
         waitingLoop_select later' w q3 =
           Ok (q3, match w with WStop => false | _ => true end)).
Proof.
  intros Hi Hsd Hstop Hch Hk Hd.
  destruct (AddAfter_sends q k d (valid_nil _ Hi) Hsd Hstop Hch Hd)
    as (q1 & p & HA & HI & Hc1 & _ & Hk1 & Hi1 & Hv1 & Hch1 & Hsp).
  assert (waitingLoop_until_select (clock_step s0 q1) = Ok (clock_step s0 q1, true))
    as HU.
  { unfold waitingLoop_until_select.
    change (Interface (clock_step s0 q1)) with (Interface q1). rewrite HI, Hsd.
    cbn zeta. unfold fuel_for. rewrite add_ready_empty; [done|].
    change (items (waitingForQueue q1) = []). by rewrite Hi1, Hi. }
  destruct (select_receives later s1 (clock_step s0 q1) p k (clock q + d))
    as (q2 & HS & Hc2 & Hch2 & Hlate & Hdue); [done|done|done| |].
  { change (waitingEntryByData q1 !! k = None). by rewrite Hk1. }
  change (clock (clock_step s0 q1)) with (clock q1 + s0) in Hc2. rewrite Hc1 in Hc2.
  change (Interface (clock_step s0 q1)) with (Interface q1) in Hlate, Hdue.
  change (waitingForQueue (clock_step s0 q1)) with (waitingForQueue q1) in Hlate.
  rewrite HI in Hlate, Hdue.
  exists q1, q2. split_and!; try done.
  { destruct (Z.leb_spec d (s0 + s1)) as [Hle|Hlt].
    - by destruct Hdue as (-> & _); [lia|].
    - by destruct Hlate as (-> & _); [lia|]. }
  intros Hlt t.
  destruct Hlate as (HI2 & _ & Hl & _ & p' & Hp & Hsp' & _); [lia|].
  rewrite Hi1, Hi in Hl. cbn [length] in Hl.
  assert (items (waitingForQueue q2) = [p']) as Hi2.
  { destruct (items (waitingForQueue q2)) as [|p'' [|??]]; try done.
    by apply list_elem_of_singleton in Hp as ->. }
  destruct (schedule_Some _ _ _ _ Hsp') as (e & He & Hdata & Hready).
  assert (∀ q3, waitingForAddCh q3 = [] → ∀ later' w,
            waitingLoop_select later' w q3 =
              Ok (q3, match w with WStop => false | _ => true end)) as Hsel.
  { intros q3 Hch3 later' w. unfold waitingLoop_select. rewrite Hch3. by destruct w. }
  unfold waitingLoop_until_select.
  change (Interface (clock_step t q2)) with (Interface q2).
  rewrite HI2, Hsd. cbn zeta.
  change (clock (clock_step t q2)) with (clock q2 + t). rewrite Hc2.
  change (waitingForQueue (clock_step t q2)) with (waitingForQueue q2).
  unfold fuel_for. rewrite Hi2. cbn [length].
  destruct (Z.leb_spec d (s0 + s1 + t)) as [Hdue'|Hlate'].
  - destruct (add_ready_single 0 (clock q + s0 + s1 + t) (clock_step t q2) p' e)
      as (q3 & -> & HI3 & _ & _ & Hch3); [done|done|lia|].
    cbn [bind]. exists q3. split_and!; [done| |lia|].
    + rewrite HI3, Hdata.
      change (Interface (clock_step t q2)) with (Interface q2). by rewrite HI2.
    + apply Hsel. by rewrite Hch3.
  - rewrite (add_ready_not_due 1 (clock q + s0 + s1 + t) (clock_step t q2) p' e);
      [|change (items (waitingForQueue q2) !! 0%nat = Some p'); by rewrite Hi2
       |done|lia].
    cbn [bind]. exists (clock_step t q2). split_and!; [done| |done|].
    + change (Interface (clock_step t q2)) with (Interface q2). by rewrite HI2.
    + by apply Hsel.
Qed.

(** X17.  After [ShutDown], the first one: a later [AddAfter] adds
    nothing, whatever the delay, and the loop returns at its next
    iteration without handing any waiting entry to the wrapped queue,
    due or not. *)
Theorem ShutDown_drops_delayed q (k : T) d w :
  stopOnce_done q = false →
  AddAfter k d (ShutDown q) = Some (ShutDown q) ∧
  waitingLoop_iteration w (ShutDown q) = Ok (ShutDown q, false) ∧
  Queue.queue (Interface (ShutDown q)) = Queue.queue (Interface q) ∧
  ShutDown (ShutDown q) = ShutDown q.
Proof.
  intros Hs.
  assert (ShutDown q =
    {| Interface := Queue.ShutDown (Interface q); clock := clock q;
       stopOnce_done := true; stopCh_closed := true; heartbeat_stopped := true;
       waitingForAddCh := waitingForAddCh q; waitingForQueue := waitingForQueue q;
       waitingEntryByData := waitingEntryByData q |}) as ->
    by (unfold ShutDown; by rewrite Hs).
  split_and!; reflexivity.
Qed.

End delaying_properties.

(** ** The delaying queue: the order of the heap *)

(** Linear arithmetic with division by two. *)
Ltac div_lia := Z.to_euclidean_division_equations; lia.

Section heap_order.

(** The order of a binary heap over the times [t] of the positions:
    below [n], no position is earlier than its parent. *)
Definition ordered_below (t : Z → Z) (n : Z) : Prop :=
  ∀ k, 0 < k < n → t ((k - 1) / 2) <= t k.

(** The invariant of [up] at position [j]: the order holds except
    between [j] and its parent, and the children of [j] are not earlier
    than the parent of [j]. *)
Definition up_inv (t : Z → Z) (j n : Z) : Prop :=
  (∀ k, 0 < k < n → k ≠ j → t ((k - 1) / 2) <= t k) ∧
  (∀ k, 0 < k < n → (k - 1) / 2 = j → 0 < j → t ((j - 1) / 2) <= t k).

(** The invariant of [down] at position [i]: the order holds except
    between [i] and its children, and the children of [i] are not
    earlier than the parent of [i]. *)
Definition down_inv (t : Z → Z) (i n : Z) : Prop :=
  (∀ k, 0 < k < n → (k - 1) / 2 ≠ i → t ((k - 1) / 2) <= t k) ∧
  (∀ k, 0 < k < n → (k - 1) / 2 = i → 0 < i → t ((i - 1) / 2) <= t k).

(** The times after the entries at [i] and [j] have changed places. *)
Definition exchange (i j : Z) (t : Z → Z) : Z → Z :=
  λ k, if k =? i then t j else if k =? j then t i else t k.

Lemma ordered_below_ext t t' n :
  (∀ k, 0 <= k < n → t' k = t k) → ordered_below t n → ordered_below t' n.
Proof.
  intros Hext Ho k Hk. rewrite !Hext by div_lia. by apply Ho.
Qed.

Lemma up_inv_ext t t' j n :
  (∀ k, 0 <= k < n → t' k = t k) → j < n → up_inv t j n → up_inv t' j n.
Proof.
  intros Hext Hj [H1 H2]. split.
  - intros k Hk Hne. rewrite !Hext by div_lia. by apply H1.
  - intros k Hk Hp Hj0. rewrite !Hext by div_lia. by apply H2.
Qed.

Lemma down_inv_ext t t' i n :
  (∀ k, 0 <= k < n → t' k = t k) → down_inv t i n → down_inv t' i n.
Proof.
  intros Hext [H1 H2]. split.
  - intros k Hk Hne. rewrite !Hext by div_lia. by apply H1.
  - intros k Hk Hp Hi0. rewrite !Hext by div_lia. by apply H2.
Qed.

Lemma up_inv_root t n : up_inv t 0 n → ordered_below t n.
Proof. intros [H1 _] k Hk. apply H1; lia. Qed.

Lemma up_inv_done t j n :
  t ((j - 1) / 2) <= t j → up_inv t j n → ordered_below t n.
Proof.
  intros Hle [H1 _] k Hk. destruct (decide (k = j)) as [->|Hne]; [done|].
  by apply H1.
Qed.

Lemma up_inv_step t j n :
  1 <= j < n → t j < t ((j - 1) / 2) → up_inv t j n →
  up_inv (exchange ((j - 1) / 2) j t) ((j - 1) / 2) n.
Proof.
  intros Hj Hlt [H1 H2]. set (i := (j - 1) / 2) in *.
  assert (0 <= i < j) as Hi by (unfold i; div_lia).
  unfold exchange. split.
  - intros k Hk Hne.
    destruct (Z.eqb_spec k i) as [|_]; [done|].
    destruct (Z.eqb_spec k j) as [->|Hkj].
    + fold i. destruct (Z.eqb_spec i i); [lia|done].
    + destruct (Z.eqb_spec ((k - 1) / 2) i) as [Hpi|Hpi].
      * pose proof (H1 k Hk Hkj) as Hk1. rewrite Hpi in Hk1. lia.
      * destruct (Z.eqb_spec ((k - 1) / 2) j) as [Hpj|Hpj].
        -- apply (H2 k Hk Hpj). lia.
        -- by apply H1.
  - intros k Hk Hp Hi0.
    assert ((i - 1) / 2 < i) as Hg by div_lia.
    destruct (Z.eqb_spec ((i - 1) / 2) i) as [|_]; [lia|].
    destruct (Z.eqb_spec ((i - 1) / 2) j) as [|_]; [lia|].
    destruct (Z.eqb_spec k i) as [|Hki]; [subst k; div_lia|].
    assert (t ((i - 1) / 2) <= t i) as Hgi by (apply H1; lia).
    destruct (Z.eqb_spec k j) as [->|Hkj]; [done|].
    pose proof (H1 k Hk Hkj) as Hk1. rewrite Hp in Hk1. lia.
Qed.

Lemma down_inv_leaf t i n :
  0 <= i → n <= 2 * i + 1 → down_inv t i n → ordered_below t n.
Proof.
  intros Hi Hn [H1 _] k Hk. apply H1; [done|]. div_lia.
Qed.

Lemma down_inv_done t i n :
  0 <= i →
  (∀ c, c = 2 * i + 1 ∨ c = 2 * i + 2 → c < n → t i <= t c) →
  down_inv t i n → ordered_below t n.
Proof.
  intros Hi Hc [H1 _] k Hk.
  destruct (decide ((k - 1) / 2 = i)) as [Hp|Hp]; [|by apply H1].
  rewrite Hp. apply Hc; [div_lia|lia].
Qed.

Lemma down_inv_step t i j n :
  0 <= i → j = 2 * i + 1 ∨ j = 2 * i + 2 → j < n → t j < t i →
  (∀ c, c = 2 * i + 1 ∨ c = 2 * i + 2 → c < n → t j <= t c) →
  down_inv t i n → down_inv (exchange i j t) j n.
Proof.
  intros Hi Hj Hjn Hlt Hmin [H1 H2].
  assert ((j - 1) / 2 = i) as Hpj by div_lia.
  assert (i < j) as Hij by lia.
  unfold exchange. split.
  - intros k Hk Hne.
    destruct (Z.eqb_spec ((k - 1) / 2) i) as [Hpi|Hpi].
    + (* a child of [i] *)
      destruct (Z.eqb_spec k i) as [|_]; [div_lia|].
      destruct (Z.eqb_spec k j) as [|Hkj]; [lia|].
      apply Hmin; [div_lia|lia].
    + destruct (Z.eqb_spec ((k - 1) / 2) j) as [|_]; [done|].
      destruct (Z.eqb_spec k j) as [|Hkj]; [subst k; lia|].
      destruct (Z.eqb_spec k i) as [->|Hki].
      * apply (H2 j); [lia|done|lia].
      * by apply H1.
  - intros k Hk Hp _. rewrite Hpj.
    destruct (Z.eqb_spec i i) as [_|]; [|lia].
    destruct (Z.eqb_spec k i) as [|_]; [div_lia|].
    destruct (Z.eqb_spec k j) as [|_]; [div_lia|].
    pose proof (H1 k Hk) as Hk1. rewrite Hp in Hk1. apply Hk1. lia.
Qed.

(** In a heap the first entry is the earliest. *)
Lemma ordered_below_root t n k :
  ordered_below t n → 0 <= k < n → t 0 <= t k.
Proof.
  intros Ho. revert k.
  assert (∀ m : nat, ∀ k, 0 <= k < n → k <= Z.of_nat m → t 0 <= t k) as Hind.
  { induction m as [|m IH]; intros k Hk Hm.
    - assert (k = 0) as -> by lia. lia.
    - destruct (decide (k = 0)) as [->|Hk0]; [lia|].
      pose proof (Ho k ltac:(lia)) as Hpk.
      assert (t 0 <= t ((k - 1) / 2)); [|lia].
      apply IH; div_lia. }
  intros k Hk. apply (Hind (Z.to_nat k)); lia.
Qed.

End heap_order.

Section heap_order_of_the_queue.

Import Delaying.

Context {T : Type} `{Countable T}.

Implicit Types (pq : waitForPriorityQueue (T:=T)) (p x : ptr) (e : waitFor (T:=T))
  (i j k n : Z).

(** The time of the entry at position [k]. *)
Definition time_at pq k : Z :=
  default 0 (items pq !! Z.to_nat k ≫= λ p, snd <$> schedule pq p).

(** The queue is a heap: no entry is earlier than its parent. *)
Definition heap_ordered pq : Prop := ordered_below (time_at pq) (Len pq).

Lemma time_at_lookup pq k p e :
  items pq !! Z.to_nat k = Some p → objects pq !! p = Some e →
  time_at pq k = readyAt e.
Proof.
  intros Hp He. unfold time_at, schedule. rewrite Hp. simpl. by rewrite He.
Qed.

Lemma time_at_ext pq pq' k :
  items pq' !! Z.to_nat k = items pq !! Z.to_nat k →
  (∀ p, schedule pq' p = schedule pq p) →
  time_at pq' k = time_at pq k.
Proof.
  intros Hi Hs. unfold time_at. rewrite Hi.
  destruct (items pq !! Z.to_nat k) as [p|]; simpl; [|done]. by rewrite Hs.
Qed.

Lemma Less_time pq i j b :
  Less pq i j = Ok b → b = (time_at pq i <? time_at pq j).
Proof.
  unfold Less. intros HL.
  apply bind_Ok in HL as (a & Ha & HL). apply at_index_Ok in Ha as [_ Ha].
  apply bind_Ok in HL as (ea & Hea & HL). apply deref_Ok in Hea.
  apply bind_Ok in HL as (c & Hc & HL). apply at_index_Ok in Hc as [_ Hc].
  apply bind_Ok in HL as (ec & Hec & HL). apply deref_Ok in Hec.
  injection HL as <-.
  by rewrite (time_at_lookup pq i a ea), (time_at_lookup pq j c ec).
Qed.

Lemma Swap_time pq i j pq' k :
  Swap pq i j = Ok pq' → 0 <= k →
  time_at pq' k = exchange i j (time_at pq) k.
Proof.
  intros Hsw Hk.
  assert (0 <= i ∧ 0 <= j) as [Hi Hj].
  { unfold Swap in Hsw.
    apply bind_Ok in Hsw as (a & Ha & Hsw). apply at_index_Ok in Ha as [? _].
    apply bind_Ok in Hsw as (b & Hb & _). apply at_index_Ok in Hb as [? _]. done. }
  pose proof (Swap_items _ _ _ _ Hsw) as (a & b & Ha & Hb & Hitems).
  apply Swap_Ok in Hsw as (Hs & _ & _ & _).
  pose proof (lookup_lt_Some _ _ _ Ha) as Hla.
  pose proof (lookup_lt_Some _ _ _ Hb) as Hlb.
  assert (items pq' !! Z.to_nat k =
          items pq !! Z.to_nat (if k =? i then j else if k =? j then i else k)) as Hl.
  { rewrite Hitems. destruct (Z.eqb_spec k i) as [->|Hki].
    - destruct (decide (i = j)) as [->|Hne].
      + rewrite list_lookup_insert_eq by (rewrite length_insert; lia).
        rewrite Hb in Ha. injection Ha as ->. by rewrite Hb.
      + rewrite list_lookup_insert_ne by lia.
        rewrite list_lookup_insert_eq by lia. by rewrite Hb.
    - destruct (Z.eqb_spec k j) as [->|Hkj].
      + rewrite list_lookup_insert_eq by (rewrite length_insert; lia). by rewrite Ha.
      + by rewrite !list_lookup_insert_ne by lia. }
  unfold exchange, time_at. rewrite Hl.
  assert (∀ m : nat, default 0 (items pq !! m ≫= λ p, snd <$> schedule pq' p) =
                     default 0 (items pq !! m ≫= λ p, snd <$> schedule pq p)) as Hsame.
  { intros m. destruct (items pq !! m); simpl; [|done]. by rewrite Hs. }
  rewrite Hsame. by destruct (k =? i), (k =? j).
Qed.

(** [up] restores the order of the heap. *)
Lemma heap_up_ordered fuel pq j pq' :
  heap_up fuel pq j = Ok pq' → 0 <= j < Len pq →
  up_inv (time_at pq) j (Len pq) → heap_ordered pq'.
Proof.
  revert pq j. induction fuel as [|fuel IH]; intros pq j; [done|].
  cbn [heap_up]. intros Hup Hj Hinv.
  destruct (Z.eqb_spec (Z.quot (j - 1) 2) j) as [Hq|Hq].
  { injection Hup as <-. assert (j = 0) as -> by div_lia. by apply up_inv_root. }
  assert (1 <= j) as Hj1.
  { destruct (decide (j = 0)) as [->|]; [done|lia]. }
  assert (Z.quot (j - 1) 2 = (j - 1) / 2) as Hpar by div_lia.
  rewrite Hpar in *. clear Hpar.
  apply bind_Ok in Hup as (less & HL & Hup). apply Less_time in HL.
  destruct less; cbn [negb] in Hup.
  - apply bind_Ok in Hup as (pq1 & Hsw & Hup).
    symmetry in HL. apply Z.ltb_lt in HL.
    pose proof (Swap_Ok _ _ _ _ Hsw) as (_ & _ & Hlen & _).
    assert (Len pq1 = Len pq) as HLen by (unfold Len; lia).
    apply (IH _ _ Hup); [rewrite HLen; div_lia|]. rewrite HLen.
    apply (up_inv_ext (exchange ((j - 1) / 2) j (time_at pq))); [|div_lia|].
    + intros k Hk. apply (Swap_time _ _ _ _ _ Hsw). lia.
    + apply up_inv_step; [lia|done|done].
  - injection Hup as <-. symmetry in HL. apply Z.ltb_ge in HL.
    by apply (up_inv_done _ j).
Qed.

(** [down] restores the order of the heap below its bound. *)
Lemma heap_down_ordered fuel pq i0 i n pq' moved :
  heap_down fuel pq i0 i n = Ok (pq', moved) → 0 <= i →
  down_inv (time_at pq) i n → ordered_below (time_at pq') n.
Proof.
  revert pq i. induction fuel as [|fuel IH]; intros pq i; [done|].
  cbn [heap_down]. intros Hd Hi Hinv.
  destruct (Z.geb_spec (2 * i + 1) n) as [Hleaf|Hj1]; cbn [orb] in Hd.
  { injection Hd as <- _. apply (down_inv_leaf _ i); (done || lia). }
  destruct (Z.ltb_spec (2 * i + 1) 0) as [|_]; [lia|].
  apply bind_Ok in Hd as (j & Hj & Hd).
  assert ((j = 2 * i + 1 ∨ j = 2 * i + 2) ∧ j < n ∧
          ∀ c, c = 2 * i + 1 ∨ c = 2 * i + 2 → c < n →
               time_at pq j <= time_at pq c) as (Hjc & Hjn & Hmin).
  { destruct (Z.ltb_spec (2 * i + 1 + 1) n) as [Hj2|Hj2].
    - apply bind_Ok in Hj as (b & HL & Hj). apply Less_time in HL.
      injection Hj as <-. symmetry in HL. destruct b.
      + apply Z.ltb_lt in HL. split_and!; [right; lia|lia|].
        intros c [->| ->] _; [lia|].
        replace (2 * i + 2) with (2 * i + 1 + 1) by lia. lia.
      + apply Z.ltb_ge in HL. split_and!; [by left|lia|].
        intros c [->| ->] _; [lia|].
        replace (2 * i + 2) with (2 * i + 1 + 1) by lia. lia.
    - injection Hj as <-. split_and!; [by left|lia|].
      intros c [->| ->] Hc; lia. }
  apply bind_Ok in Hd as (less & HL & Hd). apply Less_time in HL.
  symmetry in HL. destruct less; cbn [negb] in Hd.
  - apply bind_Ok in Hd as (pq1 & Hsw & Hd). apply Z.ltb_lt in HL.
    apply (IH _ _ Hd); [lia|].
    apply (down_inv_ext (exchange i j (time_at pq))).
    + intros k Hk. apply (Swap_time _ _ _ _ _ Hsw). lia.
    + apply down_inv_step; (done || lia).
  - injection Hd as <- _. apply Z.ltb_ge in HL.
    apply (down_inv_done _ i); [done| |done].
    intros c Hc Hcn. specialize (Hmin c Hc Hcn). lia.
Qed.

(** [heap.Push] keeps the order of the heap. *)
Lemma heap_Push_ordered pq x pq' :
  heap_Push pq x = Ok pq' → heap_ordered pq → heap_ordered pq'.
Proof.
  unfold heap_Push, Push. intros Hp Ho.
  apply bind_Ok in Hp as (pq1 & Hpush & Hup).
  apply bind_Ok in Hpush as (e & He & Hpush). apply deref_Ok in He.
  injection Hpush as <-.
  set (pq1 := {| objects := objects (store x (with_index (Len pq) e) pq);
                 items := items (store x (with_index (Len pq) e) pq) ++ [x] |}) in *.
  assert (Len pq1 = Len pq + 1) as HLen.
  { unfold Len, pq1. cbn [items store]. rewrite length_app. cbn [length]. lia. }
  assert (∀ k, 0 <= k < Len pq → time_at pq1 k = time_at pq k) as Hold.
  { intros k Hk. apply time_at_ext.
    - unfold pq1. cbn [items store]. apply lookup_app_l. unfold Len in Hk. lia.
    - intros p. unfold pq1, schedule. cbn [objects store].
      destruct (decide (x = p)) as [->|Hne].
      + by rewrite lookup_insert_eq, He.
      + by rewrite lookup_insert_ne. }
  change (heap_up (fuel_for pq1) pq1 (Len pq1 - 1) = Ok pq') in Hup.
  apply (heap_up_ordered _ _ _ _ Hup); [unfold Len in *; lia|].
  rewrite HLen. replace (Len pq + 1 - 1) with (Len pq) by lia. split.
  - intros k Hk Hne. rewrite !Hold by div_lia. apply Ho. lia.
  - intros k Hk Hp _. div_lia.
Qed.

(** [heap.Pop] keeps the order of the heap. *)
Lemma heap_Pop_ordered pq pq' p :
  heap_Pop pq = Ok (pq', p) → 0 < Len pq → heap_ordered pq → heap_ordered pq'.
Proof.
  unfold heap_Pop. intros Hpop Hlen Ho.
  apply bind_Ok in Hpop as (pq1 & Hsw & Hpop).
  apply bind_Ok in Hpop as ([pq2 moved] & Hd & Hpop). cbn [fst] in Hpop.
  pose proof (Swap_Ok _ _ _ _ Hsw) as (_ & _ & Hl1 & _).
  pose proof (heap_down_Ok _ _ _ _ _ _ _ Hd) as (_ & _ & Hl2 & _).
  assert (ordered_below (time_at pq2) (Len pq - 1)) as Ho2.
  { apply (heap_down_ordered _ _ _ _ _ _ _ Hd); [lia|]. split.
    - intros k Hk Hne.
      rewrite !(Swap_time _ _ _ _ _ Hsw) by div_lia. unfold exchange.
      destruct (Z.eqb_spec ((k - 1) / 2) 0) as [|_]; [done|].
      destruct (Z.eqb_spec ((k - 1) / 2) (Len pq - 1)) as [|_]; [div_lia|].
      destruct (Z.eqb_spec k 0) as [|_]; [lia|].
      destruct (Z.eqb_spec k (Len pq - 1)) as [|_]; [lia|].
      apply Ho. lia.
    - intros k _ _ Hfalse. lia. }
  unfold Pop in Hpop.
  apply bind_Ok in Hpop as (item & Hitem & Hpop).
  apply bind_Ok in Hpop as (e & He & Hpop). apply deref_Ok in He.
  injection Hpop as <- _.
  assert (Len pq2 = Len pq) as HLen2 by (unfold Len; lia).
  match goal with |- heap_ordered ?r => set (pq3 := r) end.
  assert (Len pq3 = Len pq - 1) as HLen3.
  { unfold Len at 1. unfold pq3. cbn [items]. rewrite length_take, HLen2.
    unfold Len in *. lia. }
  unfold heap_ordered. rewrite HLen3.
  apply (ordered_below_ext (time_at pq2)); [|done].
  intros k Hk. apply time_at_ext.
  - unfold pq3. cbn [items]. apply lookup_take_lt. lia.
  - intros q. by apply (store_index_schedule pq2 item e (-1) q).
Qed.

(** In a valid heap, no entry is earlier than the first one. *)
Lemma heap_ordered_root pq p0 e0 p e :
  valid pq → heap_ordered pq →
  items pq !! 0%nat = Some p0 → objects pq !! p0 = Some e0 →
  p ∈ items pq → objects pq !! p = Some e →
  readyAt e0 <= readyAt e.
Proof.
  intros Hv Ho Hp0 He0 Hp He.
  apply list_elem_of_lookup_1 in Hp as [k Hk].
  pose proof (lookup_lt_Some _ _ _ Hk) as Hlt.
  pose proof (ordered_below_root _ _ (Z.of_nat k) Ho) as Hroot.
  rewrite (time_at_lookup pq 0 p0 e0) in Hroot by done.
  rewrite (time_at_lookup pq (Z.of_nat k) p e) in Hroot by (by rewrite ?Nat2Z.id).
  apply Hroot. unfold Len. lia.
Qed.

Implicit Types (q : delayingType (T:=T)) (known : gmap T ptr).

(** X21.  [insert] for a key that has no entry keeps the heap: on a
    valid queue in which no entry is earlier than its parent, the call
    returns a valid queue in which again no entry is earlier than its
    parent. *)
Theorem insert_unseen_keeps_the_heap pq known entry e :
  valid pq → heap_ordered pq →
  objects pq !! entry = Some e → known !! data e = None →
  ∃ pq', insert pq known entry = Ok (pq', <[data e := entry]> known) ∧
         valid pq' ∧ heap_ordered pq'.
Proof.
  intros Hv Ho He Hk.
  destruct (heap_Push_total pq entry e Hv He) as [pq' Hpush].
  exists pq'. unfold insert, deref. rewrite He. cbn [must bind]. rewrite Hk, Hpush.
  split; [done|]. split.
  - apply heap_Push_Ok in Hpush as (_ & _ & Hv' & _). by apply Hv'.
  - by apply (heap_Push_ordered pq entry).
Qed.

Lemma add_ready_ordered fuel now q q' :
  add_ready fuel now q = Ok q' →
  valid (waitingForQueue q) → heap_ordered (waitingForQueue q) →
  heap_ordered (waitingForQueue q') ∧
  ∀ p, p ∈ items (waitingForQueue q') →
       ∃ (key : T) t, schedule (waitingForQueue q') p = Some (key, t) ∧ now < t.
Proof.
  revert q. induction fuel as [|fuel IH]; intros q; [done|].
  cbn [add_ready]. intros Hadd Hv Ho.
  destruct (Z.gtb_spec (Len (waitingForQueue q)) 0) as [Hlen|Hlen].
  2:{ injection Hadd as <-. split; [done|]. intros p Hp.
      apply list_elem_of_lookup_1 in Hp as [k Hk%lookup_lt_Some].
      unfold Len in Hlen. lia. }
  apply bind_Ok in Hadd as (entry & Hentry & Hadd).
  apply at_index_Ok in Hentry as [_ Hentry]. cbn [Z.to_nat] in Hentry.
  apply bind_Ok in Hadd as (e & He & Hadd). apply deref_Ok in He.
  destruct (Z.gtb_spec (readyAt e) now) as [Hlate|Hdue].
  { injection Hadd as <-. split; [done|]. intros p Hp.
    destruct (Hv p Hp) as [ep Hep].
    pose proof (heap_ordered_root _ _ _ _ _ Hv Ho Hentry He Hp Hep) as Hroot.
    exists (data ep), (readyAt ep). unfold schedule. rewrite Hep. split; [done|lia]. }
  destruct (heap_Pop_Ok (waitingForQueue q) Hv) as (pq' & p & Hpop & _ & _ & _ & _ & Hv');
    [lia|].
  rewrite Hpop in Hadd. cbn [bind fst snd] in Hadd.
  apply bind_Ok in Hadd as (e' & He' & Hadd).
  apply (IH _ Hadd); cbn [waitingForQueue with_waiting]; [done|].
  apply (heap_Pop_ordered _ _ _ Hpop); [lia|done].
Qed.

(** X22.  The loop "Add ready entries" on a heap leaves nothing that is
    due: on a valid queue in which no entry is earlier than its parent,
    the loop ends without a panic, every entry that stays is later than
    [now], and the queue that stays is again valid with no entry earlier
    than its parent. *)
Theorem add_ready_leaves_nothing_due now q :
  valid (waitingForQueue q) → heap_ordered (waitingForQueue q) →
  ∃ q', add_ready (fuel_for (waitingForQueue q)) now q = Ok q' ∧
        valid (waitingForQueue q') ∧ heap_ordered (waitingForQueue q') ∧
        ∀ p, p ∈ items (waitingForQueue q') →
             ∃ (key : T) t, schedule (waitingForQueue q') p = Some (key, t) ∧ now < t.
Proof.
  intros Hv Ho.
  destruct (add_ready_Ok (fuel_for (waitingForQueue q)) now q Hv)
    as (q' & Hadd & _ & _ & _ & _ & _ & _ & Hv' & _).
  { unfold fuel_for. lia. }
  destruct (add_ready_ordered _ _ _ _ Hadd Hv Ho) as [Ho' Hlate].
  exists q'. by split_and!.
Qed.

End heap_order_of_the_queue.

(** ** The shared informer factory: Start and Shutdown *)

Section factory_shutdown.

Import Informers.

Context {ReflectType : Type} `{Countable ReflectType}.
Context {SharedInformer Obj StopCh : Type}.

Implicit Types
  (f : sharedInformerFactory (ReflectType:=ReflectType) (SharedInformer:=SharedInformer))
  (order : list (ReflectType * SharedInformer))
  (stopCh : StopCh).

Lemma goroutine_returns_iter (m : nat) f :
  wg (Nat.iter m goroutine_returns f) = wg f - Z.of_nat m ∧
  shuttingDown (Nat.iter m goroutine_returns f) = shuttingDown f.
Proof.
  induction m as [|m [IHw IHs]]; [cbn; split; [lia|done]|].
  rewrite Nat.iter_succ.
  change (wg (goroutine_returns ?g)) with (wg g - 1).
  change (shuttingDown (goroutine_returns ?g)) with (shuttingDown g).
  rewrite IHw, IHs. split; [lia|done].
Qed.

(** X18.  [Start] on a factory whose wait group is at zero, then
    [Shutdown]: [Shutdown] waits as long as one of the goroutines that
    [Start] launched has not returned, and no longer; and a [Start]
    after the [Shutdown] launches nothing. *)
Theorem Shutdown_waits_for_the_launched order stopCh f (m : nat) order' stopCh' :
  shuttingDown f = false → wg f = 0 →
  order ≡ₚ map_to_list (informers f) →
  (m <= length (Start_in order stopCh f).2)%nat →
  let f' := Nat.iter m goroutine_returns (Shutdown (Start_in order stopCh f).1) in
  Shutdown_waits f' = negb (m =? length (Start_in order stopCh f).2)%nat ∧
  Start_in order' stopCh' f' = (f', []).
Proof.
  intros Hs Hw Hp Hm f'.
  destruct (Start_in_spec order stopCh f Hs Hp) as (Hgs & _ & _ & _ & Hwg & _).
  assert (length (Start_in order stopCh f).2 = length (unstarted f)) as Hlen.
  { rewrite <- Hgs. by rewrite length_fmap. }
  destruct (goroutine_returns_iter m (Shutdown (Start_in order stopCh f).1)) as [Hw' Hs'].
  fold f' in Hw', Hs'. cbn [wg shuttingDown Shutdown] in Hw', Hs'.
  split.
  - unfold Shutdown_waits. rewrite Hw', Hwg, Hw, <- Hlen. f_equal.
    destruct (Z.eqb_spec (0 + Z.of_nat (length (Start_in order stopCh f).2) - Z.of_nat m) 0),
      (Nat.eqb_spec m (length (Start_in order stopCh f).2)); (done || lia).
  - unfold Start_in. by rewrite Hs'.
Qed.

End factory_shutdown.

(** ** Instances of the further properties (keys are naturals) *)

Section queue_more_runs.

Import Queue.

(** X1, witness: key 1 is added, taken and added again. *)
Lemma dirty_keys_are_pending_or_processing_witness :
  1%nat ∈ queue (run 0%nat [OAdd 1%nat; OGet; OAdd 1%nat] q0) ∨
  1%nat ∈ processing (run 0%nat [OAdd 1%nat; OGet; OAdd 1%nat] q0).
Proof.
  apply (dirty_keys_are_pending_or_processing 0%nat [OAdd 1%nat; OGet; OAdd 1%nat] 1%nat).
  apply set_has_true. vm_compute. reflexivity.
Defined.

(** X2, witness: key 1 is added and taken. *)
Lemma Get_hands_out_idle_keys_witness :
  let q' := step 0%nat (Add 1%nat q0) OGet in
  (1%nat ∉ processing (run 0%nat [OAdd 1%nat] q0)) ∧
  1%nat ∈ processing q' ∧ (1%nat ∉ dirty q') ∧ (1%nat ∉ queue q').
Proof.
  intros q'.
  apply (Get_hands_out_idle_keys 0%nat [OAdd 1%nat] 1%nat q');
    vm_compute; reflexivity.
Defined.

(** X4, witness: key 1 on the new queue. *)
Lemma Add_Get_Done_round_trip_witness :
  ∃ q1, Get 0%nat (Add 1%nat q0) = GetReturns 1%nat false q1 ∧ Done 1%nat q1 = q0.
Proof.
  apply (Add_Get_Done_round_trip 0%nat 1%nat q0); [reflexivity|reflexivity| |];
    apply set_has_false; vm_compute; reflexivity.
Defined.

End queue_more_runs.

Section limiter_more_runs.

Import Limiters.

#[local] Existing Instance amd64.

(** A base delay of 1s and a maximal delay of 60s. *)
Definition limiter_1s_60s : ItemExponentialFailureRateLimiter (T:=nat) :=
  NewItemExponentialFailureRateLimiter second (60 * second).

(** Two fast attempts of 1s, then 10s. *)
Definition limiter_fast_slow : ItemFastSlowRateLimiter (T:=nat) :=
  NewItemFastSlowRateLimiter second (10 * second) 2.

(** X7, witness: the fourth call waits 8s. *)
Lemma exponential_When_closed_form_witness :
  (When_times 4 7%nat limiter_1s_60s).1 = Z.min (second * 2 ^ 3) (60 * second).
Proof.
  apply (exponential_When_closed_form 3 7%nat limiter_1s_60s); by vm_compute.
Defined.

(** X9, witness: three calls, then Forget. *)
Lemma exponential_NumRequeues_and_Forget_witness :
  let rn := (When_times 3 7%nat limiter_1s_60s).2 in
  NumRequeues 7%nat rn = 3 ∧
  NumRequeues 7%nat (Forget 7%nat rn) = 0 ∧
  (When 7%nat (Forget 7%nat rn)).1 = (When 7%nat limiter_1s_60s).1.
Proof.
  apply (exponential_NumRequeues_and_Forget 3 7%nat limiter_1s_60s); by vm_compute.
Defined.

(** X10, witness: keys 1 and 2. *)
Lemma exponential_keys_independent_witness :
  NumRequeues 2%nat (When 1%nat limiter_1s_60s).2 = NumRequeues 2%nat limiter_1s_60s ∧
  (When 2%nat (When 1%nat limiter_1s_60s).2).1 = (When 2%nat limiter_1s_60s).1 ∧
  NumRequeues 2%nat (Forget 1%nat limiter_1s_60s) = NumRequeues 2%nat limiter_1s_60s ∧
  (When 2%nat (Forget 1%nat limiter_1s_60s)).1 = (When 2%nat limiter_1s_60s).1.
Proof.
  apply (exponential_keys_independent 1%nat 2%nat limiter_1s_60s). lia.
Defined.

(** X11, witness: the third call is the first slow one. *)
Lemma fastslow_When_closed_form_witness :
  (When_times 3 7%nat limiter_fast_slow).1 = 10 * second ∧
  NumRequeues 7%nat (When_times 3 7%nat limiter_fast_slow).2 = 3 ∧
  NumRequeues 7%nat (Forget 7%nat (When_times 3 7%nat limiter_fast_slow).2) = 0.
Proof.
  apply (fastslow_When_closed_form 2 7%nat limiter_fast_slow); by vm_compute.
Defined.

(** A token bucket that never makes a caller wait. *)
Definition bucket_without_delay : TokenBucket unit :=
  {| Reserve_Delay := λ b, (0, b) |}.

#[local] Existing Instance bucket_without_delay.

(** X19, witness: the third call for a key. *)
Lemma DefaultContrllerRateLimiter_When_witness :
  let r := DefaultContrllerRateLimiter (T:=nat) tt in
  (When_times 3 7%nat r).1 =
    Z.max (Z.min (5000000 * 2 ^ 2) 1000000000000) (Reserve_Delay (reserved 2 tt)).1 ∧
  NumRequeues 7%nat (When_times 2 7%nat r).2 = 2 ∧
  NumRequeues 7%nat (Forget 7%nat (When_times 2 7%nat r).2) = 0.
Proof.
  apply (DefaultContrllerRateLimiter_When 2 7%nat tt). by vm_compute.
Defined.

End limiter_more_runs.

Section delaying_more_runs.

Import Delaying.

(** Key 7 waits for time 10 (object 0); a request for key 7 at time 5
    has arrived (object 1). *)
Definition waiting_7_at_10 : waitForPriorityQueue (T:=nat) :=
  {| objects := {[ 0%nat := {| data := 7%nat; readyAt := 10; index := 0 |};
                   1%nat := {| data := 7%nat; readyAt := 5; index := 0 |} ]};
     items := [0%nat] |}.

(** A request for key 7 at time 5 has arrived (object 0); nothing
    waits. *)
Definition nothing_waiting : waitForPriorityQueue (T:=nat) :=
  {| objects := {[ 0%nat := {| data := 7%nat; readyAt := 5; index := 0 |} ]};
     items := [] |}.

Lemma valid_waiting_7_at_10 : valid waiting_7_at_10.
Proof.
  intros p Hp. apply list_elem_of_singleton in Hp as ->.
  eexists. vm_compute. reflexivity.
Qed.

(** X12, witness: the request at 5 takes the entry of key 7 from 10 to
    5. *)
Lemma insert_pending_key_witness :
  ∃ pq', insert waiting_7_at_10 {[ 7%nat := 0%nat ]} 1%nat
           = Ok (pq', {[ 7%nat := 0%nat ]}) ∧
         schedule pq' 0%nat = Some (7%nat, 5).
Proof.
  destruct (insert_pending_key waiting_7_at_10 {[ 7%nat := 0%nat ]} 1%nat
              {| data := 7%nat; readyAt := 5; index := 0 |} 0%nat
              {| data := 7%nat; readyAt := 10; index := 0 |})
    as (_ & Hearlier & _);
    [exact valid_waiting_7_at_10|vm_compute; reflexivity..|].
  destruct Hearlier as (pq' & Hins & Hs & _); [by vm_compute|by vm_compute|].
  exists pq'. split; [exact Hins|exact Hs].
Defined.

(** X13, witness: the request for key 7 on a queue with nothing
    waiting. *)
Lemma insert_unseen_witness :
  ∃ pq', insert nothing_waiting ∅ 0%nat = Ok (pq', {[ 7%nat := 0%nat ]}) ∧
         schedule pq' 0%nat = Some (7%nat, 5).
Proof.
  destruct (insert_unseen nothing_waiting ∅ 0%nat
              {| data := 7%nat; readyAt := 5; index := 0 |})
    as (pq' & Hins & Hs & _);
    [by apply valid_nil|vm_compute; reflexivity|vm_compute; reflexivity|].
  exists pq'. split; [exact Hins|exact Hs].
Defined.

(** X14, witness: at time 20 with key 7 waiting for time 10. *)
Lemma add_ready_admits_only_due_witness :
  let q := with_waiting waiting_7_at_10 {[ 7%nat := 0%nat ]} (newDelayingQueue 0) in
  ∃ q', add_ready (fuel_for (waitingForQueue q)) 20 q = Ok q' ∧
        valid (waitingForQueue q').
Proof.
  intros q.
  destruct (add_ready_admits_only_due 20 q valid_waiting_7_at_10)
    as (q' & Hadd & _ & _ & _ & _ & Hv).
  exists q'. split; [exact Hadd|exact Hv].
Defined.

(** X15, witness: key 7 with a delay of 5 on a new queue.  Received 3
    after the call it is scheduled for time 5; received 6 after the
    call it is added at once. *)
Lemma AddAfter_then_loop_schedules_witness :
  ∃ q1 q2 q2',
    AddAfter 7%nat 5 (newDelayingQueue 0) = Some q1 ∧
    waitingLoop_select [] WReceive (clock_step 3 q1) = Ok (q2, true) ∧
    Interface q2 = Interface q1 ∧
    (∃ p, p ∈ items (waitingForQueue q2) ∧
          schedule (waitingForQueue q2) p = Some (7%nat, 5)) ∧
    waitingLoop_select [] WReceive (clock_step 6 q1) = Ok (q2', true) ∧
    Interface q2' = Queue.Add 7%nat (Interface q1) ∧
    waitingForQueue q2' = waitingForQueue q1.
Proof.
  destruct (AddAfter_then_loop_schedules (newDelayingQueue 0) 7%nat 5)
    as (q1 & HA & _ & Hsel & _);
    [by apply valid_nil|reflexivity|reflexivity|reflexivity|reflexivity|lia|].
  destruct (Hsel 3 []) as (q2 & HS & Hc & _ & Hlate & _).
  destruct (Hsel 6 []) as (q2' & HS' & Hc' & _ & _ & Hdue).
  destruct Hlate as (HI & _ & _ & _ & p & Hp & Hsp & _).
  { rewrite Hc. cbn [clock newDelayingQueue]. lia. }
  destruct Hdue as (HI' & Hw & _).
  { rewrite Hc'. cbn [clock newDelayingQueue]. lia. }
  exists q1, q2, q2'. split; [exact HA|]. split; [exact HS|]. split; [exact HI|].
  split; [exists p; split; [exact Hp|exact Hsp]|].
  split; [exact HS'|]. split; [exact HI'|exact Hw].
Defined.

(** X16, witness: key 7 with a delay of 5 on a new queue.  The loop
    begins a pass 1 after the call and receives the request 2 later; a
    pass begun 2 after that adds the key. *)
Lemma delayed_key_is_added_when_due_witness :
  ∃ q1 q2 q3,
    AddAfter 7%nat 5 (newDelayingQueue 0) = Some q1 ∧
    waitingLoop_select [] WReceive (clock_step 2 (clock_step 1 q1)) = Ok (q2, true) ∧
    Interface q2 = Queue.newQueue ∧
    waitingLoop_until_select (clock_step 2 q2) = Ok (q3, true) ∧
    Interface q3 = Queue.Add 7%nat Queue.newQueue.
Proof.
  destruct (delayed_key_is_added_when_due (newDelayingQueue 0) 7%nat 5 1 2 [])
    as (q1 & q2 & HA & _ & HS & HI & Hlater);
    [reflexivity|reflexivity|reflexivity|reflexivity|reflexivity|lia|].
  destruct (Hlater ltac:(lia) 2) as (q3 & H3 & HI3 & _).
  exists q1, q2, q3. split; [exact HA|]. split; [exact HS|]. split; [exact HI|].
  split; [exact H3|exact HI3].
Defined.

(** X17, witness: ShutDown of a new queue. *)
Lemma ShutDown_drops_delayed_witness :
  AddAfter 7%nat 5 (ShutDown (newDelayingQueue 0)) = Some (ShutDown (newDelayingQueue 0)) ∧
  waitingLoop_iteration WHeartbeat (ShutDown (newDelayingQueue (T:=nat) 0))
    = Ok (ShutDown (newDelayingQueue 0), false).
Proof.
  destruct (ShutDown_drops_delayed (newDelayingQueue 0) 7%nat 5 WHeartbeat)
    as (HA & HL & _); [reflexivity|].
  split; [exact HA|exact HL].
Defined.

(** Keys 7 and 8 wait for the times 10 and 20 (objects 0 and 1); a
    request for key 9 at time 5 has arrived (object 2). *)
Definition waiting_10_20 : waitForPriorityQueue (T:=nat) :=
  {| objects := {[ 0%nat := {| data := 7%nat; readyAt := 10; index := 0 |};
                   1%nat := {| data := 8%nat; readyAt := 20; index := 1 |};
                   2%nat := {| data := 9%nat; readyAt := 5; index := 0 |} ]};
     items := [0%nat; 1%nat] |}.

(** Keys 7, 8 and 9 wait for the times 10, 20 and 30 (objects 0, 1 and
    2). *)
Definition waiting_10_20_30 : waitForPriorityQueue (T:=nat) :=
  {| objects := {[ 0%nat := {| data := 7%nat; readyAt := 10; index := 0 |};
                   1%nat := {| data := 8%nat; readyAt := 20; index := 1 |};
                   2%nat := {| data := 9%nat; readyAt := 30; index := 2 |} ]};
     items := [0%nat; 1%nat; 2%nat] |}.

Lemma valid_waiting_10_20 : valid waiting_10_20.
Proof.
  intros p Hp. cbn [items waiting_10_20] in Hp.
  repeat (apply elem_of_cons in Hp as [->|Hp]; [eexists; vm_compute; reflexivity|]).
  by apply elem_of_nil in Hp.
Qed.

Lemma heap_ordered_waiting_10_20 : heap_ordered waiting_10_20.
Proof.
  intros k Hk. assert (k = 1) as -> by (unfold Len in Hk; cbn in Hk; lia).
  by vm_compute.
Qed.

Lemma valid_waiting_10_20_30 : valid waiting_10_20_30.
Proof.
  intros p Hp. cbn [items waiting_10_20_30] in Hp.
  repeat (apply elem_of_cons in Hp as [->|Hp]; [eexists; vm_compute; reflexivity|]).
  by apply elem_of_nil in Hp.
Qed.

Lemma heap_ordered_waiting_10_20_30 : heap_ordered waiting_10_20_30.
Proof.
  intros k Hk.
  assert (k = 1 ∨ k = 2) as [-> | ->] by (unfold Len in Hk; cbn in Hk; lia);
    by vm_compute.
Qed.

(** X21, witness: the request for key 9 at time 5 on the heap of the
    keys 7 and 8 at the times 10 and 20.  The new entry is earlier than
    the first one: [up] takes it to the front, and the entries are then
    in the order 5, 20, 10. *)
Lemma insert_unseen_keeps_the_heap_witness :
  ∃ pq', insert waiting_10_20 {[ 7%nat := 0%nat; 8%nat := 1%nat ]} 2%nat
           = Ok (pq', <[ 9%nat := 2%nat ]> {[ 7%nat := 0%nat; 8%nat := 1%nat ]}) ∧
         items pq' = [2%nat; 1%nat; 0%nat] ∧
         valid pq' ∧ heap_ordered pq'.
Proof.
  destruct (insert_unseen_keeps_the_heap waiting_10_20
              {[ 7%nat := 0%nat; 8%nat := 1%nat ]} 2%nat
              {| data := 9%nat; readyAt := 5; index := 0 |})
    as (pq' & Hins & Hv & Ho);
    [exact valid_waiting_10_20|exact heap_ordered_waiting_10_20
    |vm_compute; reflexivity|vm_compute; reflexivity|].
  exists pq'. split; [exact Hins|]. split; [|split; [exact Hv|exact Ho]].
  assert (∃ pq'' known'',
            insert waiting_10_20 {[ 7%nat := 0%nat; 8%nat := 1%nat ]} 2%nat
              = Ok (pq'', known'') ∧ items pq'' = [2%nat; 1%nat; 0%nat])
    as (pq'' & known'' & Hins' & Hitems).
  { eexists _, _. split; vm_compute; reflexivity. }
  rewrite Hins in Hins'. injection Hins' as -> _. exact Hitems.
Defined.

(** X22, witness: at time 15 with the keys 7, 8 and 9 waiting for the
    times 10, 20 and 30.  Key 7 is handed to the wrapped queue; [down]
    takes the entry of key 8 to the front; the keys 8 and 9 stay, later
    than 15 and in the order of a heap. *)
Lemma add_ready_leaves_nothing_due_witness :
  let q := with_waiting waiting_10_20_30
             {[ 7%nat := 0%nat; 8%nat := 1%nat; 9%nat := 2%nat ]}
             (newDelayingQueue 0) in
  ∃ q', add_ready (fuel_for (waitingForQueue q)) 15 q = Ok q' ∧
        items (waitingForQueue q') = [1%nat; 2%nat] ∧
        Queue.queue (Interface q') = [7%nat] ∧
        heap_ordered (waitingForQueue q') ∧
        ∀ p, p ∈ items (waitingForQueue q') →
             ∃ (key : nat) t, schedule (waitingForQueue q') p = Some (key, t) ∧ 15 < t.
Proof.
  intros q.
  destruct (add_ready_leaves_nothing_due 15 q valid_waiting_10_20_30
              heap_ordered_waiting_10_20_30)
    as (q' & Hadd & _ & Ho & Hlate).
  exists q'. split; [exact Hadd|].
  assert (∃ q'', add_ready (fuel_for (waitingForQueue q)) 15 q = Ok q'' ∧
                 items (waitingForQueue q'') = [1%nat; 2%nat] ∧
                 Queue.queue (Interface q'') = [7%nat])
    as (q'' & Hadd' & Hitems & Hqueue).
  { eexists. split_and!; vm_compute; reflexivity. }
  rewrite Hadd in Hadd'. injection Hadd' as ->.
  split; [exact Hitems|]. split; [exact Hqueue|]. split; [exact Ho|exact Hlate].
Defined.

End delaying_more_runs.

Section factory_more_runs.

Import Informers.

(** X18, witness: the two tasks are started, Shutdown is called, and one
    of the two goroutines has returned. *)
Lemma Shutdown_waits_for_the_launched_witness :
  let order := [(1, 10); (2, 20)]%nat in
  let f' := Nat.iter 1 goroutine_returns (Shutdown (Start_in order tt two_tasks).1) in
  Shutdown_waits f' = negb (1 =? length (Start_in order tt two_tasks).2)%nat ∧
  Start_in order tt f' = (f', []).
Proof.
  intros order.
  apply (Shutdown_waits_for_the_launched order tt two_tasks 1 order tt).
  - reflexivity.
  - reflexivity.
  - rewrite two_tasks_list. constructor.
  - vm_compute. lia.
Defined.

End factory_more_runs.
